(** * KanaDojo: mastery classification and the word-building games

    A shallow embedding of the adaptive drill core of the application:
    - the mastery read-model of [features/Kanji/components/index.tsx] and
      [features/Vocabulary/components/index.tsx];
    - [generateWord] / [handleCheck] of the kana word-building game and
      [generateQuestion] / [handleCheck] of the kanji word-building game;
    - the sets, the numbering, the filter and the paging of the two card
      grids;
    - the other handlers of the two games: reset, tile clicks, the button
      of the bottom bar, and the kana tables.

    JavaScript numbers that hold counters, lengths and scores are integers
    and are modelled by [Z].  The one quotient of the code, the accuracy of
    an item, is an IEEE 754 double: Module [Binary64] gives the correctly
    rounded quotient of two integers, and the mastery test is evaluated on
    it.  The spec reads the same test on the exact rational quotient; the
    two are shown to agree for all counters up to [2 ^ 50]. *)

From Stdlib Require Import ZArith QArith Qround Lia Lqa.
From Stdlib Require SpecFloat.
From stdpp Require Import gmap strings list fin_maps pretty.

Local Open Scope Z_scope.

(** ** Mastery classification *)

(** *** Double precision

    The quotient [stats.correct / total] and the literal [0.9] are IEEE 754
    binary64 numbers.  A positive double is kept as [(m, e)], standing for
    [m * 2 ^ e] with [2 ^ 52 <= m <= 2 ^ 53]; subnormals and overflow cannot
    occur for a quotient of two integers below [2 ^ 53] and are left out. *)

Module Binary64.

(** The integer nearest to [p / q], for [q > 0], ties to even. *)
Definition roundHalfEven (p q : Z) : Z :=
  let f := p / q in
  let r := p mod q in
  if 2 * r <? q then f
  else if q <? 2 * r then f + 1
  else if Z.even f then f else f + 1.

(** [floor (log2 (n / d))] for [n, d > 0]. *)
Definition binade (n d : Z) : Z :=
  let k := Z.log2 n - Z.log2 d in
  if d * 2 ^ Z.max 0 k <=? n * 2 ^ Z.max 0 (- k) then k else k - 1.

(** The double nearest to [n / d], for [n >= 0] and [d > 0]. *)
Definition round64 (n d : Z) : Z * Z :=
  if n =? 0 then (0, 0)
  else
    let e := binade n d - 52 in
    (roundHalfEven (n * 2 ^ Z.max 0 (- e)) (d * 2 ^ Z.max 0 e), e).

(** [x <= y] on doubles. *)
Definition le64 (x y : Z * Z) : bool :=
  x.1 * 2 ^ Z.max 0 (x.2 - y.2) <=? y.1 * 2 ^ Z.max 0 (y.2 - x.2).

(** The literal [0.9]. *)
Definition threshold64 : Z * Z := round64 9 10.

(** The same numbers in the Standard Library's specification of IEEE 754
    arithmetic, to compare [round64] with its division. *)
Definition number (z : Z) : SpecFloat.spec_float :=
  SpecFloat.binary_normalize 53 1024 z 0 false.

Definition toSpecFloat (x : Z * Z) : SpecFloat.spec_float :=
  SpecFloat.binary_normalize 53 1024 x.1 x.2 false.

Definition divide64 (n d : Z) : SpecFloat.spec_float :=
  SpecFloat.SFdiv 53 1024 (number n) (number d).

End Binary64.

(** *** The test of the two grids *)

Module Mastery.
Import Binary64.

(** One entry of [allTimeStats.characterMastery].  The counters start at 0
    and grow by one per answer: they are integers, which a double holds
    exactly, as it does their sum, up to [2 ^ 53]. *)
Record CharacterStats : Type := mkStats { correct : Z; incorrect : Z }.

(** [const total = stats.correct + stats.incorrect] *)
Definition total (stats : CharacterStats) : Z :=
  correct stats + incorrect stats.

(** [const accuracy = total > 0 ? stats.correct / total : 0], a double: the
    quotient is the double nearest to the exact one, the constant is the
    double zero. *)
Definition accuracy (stats : CharacterStats) : Z * Z :=
  if 0 <? total stats then round64 (correct stats) (total stats) else (0, 0).

(** [total >= 10 && accuracy >= 0.9], the guard of [mastered.add]; the
    comparison is between doubles. *)
Definition meetsThresholds (stats : CharacterStats) : bool :=
  (10 <=? total stats) && le64 threshold64 (accuracy stats).

(** The spec's reading of the accuracy, to compare the code with: the exact
    quotient [correct / (correct + incorrect)], and 0 without attempts. *)
Definition exactAccuracy (stats : CharacterStats) : Q :=
  if 0 <? total stats
  then (inject_Z (correct stats) / inject_Z (total stats))%Q
  else 0%Q.

(** The spec's reading of the test: at least 10 attempts and an exact
    accuracy of at least 9/10. *)
Definition meetsThresholdsExactly (stats : CharacterStats) : bool :=
  (10 <=? total stats) && Qle_bool (9 # 10) (exactAccuracy stats).

(** [Array.prototype.slice(start, end)] for non-negative integer bounds. *)
Definition slice {A : Type} (l : list A) (start stop : nat) : list A :=
  take (stop - start)%nat (drop start l).

End Mastery.

(** *** Kanji card grid, [features/Kanji/components/index.tsx] *)

(** [IKanjiObj] of [features/Kanji/store/useKanjiStore]. *)
Module KanjiStore.

(** The fields of [IKanjiObj] that the modelled code reads. *)
Record IKanjiObj : Type := mkKanji { kanjiChar : string; meanings : list string }.

End KanjiStore.

Module KanjiCards.
Import Mastery KanjiStore.

Definition KANJI_PER_SET : nat := 10.

(** An entry of [kanjiCollections]. *)
Record KanjiCollection : Type :=
  mkKanjiCollection { data : list IKanjiObj; name : string; prevLength : nat }.

(** A fresh set, one pass over [Object.entries(characterMastery)],
    [mastered.add(char)] under the guard. *)
Definition masteredCharacters (characterMastery : gmap string CharacterStats)
  : gset string :=
  foldl (λ mastered '(char, stats),
           if meetsThresholds stats then {[ char ]} ∪ mastered else mastered)
        ∅ (map_to_list characterMastery).

Definition isSetMastered (selectedKanjiCollection : option KanjiCollection)
    (characterMastery : gmap string CharacterStats)
    (setStart setEnd : nat) : bool :=
  match selectedKanjiCollection with
  | None => false
  | Some collection =>
      let kanjiInSet :=
        slice (data collection)
              (setStart * KANJI_PER_SET) (setEnd * KANJI_PER_SET) in
      forallb (λ kanji,
                 bool_decide (kanjiChar kanji
                                ∈ masteredCharacters characterMastery))
              kanjiInSet
  end.

End KanjiCards.

(** *** Vocabulary card grid, [features/Vocabulary/components/index.tsx] *)

Module VocabCards.
Import Mastery.

Definition WORDS_PER_SET : nat := 10.

(** The field of a vocabulary entry that the modelled code reads. *)
Record IVocabObj : Type := mkVocab { word : string }.

Record VocabCollection : Type :=
  mkVocabCollection { data : list IVocabObj; name : string; prevLength : nat }.

(** A fresh set, one pass over [Object.entries(characterMastery)],
    [mastered.add(word)] under the guard. *)
Definition masteredWords (characterMastery : gmap string CharacterStats)
  : gset string :=
  foldl (λ mastered '(word, stats),
           if meetsThresholds stats then {[ word ]} ∪ mastered else mastered)
        ∅ (map_to_list characterMastery).

Definition isSetMastered (selectedVocabCollection : option VocabCollection)
    (characterMastery : gmap string CharacterStats)
    (setStart setEnd : nat) : bool :=
  match selectedVocabCollection with
  | None => false
  | Some collection =>
      let wordsInSet :=
        slice (data collection)
              (setStart * WORDS_PER_SET) (setEnd * WORDS_PER_SET) in
      forallb (λ vocab,
                 bool_decide (word vocab ∈ masteredWords characterMastery))
              wordsInSet
  end.

End VocabCards.


(** ** The word-building games *)

(** The collaborators of the games whose code lives outside the modelled
    files.  Each is an interface: the games are defined, and every theorem
    about them is proved, for arbitrary implementations. *)

(** [getGlobalAdaptiveSelector()], a process-wide mutable singleton. *)
Class AdaptiveSelector : Type := {
  SelectorState : Type;
  selectWeightedCharacter : list string → SelectorState → string * SelectorState;
  markCharacterSeen : string → SelectorState → SelectorState;
  updateCharacterWeight : string → bool → SelectorState → SelectorState
}.

(** [new Random()] of random-js, and [Array.prototype.sort] driven by the
    comparator [() => random.real(0, 1) - 0.5]. *)
Class RandomEngine : Type := {
  RandomState : Type;
  randomInteger : Z → Z → RandomState → Z * RandomState;
  randomSort : ∀ {A : Type}, list A → RandomState → list A * RandomState
}.

(** The hook [useSmartReverseMode()]. *)
Class SmartReverseMode : Type := {
  ReverseModeState : Type;
  internalIsReverse : ReverseModeState → bool;
  decideNextMode : ReverseModeState → ReverseModeState;
  recordWrongAnswer : ReverseModeState → ReverseModeState
}.

(** String primitives of the host: [s.charCodeAt(0)] ([None] is [NaN]) and
    [s.toUpperCase()]. *)
Class HostStrings : Type := {
  charCodeAt0 : string → option Z;
  toUpperCase : string → string
}.

Module Game.

(** The second argument of [incrementCharacterScore]. *)
Inductive ScoreField : Type := FieldCorrect | FieldWrong.

(** Calls made to collaborators, in program order. *)
Inductive Event : Type :=
| SelectWeightedCharacter (candidates : list string)
| MarkCharacterSeen (id : string)
| UpdateCharacterWeight (id : string) (wasCorrect : bool)
| DecideNextMode
| RecordWrongAnswer
| StopwatchPause
| StopwatchReset
| PlayClick
| PlayCorrect
| PlayErrorTwice
| TriggerCrazyMode
| ResetWrongStreak
| IncrementWrongStreak
| AddCorrectAnswerTime
| RecordAnswerTime
| AddCharacterToHistory (id : string)
| IncrementCharacterScore (id : string) (field : ScoreField)
| IncrementHiraganaCorrect
| IncrementKatakanaCorrect
| IncrementKanjiCorrect (level : string)
| IncrementCorrectAnswers
| IncrementWrongAnswers
| ExternalOnWrong.

Definition isControllerEvent (e : Event) : bool :=
  match e with
  | DecideNextMode | RecordWrongAnswer => true
  | _ => false
  end.

Inductive BottomBarState : Type := BarCheck | BarCorrect | BarWrong.

Section World.
Context `{!AdaptiveSelector, !RandomEngine, !SmartReverseMode, !HostStrings}.

(** Everything a handler can read or write outside its own component:
    the selector singleton, the random engine, the reverse-mode hook, the
    [score] slot of the stats store, and the history of collaborator calls. *)
Record World : Type := mkWorld {
  selector : SelectorState;
  rng : RandomState;
  reverseMode : ReverseModeState;
  score : Z;
  trace : list Event
}.

Definition Eff (A : Type) : Type := World → A * World.

Definition ret {A : Type} (a : A) : Eff A := λ w, (a, w).

Definition bind {A B : Type} (m : Eff A) (k : A → Eff B) : Eff B :=
  λ w, let '(a, w') := m w in k a w'.

Definition emit (e : Event) : Eff unit :=
  λ w, (tt, mkWorld (selector w) (rng w) (reverseMode w) (score w)
                    (trace w ++ [e])).

Definition readScore : Eff Z := λ w, (score w, w).

Definition setScore (v : Z) : Eff unit :=
  λ w, (tt, mkWorld (selector w) (rng w) (reverseMode w) v (trace w)).

End World.

Declare Scope eff_scope.
Delimit Scope eff_scope with eff.
Notation "'let*' x := m 'in' k" := (bind m (λ x, k))
  (at level 10, x name, m at level 100, k at level 200,
   format "'[v' 'let*'  x  :=  m  'in' '/' k ']'") : eff_scope.
Notation "m ;; k" := (bind m (λ _, k))
  (at level 100, k at level 200, right associativity) : eff_scope.

Section Calls.
Context `{!AdaptiveSelector, !RandomEngine, !SmartReverseMode, !HostStrings}.
Local Open Scope eff_scope.

(** [adaptiveSelector.selectWeightedCharacter(candidates)] *)
Definition callSelectWeightedCharacter (candidates : list string) : Eff string :=
  λ w, let '(selected, s) := selectWeightedCharacter candidates (selector w) in
       (selected, mkWorld s (rng w) (reverseMode w) (score w)
                          (trace w ++ [SelectWeightedCharacter candidates])).

(** [adaptiveSelector.markCharacterSeen(id)] *)
Definition callMarkCharacterSeen (id : string) : Eff unit :=
  λ w, (tt, mkWorld (markCharacterSeen id (selector w)) (rng w)
                    (reverseMode w) (score w)
                    (trace w ++ [MarkCharacterSeen id])).

(** [adaptiveSelector.updateCharacterWeight(id, wasCorrect)] *)
Definition callUpdateCharacterWeight (id : string) (wasCorrect : bool) : Eff unit :=
  λ w, (tt, mkWorld (updateCharacterWeight id wasCorrect (selector w)) (rng w)
                    (reverseMode w) (score w)
                    (trace w ++ [UpdateCharacterWeight id wasCorrect])).

(** [random.integer(lo, hi)] *)
Definition callRandomInteger (lo hi : Z) : Eff Z :=
  λ w, let '(i, r) := randomInteger lo hi (rng w) in
       (i, mkWorld (selector w) r (reverseMode w) (score w) (trace w)).

(** [xs.sort(() => random.real(0, 1) - 0.5)] *)
Definition callRandomSort {A : Type} (xs : list A) : Eff (list A) :=
  λ w, let '(ys, r) := randomSort xs (rng w) in
       (ys, mkWorld (selector w) r (reverseMode w) (score w) (trace w)).

(** [decideNextReverseMode()] *)
Definition callDecideNextMode : Eff unit :=
  λ w, (tt, mkWorld (selector w) (rng w) (decideNextMode (reverseMode w))
                    (score w) (trace w ++ [DecideNextMode])).

(** [recordReverseModeWrong()] *)
Definition callRecordWrongAnswer : Eff unit :=
  λ w, (tt, mkWorld (selector w) (rng w) (recordWrongAnswer (reverseMode w))
                    (score w) (trace w ++ [RecordWrongAnswer])).

(** [xs.forEach(x => body(x))] *)
Fixpoint forEach {A : Type} (xs : list A) (body : A → Eff unit) : Eff unit :=
  match xs with
  | [] => ret tt
  | x :: xs' => body x ;; forEach xs' body
  end.

(** [when c m] is [if (c) { m }]. *)
Definition when (c : bool) (m : Eff unit) : Eff unit :=
  if c then m else ret tt.

(** [const isReverse = externalIsReverse ?? internalIsReverse] *)
Definition isReverse (externalIsReverse : option bool) (w : World) : bool :=
  match externalIsReverse with
  | Some direction => direction
  | None => internalIsReverse (reverseMode w)
  end.

(** [xs[i]] for an integer index; [None] is [undefined]. *)
Definition jsIndex {A : Type} (xs : list A) (i : Z) : option A :=
  if i <? 0 then None else xs !! Z.to_nat i.

(** [xs.every((x, i) => p(x, i))] *)
Fixpoint everyFrom {A : Type} (p : A → nat → bool) (i : nat) (xs : list A) : bool :=
  match xs with
  | [] => true
  | x :: xs' => p x i && everyFrom p (S i) xs'
  end.

End Calls.

End Game.

(** *** Kana word building, [WordBuildingGame] *)

Module KanaWordBuilding.
Import Game.

(** The value returned by [generateWord].  A tile is [string | undefined]
    in the source (a record lookup or an array read can miss), hence
    [option string]. *)
Record WordData : Type := mkWordData {
  wordChars : list string;
  answerChars : list (option string);
  allTiles : list (option string)
}.

(** The [useState] slots of the component. *)
Record GameState : Type := mkGameState {
  wordData : WordData;
  placedTiles : list (option string);
  isChecking : bool;
  isCelebrating : bool;
  bottomBarState : BottomBarState
}.

Section Kana.
Context `{!AdaptiveSelector, !RandomEngine, !SmartReverseMode, !HostStrings}.
Local Open Scope eff_scope.

(** The first loop of [generateWord]; [remaining] is [wordLength - i]. *)
Fixpoint drawWordChars (remaining : nat) (sourceChars wordChars : list string)
    (usedChars : gset string) : Eff (list string) :=
  match remaining with
  | O => ret wordChars
  | S remaining' =>
      let available := filter (λ c, c ∉ usedChars) sourceChars in
      match available with
      | [] => ret wordChars
      | _ :: _ =>
          let* selected := callSelectWeightedCharacter available in
          callMarkCharacterSeen selected ;;
          drawWordChars remaining' sourceChars (wordChars ++ [selected])
                        ({[ selected ]} ∪ usedChars)
      end
  end.

(** The second loop of [generateWord]; [remaining] is [distractorCount - i]. *)
Fixpoint drawDistractors (remaining : nat) (distractorSource : list string)
    (usedAnswers : gset (option string)) (distractors : list (option string))
  : Eff (list (option string)) :=
  match remaining with
  | O => ret distractors
  | S remaining' =>
      let available :=
        filter (λ c, (Some c ∉ usedAnswers) ∧ (Some c ∉ distractors))
               distractorSource in
      match available with
      | [] => ret distractors
      | _ :: _ =>
          let* i := callRandomInteger 0 (Z.of_nat (length available) - 1) in
          let selected := jsIndex available i in
          drawDistractors remaining' distractorSource usedAnswers
                          (distractors ++ [selected])
      end
  end.

Definition generateWord (isReverse : bool) (wordLength : Z)
    (selectedKana selectedRomaji : list string)
    (kanaToRomaji romajiToKana : gmap string string) : Eff WordData :=
  let sourceChars := if isReverse then selectedRomaji else selectedKana in
  if Z.of_nat (length sourceChars) <? wordLength
  then ret (mkWordData [] [] [])
  else
    let* wordChars := drawWordChars (Z.to_nat wordLength) sourceChars [] ∅ in
    let answerChars :=
      if isReverse
      then map (λ r, romajiToKana !! r) wordChars
      else map (λ k, kanaToRomaji !! k) wordChars in
    let distractorCount :=
      Z.min 3 (Z.of_nat (length sourceChars) - wordLength) in
    let distractorSource := if isReverse then selectedKana else selectedRomaji in
    let usedAnswers : gset (option string) := list_to_set answerChars in
    let* distractors := drawDistractors (Z.to_nat distractorCount)
                          distractorSource usedAnswers [] in
    let* allTiles := callRandomSort (answerChars ++ distractors) in
    ret (mkWordData wordChars answerChars allTiles).

Definition isHiragana (char : string) : bool :=
  match charCodeAt0 char with
  | Some code => (0x3040 <=? code) && (code <=? 0x309f)
  | None => false
  end.

Definition isKatakana (char : string) : bool :=
  match charCodeAt0 char with
  | Some code => (0x30a0 <=? code) && (code <=? 0x30ff)
  | None => false
  end.

(** [placedTiles.length === answerChars.length &&
     placedTiles.every((tile, i) => tile === answerChars[i])] *)
Definition isCorrect (st : GameState) : bool :=
  (length (placedTiles st) =? length (answerChars (wordData st)))%nat
  && everyFrom (λ tile i,
                  bool_decide (tile = default None (answerChars (wordData st) !! i)))
               0%nat (placedTiles st).

Definition handleCheck (externalIsReverse : option bool)
    (externalOnWrong : bool) (st : GameState) : Eff GameState :=
  match placedTiles st with
  | [] => ret st
  | _ :: _ =>
      let* score := readScore in
      emit StopwatchPause ;;
      emit PlayClick ;;
      if isCorrect st then
        emit AddCorrectAnswerTime ;;
        emit RecordAnswerTime ;;
        emit StopwatchReset ;;
        emit PlayCorrect ;;
        emit TriggerCrazyMode ;;
        emit ResetWrongStreak ;;
        forEach (wordChars (wordData st)) (λ char,
          emit (AddCharacterToHistory char) ;;
          emit (IncrementCharacterScore char FieldCorrect) ;;
          callUpdateCharacterWeight char true ;;
          if isHiragana char then emit IncrementHiraganaCorrect
          else when (isKatakana char) (emit IncrementKatakanaCorrect)) ;;
        emit IncrementCorrectAnswers ;;
        setScore (score + Z.of_nat (length (wordChars (wordData st)))) ;;
        when (bool_decide (externalIsReverse = None)) callDecideNextMode ;;
        ret (mkGameState (wordData st) (placedTiles st) true true BarCorrect)
      else
        emit StopwatchReset ;;
        emit PlayErrorTwice ;;
        emit TriggerCrazyMode ;;
        emit IncrementWrongStreak ;;
        emit IncrementWrongAnswers ;;
        forEach (wordChars (wordData st)) (λ char,
          emit (IncrementCharacterScore char FieldWrong) ;;
          callUpdateCharacterWeight char false) ;;
        when (0 <=? score - 1) (setScore (score - 1)) ;;
        when (bool_decide (externalIsReverse = None)) callRecordWrongAnswer ;;
        when externalOnWrong (emit ExternalOnWrong) ;;
        ret (mkGameState (wordData st) (placedTiles st) true
                         (isCelebrating st) BarWrong)
  end.

End Kana.

End KanaWordBuilding.

(** *** Kanji word building, [KanjiWordBuildingGame] *)

Module KanjiWordBuilding.
Import Game.

(** The value returned by [generateQuestion]; [displayChar] is absent from
    the two early-return objects, where reading it gives [undefined]. *)
Record QuestionData : Type := mkQuestionData {
  kanjiChar : string;
  correctAnswer : option string;
  allTiles : list (option string);
  displayChar : option string
}.

(** The [useState] slots of the component that [handleCheck] reads or
    writes (the [feedback] slot holds a rendered element and is left out). *)
Record GameState : Type := mkGameState {
  questionData : QuestionData;
  placedTiles : list (option string);
  isChecking : bool;
  isCelebrating : bool;
  bottomBarState : BottomBarState;
  displayAnswerSummary : bool;
  currentKanjiObjForSummary : option KanjiStore.IKanjiObj
}.

(** [xs.slice(0, stop)] for an integer [stop]; a negative [stop] counts from
    the end of the array. *)
Definition sliceFromZero {A : Type} (xs : list A) (stop : Z) : list A :=
  if stop <? 0
  then take (Z.to_nat (Z.of_nat (length xs) + stop)) xs
  else take (Z.to_nat stop) xs.

(** [new Map(selectedKanjiObjs.map(obj => [obj.kanjiChar, obj]))]: a later
    entry replaces an earlier one with the same key. *)
Definition kanjiObjMap (selectedKanjiObjs : list KanjiStore.IKanjiObj)
  : gmap string KanjiStore.IKanjiObj :=
  foldl (λ m obj, <[ KanjiStore.kanjiChar obj := obj ]> m) ∅ selectedKanjiObjs.

Section Kanji.
Context `{!AdaptiveSelector, !RandomEngine, !SmartReverseMode, !HostStrings}.
Local Open Scope eff_scope.

(** [Math.min(externalDistractorCount, selectedKanjiObjs.length - 1)] *)
Definition distractorCount (externalDistractorCount : Z)
    (selectedKanjiObjs : list KanjiStore.IKanjiObj) : Z :=
  Z.min externalDistractorCount (Z.of_nat (length selectedKanjiObjs) - 1).

Definition emptyQuestion : QuestionData := mkQuestionData "" (Some "") [] None.

Definition generateQuestion (isReverse : bool)
    (selectedKanjiObjs : list KanjiStore.IKanjiObj)
    (externalDistractorCount : Z) : Eff QuestionData :=
  match selectedKanjiObjs with
  | [] => ret emptyQuestion
  | _ :: _ =>
      let kanjiChars := map KanjiStore.kanjiChar selectedKanjiObjs in
      let* selectedKanji := callSelectWeightedCharacter kanjiChars in
      callMarkCharacterSeen selectedKanji ;;
      match kanjiObjMap selectedKanjiObjs !! selectedKanji with
      | None => ret emptyQuestion
      | Some selectedKanjiObj =>
          let correctAnswer :=
            if isReverse then Some selectedKanji
            else head (KanjiStore.meanings selectedKanjiObj) in
          let others :=
            filter (λ obj, KanjiStore.kanjiChar obj ≠ selectedKanji)
                   selectedKanjiObjs in
          let distractorSource :=
            if isReverse
            then map (λ obj, Some (KanjiStore.kanjiChar obj)) others
            else map (λ obj, head (KanjiStore.meanings obj)) others in
          let* sorted := callRandomSort distractorSource in
          let distractors :=
            sliceFromZero sorted
              (distractorCount externalDistractorCount selectedKanjiObjs) in
          let* allTiles := callRandomSort (correctAnswer :: distractors) in
          ret (mkQuestionData selectedKanji correctAnswer allTiles
                 (if isReverse
                  then head (KanjiStore.meanings selectedKanjiObj)
                  else Some selectedKanji))
      end
  end.

(** [placedTiles.length === 1 && placedTiles[0] === questionData.correctAnswer] *)
Definition isCorrect (st : GameState) : bool :=
  (length (placedTiles st) =? 1)%nat
  && bool_decide (default None (placedTiles st !! 0%nat)
                  = correctAnswer (questionData st)).

Definition handleCheck (externalIsReverse : option bool)
    (externalOnWrong : bool) (selectedKanjiCollection : string)
    (selectedKanjiObjs : list KanjiStore.IKanjiObj)
    (st : GameState) : Eff GameState :=
  match placedTiles st with
  | [] => ret st
  | _ :: _ =>
      let selectedKanjiObj :=
        kanjiObjMap selectedKanjiObjs !! kanjiChar (questionData st) in
      let* score := readScore in
      emit StopwatchPause ;;
      emit PlayClick ;;
      if isCorrect st then
        emit AddCorrectAnswerTime ;;
        emit RecordAnswerTime ;;
        emit StopwatchReset ;;
        emit PlayCorrect ;;
        emit TriggerCrazyMode ;;
        emit ResetWrongStreak ;;
        emit (AddCharacterToHistory (kanjiChar (questionData st))) ;;
        emit (IncrementCharacterScore (kanjiChar (questionData st)) FieldCorrect) ;;
        callUpdateCharacterWeight (kanjiChar (questionData st)) true ;;
        emit (IncrementKanjiCorrect (toUpperCase selectedKanjiCollection)) ;;
        emit IncrementCorrectAnswers ;;
        setScore (score + 1) ;;
        when (bool_decide (externalIsReverse = None)) callDecideNextMode ;;
        ret (mkGameState (questionData st) (placedTiles st) true true
                         BarCorrect true selectedKanjiObj)
      else
        emit StopwatchReset ;;
        emit PlayErrorTwice ;;
        emit TriggerCrazyMode ;;
        emit IncrementWrongStreak ;;
        emit IncrementWrongAnswers ;;
        emit (IncrementCharacterScore (kanjiChar (questionData st)) FieldWrong) ;;
        callUpdateCharacterWeight (kanjiChar (questionData st)) false ;;
        when (0 <=? score - 1) (setScore (score - 1)) ;;
        when (bool_decide (externalIsReverse = None)) callRecordWrongAnswer ;;
        when externalOnWrong (emit ExternalOnWrong) ;;
        ret (mkGameState (questionData st) (placedTiles st) true
                         (isCelebrating st) BarWrong
                         (displayAnswerSummary st)
                         (currentKanjiObjForSummary st))
  end.

End Kanji.

End KanjiWordBuilding.

(** ** The adaptive selector, [shared/lib/adaptiveSelection] *)

Module AdaptiveSelection.

(** Modelled from the spec: [ItemStat], the per-item record of the selector
    (the module [shared/lib/adaptiveSelection] is not among the modelled
    files); counters, current weight and recency stamp. *)
Record ItemStat : Type := mkItemStat {
  correct : Z;
  incorrect : Z;
  weight : Q;
  lastSeenAt : nat
}.

(** Modelled from the spec: the boost applied on an incorrect outcome is
    a fixed multiplicative or additive one. *)
Inductive Boost : Type :=
| MultiplicativeBoost (factor : Q)
| AdditiveBoost (amount : Q).

(** Modelled from the spec: the tunable constants [W_min], [W_max], the
    neutral default weight, the boost and the decay factor. *)
Record Config : Type := mkConfig {
  W_min : Q;
  W_max : Q;
  neutralWeight : Q;
  boost : Boost;
  decayFactor : Q
}.

(** Modelled from the spec: [SelectionState], the mapping from identifier
    to [ItemStat] with a monotonic counter for recency. *)
Record SelectionState : Type := mkSelectionState {
  items : gmap string ItemStat;
  clock : nat
}.

(** Modelled from the spec: the failure of a selection on an empty pool. *)
Inductive SelectionError : Type := InvalidArgument.

Section Selector.
Variable cfg : Config.

(** Modelled from the spec: an unseen identifier is created lazily with zero
    counters and the neutral weight. *)
Definition statOf (st : SelectionState) (id : string) : ItemStat :=
  default (mkItemStat 0 0 (neutralWeight cfg) 0) (items st !! id).

(** Modelled from the spec: the current weight of an identifier, the
    neutral one when it is unseen. *)
Definition weightOf (st : SelectionState) (id : string) : Q :=
  weight (statOf st id).

(** Modelled from the spec: weights are clamped to [[W_min, W_max]]. *)
Definition clampWeight (w : Q) : Q :=
  let capped := if Qle_bool w (W_max cfg) then w else W_max cfg in
  if Qle_bool (W_min cfg) capped then capped else W_min cfg.

(** Modelled from the spec: the boost of an incorrect outcome. *)
Definition applyBoost (w : Q) : Q :=
  match boost cfg with
  | MultiplicativeBoost factor => (w * factor)%Q
  | AdditiveBoost amount => (w + amount)%Q
  end.

(** Modelled from the spec: [updateCharacterWeight(id, wasCorrect)] raises
    the weight by the boost on an incorrect outcome (bounded at [W_max]) and
    lowers it by the decay factor on a correct one (bounded at [W_min]). *)
Definition updateCharacterWeight (id : string) (wasCorrect : bool)
    (st : SelectionState) : SelectionState :=
  let s := statOf st id in
  let weight' :=
    if wasCorrect
    then clampWeight (weight s * decayFactor cfg)%Q
    else clampWeight (applyBoost (weight s)) in
  mkSelectionState
    (<[ id := mkItemStat (correct s) (incorrect s) weight' (lastSeenAt s) ]>
       (items st))
    (clock st).

(** Modelled from the spec: [markCharacterSeen(id)] records recency only. *)
Definition markCharacterSeen (id : string) (st : SelectionState)
  : SelectionState :=
  let s := statOf st id in
  mkSelectionState
    (<[ id := mkItemStat (correct s) (incorrect s) (weight s) (S (clock st)) ]>
       (items st))
    (S (clock st)).

(** Modelled from the spec: the sum of the weights of the candidates. *)
Definition totalWeight (st : SelectionState) (candidates : list string) : Q :=
  foldr (λ c acc, (weightOf st c + acc)%Q) 0%Q candidates.

(** Modelled from the spec: the draw by cumulative weight.  The first
    candidate whose running sum exceeds [target] is drawn; the last candidate
    closes the walk. *)
Fixpoint pickCumulative (st : SelectionState) (target : Q)
    (c : string) (cs : list string) : string :=
  match cs with
  | [] => c
  | c' :: cs' =>
      if Qle_bool (weightOf st c) target
      then pickCumulative st (target - weightOf st c)%Q c' cs'
      else c
  end.

(** Modelled from the spec: the uniform fallback, candidate number
    [floor (r * n)], kept in range. *)
Definition pickUniform (r : Q) (c : string) (cs : list string) : string :=
  let n := Z.of_nat (length (c :: cs)) in
  let i := Z.max 0 (Z.min (n - 1) (Qfloor (r * inject_Z n))) in
  default c ((c :: cs) !! Z.to_nat i).

(** Modelled from the spec: [selectWeightedCharacter(candidates)] fails with
    [InvalidArgument] on an empty pool; otherwise it draws a candidate with
    probability proportional to its weight, from the injected random number
    [r] of [[0, 1)], and falls back to a uniform draw when the total weight
    is zero. *)
Definition selectWeightedCharacter (st : SelectionState) (r : Q)
    (candidates : list string) : SelectionError + string :=
  match candidates with
  | [] => inl InvalidArgument
  | c :: cs =>
      let total := totalWeight st candidates in
      if Qle_bool total 0
      then inr (pickUniform r c cs)
      else inr (pickCumulative st (r * total)%Q c cs)
  end.

End Selector.

(** Modelled from the spec: the constants are well formed when
    [0 < W_min <= neutral <= W_max], the boost increases a positive weight
    and the decay factor lies strictly between 0 and 1. *)
Record ConfigOk (cfg : Config) : Prop := mkConfigOk {
  W_min_pos : (0 < W_min cfg)%Q;
  neutral_lo : (W_min cfg <= neutralWeight cfg)%Q;
  neutral_hi : (neutralWeight cfg <= W_max cfg)%Q;
  boost_ok : match boost cfg with
             | MultiplicativeBoost factor => (1 < factor)%Q
             | AdditiveBoost amount => (0 < amount)%Q
             end;
  decay_pos : (0 < decayFactor cfg)%Q;
  decay_lt1 : (decayFactor cfg < 1)%Q
}.

(** Modelled from the spec: a weight within the clamp bounds. *)
Definition inBounds (cfg : Config) (w : Q) : Prop :=
  (W_min cfg <= w)%Q ∧ (w <= W_max cfg)%Q.

(** Modelled from the spec: the selection state before any item is seen. *)
Definition emptySelection : SelectionState := mkSelectionState ∅ 0.

(** Modelled from the spec: the calls that mutate the selection state. *)
Inductive SelectorCall : Type :=
| Seen (id : string)
| Outcome (id : string) (wasCorrect : bool).

Definition applyCall (cfg : Config) (st : SelectionState) (call : SelectorCall)
  : SelectionState :=
  match call with
  | Seen id => markCharacterSeen cfg id st
  | Outcome id wasCorrect => updateCharacterWeight cfg id wasCorrect st
  end.

(** The selection state after a history of calls, oldest first. *)
Definition afterCalls (cfg : Config) (calls : list SelectorCall)
  : SelectionState :=
  foldl (applyCall cfg) emptySelection calls.

(** A sample configuration: weights in [[1/10, 10]], neutral 1, boost by
    a factor 3/2, decay by a factor 4/5. *)
Definition sampleConfig : Config :=
  mkConfig (1 # 10) 10 1 (MultiplicativeBoost (3 # 2)) (4 # 5).

End AdaptiveSelection.

(** ** The direction controller, [shared/hooks/useSmartReverseMode] *)

Module DirectionController.

(** Modelled from the spec: [StreakState] of the hook (the hook itself is
    not among the modelled files): the current direction and the number of
    consecutive correct answers in it. *)
Record StreakState : Type := mkStreak {
  reverse : bool;
  consecutiveCorrectInDirection : nat
}.

(** Modelled from the spec: the streak that flips the direction. *)
Definition FLIP_STREAK : nat := 3.

(** Modelled from the spec: the session starts in forward direction. *)
Definition initial : StreakState := mkStreak false 0.

(** Modelled from the spec: a correct answer extends the streak, and the
    direction flips, with the streak reset, when it reaches [FLIP_STREAK]. *)
Definition decideNextMode (s : StreakState) : StreakState :=
  let streak := S (consecutiveCorrectInDirection s) in
  if (FLIP_STREAK <=? streak)%nat
  then mkStreak (negb (reverse s)) 0
  else mkStreak (reverse s) streak.

(** Modelled from the spec: a wrong answer resets the streak and keeps the
    direction. *)
Definition recordWrongAnswer (s : StreakState) : StreakState :=
  mkStreak (reverse s) 0.

End DirectionController.

(** ** Sample collaborators

    Deterministic implementations of the four interfaces, used to run the
    games on concrete data. *)

Module Fixtures.

(** The selector above with the sample configuration and the random number
    fixed to 1/2. *)
#[export] Instance sampleSelector : AdaptiveSelector := {|
  SelectorState := AdaptiveSelection.SelectionState;
  selectWeightedCharacter candidates st :=
    (match AdaptiveSelection.selectWeightedCharacter
             AdaptiveSelection.sampleConfig st (1 # 2) candidates with
     | inr c => c
     | inl _ => ""
     end, st);
  markCharacterSeen := AdaptiveSelection.markCharacterSeen
                         AdaptiveSelection.sampleConfig;
  updateCharacterWeight := AdaptiveSelection.updateCharacterWeight
                             AdaptiveSelection.sampleConfig
|}.

(** A counter in place of the random engine: [integer lo hi] walks through
    the range, and the random sort reverses its argument. *)
#[export] Instance sampleRandom : RandomEngine := {|
  RandomState := nat;
  randomInteger lo hi n := (lo + Z.of_nat n `mod` (hi - lo + 1), S n);
  randomSort _ xs n := (rev xs, S n)
|}.

#[export] Instance sampleReverseMode : SmartReverseMode := {|
  ReverseModeState := DirectionController.StreakState;
  internalIsReverse := DirectionController.reverse;
  decideNextMode := DirectionController.decideNextMode;
  recordWrongAnswer := DirectionController.recordWrongAnswer
|}.

(** Single-byte strings only: the code of the first byte, no case folding. *)
#[export] Instance sampleStrings : HostStrings := {|
  charCodeAt0 s :=
    match s with
    | EmptyString => None
    | String a _ => Some (Z.of_N (Ascii.N_of_ascii a))
    end;
  toUpperCase s := s
|}.

Definition sampleWorld (score : Z) : Game.World :=
  Game.mkWorld AdaptiveSelection.emptySelection 0%nat
               DirectionController.initial score [].

Definition sampleKana : list string := ["ka"; "ki"; "ku"; "ke"; "ko"].
Definition sampleRomaji : list string := ["KA"; "KI"; "KU"; "KE"; "KO"].

Definition sampleKanaToRomaji : gmap string string :=
  list_to_map (zip sampleKana sampleRomaji).

Definition sampleRomajiToKana : gmap string string :=
  list_to_map (zip sampleRomaji sampleKana).

(** A kana round with one wrong tile placed. *)
Definition sampleKanaRound : KanaWordBuilding.GameState :=
  KanaWordBuilding.mkGameState
    (KanaWordBuilding.mkWordData ["ka"; "ki"] [Some "KA"; Some "KI"]
       [Some "KI"; Some "KO"; Some "KA"])
    [Some "KO"] false false Game.BarCheck.

(** A kanji round with one wrong tile placed. *)
Definition sampleKanjiRound : KanjiWordBuilding.GameState :=
  KanjiWordBuilding.mkGameState
    (KanjiWordBuilding.mkQuestionData "ki" (Some "tree")
       [Some "tree"; Some "fire"] (Some "ki"))
    [Some "fire"] false false Game.BarCheck false None.

Definition sampleLedger : gmap string Mastery.CharacterStats :=
  {[ "ka" := Mastery.mkStats 9 1; "ki" := Mastery.mkStats 0 0 ]}.

End Fixtures.
(** ** Vocabulary for statements about the games *)

Module GameSpec.
Import Game.

Section Vocabulary.
Context `{!AdaptiveSelector, !RandomEngine, !SmartReverseMode, !HostStrings}.

(** The trace of [w'] extends that of [w] by events that all satisfy [P]. *)
Definition emitsOnly (P : Event → Prop) (w w' : World) : Prop :=
  ∃ new, trace w' = trace w ++ new ∧ Forall P new.

(** [m] relates every world it starts from to the world it leaves. *)
Definition always {A : Type} (R : World → World → Prop) (m : Eff A) : Prop :=
  ∀ w, R w (m w).2.

(** A call to the selector with at least one candidate, or any other event. *)
Definition nonEmptySelection (e : Event) : Prop :=
  match e with
  | SelectWeightedCharacter [] => False
  | _ => True
  end.

(** [m] only ever calls the selector with candidates. *)
Definition selects {A : Type} (m : Eff A) : Prop :=
  always (emitsOnly nonEmptySelection) m.

(** The reverse-mode hook is neither called nor changed, and the score slot
    keeps its value. *)
Definition keepsControllerAndScore (w w' : World) : Prop :=
  score w' = score w
  ∧ reverseMode w' = reverseMode w
  ∧ emitsOnly (λ e, isControllerEvent e = false) w w'.

End Vocabulary.

End GameSpec.

(** ** The card grids: sets, numbering, filter and paging *)

Module Grid.

Definition INITIAL_ROWS : nat := 5.
Definition ROWS_PER_LOAD : nat := 5.

(** [Math.ceil(n / d)] for integers [n >= 0] and [d > 0]. *)
Definition ceilDiv (n d : nat) : nat := ((n + d - 1) / d)%nat.

(** [KanjiLevel] and [VocabLevel]: the keys of both level tables. *)
Inductive Level : Type := n5 | n4 | n3 | n2 | n1.

#[export] Instance Level_eq_dec : EqDecision Level.
Proof. solve_decision. Defined.

Definition levelOrder : list Level := [n5; n4; n3; n2; n1].

(** The body of [loadCumulativeCounts]: [counts] starts at 0 everywhere;
    each level, in [levelOrder], is given the running total and then adds
    [Math.ceil(items.length / 10)] to it, where [items] is what the data
    service returns for the level; [getByLevel level] is [items.length]. *)
Definition loadCumulativeCounts (getByLevel : Level → nat) : Level → nat :=
  (foldl (λ '(counts, cumulative) level,
            (λ l, if decide (l = level) then cumulative else counts l,
             (cumulative + ceilDiv (getByLevel level) 10)%nat))
         (λ _, 0%nat, 0%nat) levelOrder).1.

(** One element of [kanjiSetsTemp] / [vocabSetsTemp]; [stop] is the field
    [end]. *)
Record CardSet : Type := mkCardSet {
  name : string;
  start : nat;
  stop : nat;
  id : string;
  isMastered : bool
}.

(** The value of the [useMemo] that computes the sets. *)
Record GridView : Type := mkGridView {
  setsTemp : list CardSet;
  filteredSets : list CardSet;
  masteredCount : nat;
  allRows : list (list CardSet);
  totalRows : nat
}.

(** [prev.includes(rowIndex) ? prev.filter(i => i !== rowIndex)
                             : [...prev, rowIndex]] *)
Definition toggleCollapsedRow (prev : list nat) (rowIndex : nat) : list nat :=
  if bool_decide (rowIndex ∈ prev)
  then filter (λ i, i ≠ rowIndex) prev
  else prev ++ [rowIndex].

(** [[...new Set(xs)]]: the elements of [xs] in order of first occurrence. *)
Definition uniqueInOrder (xs : list string) : list string :=
  foldl (λ seen x, if bool_decide (x ∈ seen) then seen else seen ++ [x]) [] xs.

(** The argument of [setSelectedKanjiSets] / [setSelectedVocabSets] in the
    [onClick] of a set button. *)
Definition clickSet (selectedSets : list string) (set : CardSet) : list string :=
  let isSelected := bool_decide (name set ∈ selectedSets) in
  if isSelected
  then filter (λ s, s ≠ name set) selectedSets
  else uniqueInOrder (selectedSets ++ [name set]).

(** The paging state: two [useState] slots and the pending [setTimeout]
    callbacks, each with the [totalRows] its closure captured. *)
Record Paging : Type := mkPaging {
  visibleRowCount : nat;
  isLoadingMore : bool;
  timers : list nat
}.

Definition initialPaging : Paging := mkPaging INITIAL_ROWS false [].

(** [visibleRowCount < totalRows] *)
Definition hasMoreRows (p : Paging) (totalRows : nat) : bool :=
  (visibleRowCount p <? totalRows)%nat.

(** [allRows.slice(0, visibleRowCount)] *)
Definition visibleRows {A : Type} (allRows : list A) (p : Paging) : list A :=
  take (visibleRowCount p) allRows.

(** [loadMoreRows]: a guard, [setIsLoadingMore(true)] and a timer.  The
    callback is rebuilt whenever [isLoadingMore], [hasMoreRows] or
    [totalRows] changes, so a call reads the slots of the current state. *)
Definition loadMoreRows (totalRows : nat) (p : Paging) : Paging :=
  if isLoadingMore p || negb (hasMoreRows p totalRows) then p
  else mkPaging (visibleRowCount p) true (timers p ++ [totalRows]).

(** The oldest pending timer fires:
    [setVisibleRowCount(prev => Math.min(prev + ROWS_PER_LOAD, totalRows))]
    and [setIsLoadingMore(false)]. *)
Definition fireTimer (p : Paging) : Paging :=
  match timers p with
  | [] => p
  | totalRows :: rest =>
      mkPaging (Nat.min (visibleRowCount p + ROWS_PER_LOAD) totalRows)
               false rest
  end.

(** The effect that runs when the collection or the filter changes:
    [setVisibleRowCount(INITIAL_ROWS)]. *)
Definition resetVisibleRows (p : Paging) : Paging :=
  mkPaging INITIAL_ROWS (isLoadingMore p) (timers p).

(** What can happen to the paging state: the observer calls [loadMoreRows]
    (built in a render whose row count was [totalRows]), the oldest timer
    fires, or the reset effect runs. *)
Inductive PagingStep : Type :=
| LoadMoreRows (totalRows : nat)
| TimerFires
| ResetVisibleRows.

Definition pagingStep (p : Paging) (step : PagingStep) : Paging :=
  match step with
  | LoadMoreRows totalRows => loadMoreRows totalRows p
  | TimerFires => fireTimer p
  | ResetVisibleRows => resetVisibleRows p
  end.

End Grid.

Module KanjiGrid.
Import Mastery KanjiStore Grid.

Section View.
(** [chunkArray] of [shared/lib/helperFunctions], whose code is outside the
    modelled files: any function of this type. *)
Context (chunkArray : ∀ A : Type, list A → nat → list (list A)).

(** The [sets] of the [useMemo]:
    [new Array(Math.ceil(data.length / KANJI_PER_SET)).fill({}).map((_, i) => ...)] *)
Definition sets (collection : KanjiCards.KanjiCollection)
    (characterMastery : gmap string CharacterStats) : list CardSet :=
  imap (λ i _,
          mkCardSet ("Set " +:+ pretty (KanjiCards.prevLength collection + i + 1)%nat)
                    i (i + 1)
                    ("Set " +:+ pretty (i + 1)%nat)
                    (KanjiCards.isSetMastered (Some collection) characterMastery
                                              i (i + 1)))
       (replicate (ceilDiv (length (KanjiCards.data collection))
                           KanjiCards.KANJI_PER_SET) ()).

Definition gridView (selectedKanjiCollection : option KanjiCards.KanjiCollection)
    (characterMastery : gmap string CharacterStats)
    (hideMastered : bool) (numColumns : nat) : GridView :=
  match selectedKanjiCollection with
  | None => mkGridView [] [] 0 [] 0
  | Some collection =>
      let sets := sets collection characterMastery in
      let filtered :=
        if hideMastered then filter (λ set, isMastered set = false) sets
        else sets in
      let mastered := length (filter (λ set, isMastered set = true) sets) in
      let rows := chunkArray CardSet filtered numColumns in
      mkGridView sets filtered mastered rows (length rows)
  end.

End View.

(** [setWords]: [data.slice(set.start * KANJI_PER_SET, set.end * KANJI_PER_SET)] *)
Definition setWords (collection : KanjiCards.KanjiCollection) (set : CardSet)
  : list IKanjiObj :=
  slice (KanjiCards.data collection)
        (start set * KanjiCards.KANJI_PER_SET) (stop set * KanjiCards.KANJI_PER_SET).

End KanjiGrid.

Module VocabGrid.
Import Mastery Grid.

Section View.
Context (chunkArray : ∀ A : Type, list A → nat → list (list A)).

Definition sets (collection : VocabCards.VocabCollection)
    (characterMastery : gmap string CharacterStats) : list CardSet :=
  imap (λ i _,
          mkCardSet ("Set " +:+ pretty (VocabCards.prevLength collection + i + 1)%nat)
                    i (i + 1)
                    ("Set " +:+ pretty (i + 1)%nat)
                    (VocabCards.isSetMastered (Some collection) characterMastery
                                              i (i + 1)))
       (replicate (ceilDiv (length (VocabCards.data collection))
                           VocabCards.WORDS_PER_SET) ()).

Definition gridView (selectedVocabCollection : option VocabCards.VocabCollection)
    (characterMastery : gmap string CharacterStats)
    (hideMastered : bool) (numColumns : nat) : GridView :=
  match selectedVocabCollection with
  | None => mkGridView [] [] 0 [] 0
  | Some collection =>
      let sets := sets collection characterMastery in
      let filtered :=
        if hideMastered then filter (λ set, isMastered set = false) sets
        else sets in
      let mastered := length (filter (λ set, isMastered set = true) sets) in
      let rows := chunkArray CardSet filtered numColumns in
      mkGridView sets filtered mastered rows (length rows)
  end.

End View.

Definition setWords (collection : VocabCards.VocabCollection) (set : CardSet)
  : list VocabCards.IVocabObj :=
  slice (VocabCards.data collection)
        (start set * VocabCards.WORDS_PER_SET) (stop set * VocabCards.WORDS_PER_SET).

End VocabGrid.

(** ** The other handlers of the word-building games *)

Module Round.
Import Game.

#[export] Instance BottomBarState_eq_dec : EqDecision BottomBarState.
Proof. solve_decision. Defined.

Section Reading.
Context `{!AdaptiveSelector, !RandomEngine, !SmartReverseMode, !HostStrings}.

(** [const isReverse = externalIsReverse ?? internalIsReverse], as seen by
    the render in which a handler was built. *)
Definition readIsReverse (externalIsReverse : option bool) : Eff bool :=
  λ w, (isReverse externalIsReverse w, w).

(** [callback?.(argument)] *)
Definition callOptional {A : Type} (callback : option (A → Eff unit))
    (argument : A) : Eff unit :=
  match callback with
  | Some f => f argument
  | None => ret tt
  end.

End Reading.

End Round.

(** *** Kana word building: tables, reset, tile clicks and the bottom bar *)

Module KanaRound.
Import Game Round KanaWordBuilding.

(** An entry of the [kana] table of [features/Kana/data/kana]. *)
Record KanaGroup : Type := mkKanaGroup {
  kana : list string;
  romanji : list string
}.

(** The value of the [useMemo] over [kanaGroupIndices]. *)
Record KanaTables : Type := mkKanaTables {
  selectedKana : list string;
  selectedRomaji : list string;
  kanaToRomaji : gmap string string;
  romajiToKana : gmap string string
}.

(** [kanaGroupIndices.map(i => kanaData[i].field).flat()]; reading a field
    of a missing group throws, which is [None]. *)
Definition flatGroups (kanaData : list KanaGroup) (kanaGroupIndices : list nat)
    (field : KanaGroup → list string) : option (list string) :=
  (λ groups, concat groups)
    <$> mapM (λ i, field <$> kanaData !! i) kanaGroupIndices.

(** The [forEach] that fills [k2r] and [r2k].  Where [romajiChars[i]] is
    [undefined], [k2r[k]] reads as [undefined] afterwards and the key of
    [r2k] is the string ["undefined"]. *)
Definition fillTables (kanaChars romajiChars : list string)
  : gmap string string * gmap string string :=
  foldl (λ '(k2r, r2k) '(i, k),
           match romajiChars !! i with
           | Some r => (<[ k := r ]> k2r, <[ r := k ]> r2k)
           | None => (delete k k2r, <[ "undefined" := k ]> r2k)
           end)
        (∅, ∅) (imap pair kanaChars).

Definition kanaTables (kanaData : list KanaGroup) (kanaGroupIndices : list nat)
  : option KanaTables :=
  kanaChars ← flatGroups kanaData kanaGroupIndices kana;
  romajiChars ← flatGroups kanaData kanaGroupIndices romanji;
  let '(k2r, r2k) := fillTables kanaChars romajiChars in
  Some (mkKanaTables kanaChars romajiChars k2r r2k).

(** What the player, or React, can do to a mounted game: click a tile,
    press the button of the bottom bar, clear the answer row, or run the
    effect that calls [resetGame]. *)
Inductive UserAction : Type :=
| TileClick (char : option string)
| BarAction
| ClearPlaced
| ResetEffect.

Section Handlers.
Context `{!AdaptiveSelector, !RandomEngine, !SmartReverseMode, !HostStrings}.
Local Open Scope eff_scope.

(** The props and store values the handlers close over.  The prop
    [externalOnCorrect] and the method [speedStopwatch.start()] are code
    from outside the component that [handleCheck] never calls: each is an
    arbitrary computation here, and what is proved of the handlers holds
    whatever the two do. *)
Context (externalIsReverse : option bool) (externalOnWrong : bool)
        (externalOnCorrect : option (list string → Eff unit))
        (wordLength : Z) (tables : KanaTables)
        (speedStopwatchStart : Eff unit).

(** The initial value of the [useState] slots. *)
Definition mount : Eff GameState :=
  let* isReverse := readIsReverse externalIsReverse in
  let* wordData := generateWord isReverse wordLength (selectedKana tables)
                     (selectedRomaji tables) (kanaToRomaji tables)
                     (romajiToKana tables) in
  ret (mkGameState wordData [] false false BarCheck).

Definition resetGame : Eff GameState :=
  let* isReverse := readIsReverse externalIsReverse in
  let* newWord := generateWord isReverse wordLength (selectedKana tables)
                    (selectedRomaji tables) (kanaToRomaji tables)
                    (romajiToKana tables) in
  emit StopwatchReset ;;
  speedStopwatchStart ;;
  ret (mkGameState newWord [] false false BarCheck).

Definition handleContinue (st : GameState) : Eff GameState :=
  emit PlayClick ;;
  callOptional externalOnCorrect (wordChars (wordData st)) ;;
  resetGame.

Definition handleTryAgain (st : GameState) : Eff GameState :=
  emit PlayClick ;;
  emit StopwatchReset ;;
  speedStopwatchStart ;;
  ret (mkGameState (wordData st) [] false (isCelebrating st) BarCheck).

(** A handler reads the state of the render it was built in, and a render
    follows every state change before the next event is handled: [st] is
    both the closure's [placedTiles] and the [prev] of the updater. *)
Definition handleTileClick (char : option string) (st : GameState)
  : Eff GameState :=
  if isChecking st && negb (bool_decide (bottomBarState st = BarWrong))
  then ret st
  else
    emit PlayClick ;;
    let* resumed :=
      if bool_decide (bottomBarState st = BarWrong)
      then
        emit StopwatchReset ;;
        speedStopwatchStart ;;
        ret (mkGameState (wordData st) (placedTiles st) false
                         (isCelebrating st) BarCheck)
      else ret st in
    ret (mkGameState (wordData resumed)
           (if bool_decide (char ∈ placedTiles st)
            then filter (λ c, c ≠ char) (placedTiles resumed)
            else placedTiles resumed ++ [char])
           (isChecking resumed) (isCelebrating resumed)
           (bottomBarState resumed)).

Definition handleClearPlaced (st : GameState) : Eff GameState :=
  if isChecking st then ret st
  else
    emit PlayClick ;;
    ret (mkGameState (wordData st) [] (isChecking st) (isCelebrating st)
                     (bottomBarState st)).

(** [showContinue ? handleContinue : showTryAgain ? handleTryAgain
                                                   : handleCheck] *)
Definition onAction (st : GameState) : Eff GameState :=
  match bottomBarState st with
  | BarCorrect => handleContinue st
  | BarWrong => handleTryAgain st
  | BarCheck => handleCheck externalIsReverse externalOnWrong st
  end.

Definition act (action : UserAction) (st : GameState) : Eff GameState :=
  match action with
  | TileClick char => handleTileClick char st
  | BarAction => onAction st
  | ClearPlaced => handleClearPlaced st
  | ResetEffect => resetGame
  end.

(** A session: the actions handled one after the other. *)
Fixpoint play (actions : list UserAction) (st : GameState) : Eff GameState :=
  match actions with
  | [] => ret st
  | action :: rest => let* st' := act action st in play rest st'
  end.

End Handlers.

End KanaRound.

(** *** Kanji word building: reset, tile clicks and the bottom bar *)

Module KanjiRound.
Import Game Round KanjiWordBuilding.

(** What the player, or React, can do to a mounted game: click a tile,
    press the button of the bottom bar, or run the effect that calls
    [resetGame]. *)
Inductive UserAction : Type :=
| TileClick (char : option string)
| BarAction
| ResetEffect.

Section Handlers.
Context `{!AdaptiveSelector, !RandomEngine, !SmartReverseMode, !HostStrings}.
Local Open Scope eff_scope.

(** The props and store values the handlers close over; [externalOnCorrect]
    and [speedStopwatch.start()] are arbitrary computations, as in the kana
    game. *)
Context (externalIsReverse : option bool) (externalOnWrong : bool)
        (externalOnCorrect : option (list string → Eff unit))
        (externalDistractorCount : Z)
        (selectedKanjiCollection : string)
        (selectedKanjiObjs : list KanjiStore.IKanjiObj)
        (speedStopwatchStart : Eff unit).

(** The initial value of the [useState] slots. *)
Definition mount : Eff GameState :=
  let* isReverse := readIsReverse externalIsReverse in
  let* questionData := generateQuestion isReverse selectedKanjiObjs
                         externalDistractorCount in
  ret (mkGameState questionData [] false false BarCheck false None).

Definition resetGame (st : GameState) : Eff GameState :=
  let* isReverse := readIsReverse externalIsReverse in
  let* newQuestion := generateQuestion isReverse selectedKanjiObjs
                        externalDistractorCount in
  emit StopwatchReset ;;
  speedStopwatchStart ;;
  ret (mkGameState newQuestion [] false false BarCheck false
                   (currentKanjiObjForSummary st)).

(** [setDisplayAnswerSummary(false)] is repeated by [resetGame]. *)
Definition handleContinue (st : GameState) : Eff GameState :=
  emit PlayClick ;;
  callOptional externalOnCorrect [kanjiChar (questionData st)] ;;
  resetGame st.

Definition handleTryAgain (st : GameState) : Eff GameState :=
  emit PlayClick ;;
  emit StopwatchReset ;;
  speedStopwatchStart ;;
  ret (mkGameState (questionData st) [] false (isCelebrating st) BarCheck
                   (displayAnswerSummary st) (currentKanjiObjForSummary st)).

Definition handleTileClick (char : option string) (st : GameState)
  : Eff GameState :=
  if isChecking st && negb (bool_decide (bottomBarState st = BarWrong))
  then ret st
  else
    emit PlayClick ;;
    let* resumed :=
      if bool_decide (bottomBarState st = BarWrong)
      then
        emit StopwatchReset ;;
        speedStopwatchStart ;;
        ret (mkGameState (questionData st) (placedTiles st) false
                         (isCelebrating st) BarCheck
                         (displayAnswerSummary st)
                         (currentKanjiObjForSummary st))
      else ret st in
    ret (mkGameState (questionData resumed)
           (if bool_decide (char ∈ placedTiles st)
            then filter (λ c, c ≠ char) (placedTiles resumed)
            else placedTiles resumed ++ [char])
           (isChecking resumed) (isCelebrating resumed)
           (bottomBarState resumed) (displayAnswerSummary resumed)
           (currentKanjiObjForSummary resumed)).

Definition onAction (st : GameState) : Eff GameState :=
  match bottomBarState st with
  | BarCorrect => handleContinue st
  | BarWrong => handleTryAgain st
  | BarCheck => handleCheck externalIsReverse externalOnWrong
                            selectedKanjiCollection selectedKanjiObjs st
  end.

Definition act (action : UserAction) (st : GameState) : Eff GameState :=
  match action with
  | TileClick char => handleTileClick char st
  | BarAction => onAction st
  | ResetEffect => resetGame st
  end.

Fixpoint play (actions : list UserAction) (st : GameState) : Eff GameState :=
  match actions with
  | [] => ret st
  | action :: rest => let* st' := act action st in play rest st'
  end.

End Handlers.

End KanjiRound.

(** ** Vocabulary for statements about a round *)

Module RoundSpec.
Import Game.

(** The slots of the kana game agree with one another: the answer row has
    no tile twice, [isChecking] is set exactly while the bar shows a
    verdict, [isCelebrating] exactly while the verdict is "correct", and the
    verdict shown is the verdict on the tiles in the row. *)
Definition kanaConsistent (st : KanaWordBuilding.GameState) : Prop :=
  NoDup (KanaWordBuilding.placedTiles st)
  ∧ (KanaWordBuilding.isChecking st = true
     ↔ KanaWordBuilding.bottomBarState st ≠ BarCheck)
  ∧ (KanaWordBuilding.isCelebrating st = true
     ↔ KanaWordBuilding.bottomBarState st = BarCorrect)
  ∧ (KanaWordBuilding.bottomBarState st = BarCorrect →
     KanaWordBuilding.placedTiles st
     = KanaWordBuilding.answerChars (KanaWordBuilding.wordData st))
  ∧ (KanaWordBuilding.bottomBarState st = BarWrong →
     KanaWordBuilding.placedTiles st ≠ []
     ∧ KanaWordBuilding.placedTiles st
       ≠ KanaWordBuilding.answerChars (KanaWordBuilding.wordData st)).

(** The same for the kanji game, whose answer summary is on display
    exactly while the verdict is "correct". *)
Definition kanjiConsistent (st : KanjiWordBuilding.GameState) : Prop :=
  NoDup (KanjiWordBuilding.placedTiles st)
  ∧ (KanjiWordBuilding.isChecking st = true
     ↔ KanjiWordBuilding.bottomBarState st ≠ BarCheck)
  ∧ (KanjiWordBuilding.isCelebrating st = true
     ↔ KanjiWordBuilding.bottomBarState st = BarCorrect)
  ∧ (KanjiWordBuilding.displayAnswerSummary st = true
     ↔ KanjiWordBuilding.bottomBarState st = BarCorrect)
  ∧ (KanjiWordBuilding.bottomBarState st = BarCorrect →
     KanjiWordBuilding.placedTiles st
     = [KanjiWordBuilding.correctAnswer (KanjiWordBuilding.questionData st)])
  ∧ (KanjiWordBuilding.bottomBarState st = BarWrong →
     KanjiWordBuilding.placedTiles st ≠ []
     ∧ KanjiWordBuilding.placedTiles st
       ≠ [KanjiWordBuilding.correctAnswer (KanjiWordBuilding.questionData st)]).

Section Effects.
Context `{!AdaptiveSelector, !RandomEngine, !SmartReverseMode, !HostStrings}.

(** [m] leaves the random engine alone and changes the selector by [f]. *)
Definition updatesSelector {A : Type} (f : SelectorState → SelectorState)
    (m : Eff A) : Prop :=
  ∀ w, selector (m w).2 = f (selector w) ∧ rng (m w).2 = rng w.

End Effects.

(** The identifiers passed to [markCharacterSeen], in call order. *)
Definition seenIds (events : list Event) : list string :=
  omap (λ e, match e with MarkCharacterSeen id => Some id | _ => None end)
       events.

(** A call of [selectWeightedCharacter] or of [markCharacterSeen]. *)
Definition isDrawEvent (e : Event) : bool :=
  match e with
  | SelectWeightedCharacter _ | MarkCharacterSeen _ => true
  | _ => false
  end.

End RoundSpec.

(** ** Sample data for the grids and the rounds *)

Module MoreFixtures.
Import Grid.

(** Twelve kanji at N5, which makes two sets, three at N4, none above. *)
Definition sampleKanjiData (level : Level) : list KanjiStore.IKanjiObj :=
  match level with
  | n5 => map (λ c, KanjiStore.mkKanji c [])
              ["a1"; "a2"; "a3"; "a4"; "a5"; "a6"; "a7"; "a8"; "a9"; "a10";
               "a11"; "a12"]
  | n4 => map (λ c, KanjiStore.mkKanji c []) ["b1"; "b2"; "b3"]
  | _ => []
  end.

(** Every level loaded after the counts. *)
Definition sampleKanjiCollections (level : Level) : KanjiCards.KanjiCollection :=
  KanjiCards.mkKanjiCollection (sampleKanjiData level)
    (match level with
     | n5 => "N5" | n4 => "N4" | n3 => "N3" | n2 => "N2" | n1 => "N1"
     end)
    (loadCumulativeCounts (λ l, length (sampleKanjiData l)) level).

Definition sampleKanjiObjs : list KanjiStore.IKanjiObj :=
  [ KanjiStore.mkKanji "ki" ["tree"; "wood"];
    KanjiStore.mkKanji "hi" ["fire"];
    KanjiStore.mkKanji "mizu" ["water"] ].

Definition sampleKanaData : list KanaRound.KanaGroup :=
  [ KanaRound.mkKanaGroup ["ka"; "ki"] ["KA"; "KI"];
    KanaRound.mkKanaGroup ["sa"] ["SA"] ].

Definition sampleTables : KanaRound.KanaTables :=
  KanaRound.mkKanaTables ["ka"; "ki"; "sa"] ["KA"; "KI"; "SA"]
    (KanaRound.fillTables ["ka"; "ki"; "sa"] ["KA"; "KI"; "SA"]).1
    (KanaRound.fillTables ["ka"; "ki"; "sa"] ["KA"; "KI"; "SA"]).2.

End MoreFixtures.

(** ** Double precision agrees with the exact quotient *)

Section Binary64Facts.
Import Mastery Binary64.

Lemma accuracy_ge_iff (c t : Z) :
  0 < t → ((9 # 10) <= inject_Z c / inject_Z t)%Q ↔ 9 * t ≤ 10 * c.
Proof.
  intros Ht. destruct t as [|p|p]; try lia.
  unfold Qle, Qdiv, Qmult, Qinv, inject_Z. cbn [Qnum Qden].
  rewrite ?Pos2Z.inj_mul. lia.
Qed.

Lemma roundHalfEven_ge_odd (p q M : Z) :
  0 < q → Z.odd M = true →
  (M ≤ roundHalfEven p q ↔ (2 * M - 1) * q < 2 * p).
Proof.
  intros Hq HM. unfold roundHalfEven.
  pose proof (Z.div_mod p q ltac:(lia)) as Hp.
  pose proof (Z.mod_pos_bound p q Hq) as Hr.
  set (f := p / q) in *. set (r := p mod q) in *.
  destruct (Z.ltb_spec (2 * r) q) as [Hlo | Hlo].
  - split; intros Hle; nia.
  - destruct (Z.ltb_spec q (2 * r)) as [Hhi | Hhi].
    + split; intros Hle; nia.
    + assert (q = 2 * r) as Htie by lia.
      destruct (Z.even f) eqn:Hf.
      * split; intros Hle; nia.
      * rewrite <- Z.negb_odd in Hf. apply Bool.negb_false_iff in Hf.
        apply Z.odd_spec in Hf as [b Hb]. apply Z.odd_spec in HM as [a Ha].
        split; intros Hle; nia.
Qed.

Lemma roundHalfEven_le (p q N : Z) :
  0 < q → p < q * N → roundHalfEven p q ≤ N.
Proof.
  intros Hq Hp. unfold roundHalfEven.
  pose proof (Z.div_mod p q ltac:(lia)) as Hdm.
  pose proof (Z.mod_pos_bound p q Hq) as Hr.
  set (f := p / q) in *. set (r := p mod q) in *.
  assert (f < N) by nia.
  destruct (2 * r <? q); [lia|]. destruct (q <? 2 * r); [lia|].
  destruct (Z.even f); lia.
Qed.

Lemma binade_upper_half (c t : Z) :
  0 < c → c < t → t ≤ 2 * c → binade c t = -1.
Proof.
  intros Hc Hlt Hhalf. unfold binade.
  pose proof (Z.log2_le_mono c t ltac:(lia)) as Hmono.
  pose proof (Z.log2_le_mono t (2 * c) Hhalf) as Hdbl.
  rewrite Z.log2_double in Hdbl by lia.
  assert (Z.log2 c - Z.log2 t = 0 ∨ Z.log2 c - Z.log2 t = -1) as [-> | ->]
    by lia.
  - change (Z.max 0 0) with 0. change (Z.max 0 (- 0)) with 0.
    rewrite Z.pow_0_r, !Z.mul_1_r.
    destruct (Z.leb_spec t c); lia.
  - change (Z.max 0 (-1)) with 0. change (Z.max 0 (- -1)) with 1.
    rewrite Z.pow_0_r, Z.pow_1_r, Z.mul_1_r.
    destruct (Z.leb_spec t (c * 2)); lia.
Qed.

Lemma binade_below_half (c t : Z) :
  0 < c → 2 * c < t →
  binade c t ≤ -2 ∧ c * 2 ^ (- binade c t - 1) < t.
Proof.
  intros Hc Hhalf. unfold binade.
  destruct (Z.log2_spec c Hc) as [Hc1 Hc2].
  destruct (Z.log2_spec t ltac:(lia)) as [Ht1 Ht2].
  pose proof (Z.log2_nonneg c) as Hlc. pose proof (Z.log2_nonneg t) as Hlt.
  set (lc := Z.log2 c) in *. set (lt := Z.log2 t) in *.
  assert (lc - lt ≤ -1) as Hk.
  { destruct (Z_lt_le_dec lc lt) as [|Hge]; [lia|]. exfalso.
    pose proof (Z.pow_le_mono_r 2 (Z.succ lt) (Z.succ lc)
                  ltac:(lia) ltac:(lia)).
    rewrite (Z.pow_succ_r 2 lc) in * by lia. lia. }
  rewrite (Z.max_l 0 (lc - lt)) by lia.
  rewrite (Z.max_r 0 (- (lc - lt))) by lia.
  rewrite Z.pow_0_r, Z.mul_1_r.
  destruct (Z.leb_spec t (c * 2 ^ (- (lc - lt)))) as [Hin | Hout].
  - assert (lc - lt ≠ -1) as Hne.
    { intros Heq. rewrite Heq in Hin. change (2 ^ (- -1)) with 2 in Hin. lia. }
    split; [lia|].
    assert (c * 2 ^ (- (lc - lt) - 1)
            < 2 ^ Z.succ lc * 2 ^ (- (lc - lt) - 1)) as Hlt'.
    { apply Z.mul_lt_mono_pos_r; [apply Z.pow_pos_nonneg; lia | exact Hc2]. }
    rewrite <- Z.pow_add_r in Hlt' by lia.
    replace (Z.succ lc + (- (lc - lt) - 1)) with lt in Hlt' by lia. lia.
  - split; [lia|].
    replace (- (lc - lt - 1) - 1) with (- (lc - lt)) by lia. exact Hout.
Qed.

(** [correct / total >= 0.9] in double precision is [9 * total <= 10 *
    correct] as long as [total <= 2 ^ 50]. *)
Lemma le64_threshold (c t : Z) :
  0 ≤ c → c ≤ t → 10 ≤ t → t ≤ 2 ^ 50 →
  (le64 threshold64 (round64 c t) = true ↔ 9 * t ≤ 10 * c).
Proof.
  intros Hc Hct Ht Hmax.
  change threshold64 with (8106479329266893, -53).
  change (2 ^ 50) with 1125899906842624 in Hmax.
  unfold round64. destruct (Z.eqb_spec c 0) as [-> | Hc0].
  { unfold le64. cbn [fst snd]. rewrite Z.leb_le, Z.mul_0_l.
    assert (0 < 2 ^ Z.max 0 (-53 - 0)) by (apply Z.pow_pos_nonneg; lia).
    split; intros Habs; nia. }
  destruct (Z_lt_le_dec c t) as [Hlt | Hge].
  - destruct (Z_lt_le_dec (2 * c) t) as [Hsmall | Hhalf].
    + destruct (binade_below_half c t ltac:(lia) Hsmall) as [Hb Hup].
      set (b := binade c t) in *.
      assert (roundHalfEven (c * 2 ^ Z.max 0 (- (b - 52)))
                (t * 2 ^ Z.max 0 (b - 52)) ≤ 2 ^ 53) as Hm.
      { rewrite (Z.max_r 0 (- (b - 52))), (Z.max_l 0 (b - 52)) by lia.
        rewrite Z.pow_0_r, Z.mul_1_r.
        apply roundHalfEven_le; [lia|].
        replace (- (b - 52)) with ((- b - 1) + 53) by lia.
        rewrite Z.pow_add_r by lia.
        assert (0 < 2 ^ 53) by (apply Z.pow_pos_nonneg; lia). nia. }
      unfold le64. cbn [fst snd].
      rewrite (Z.max_l 0 (b - 52 - -53)), (Z.max_r 0 (-53 - (b - 52))) by lia.
      rewrite Z.pow_0_r, Z.mul_1_r.
      assert (2 ≤ 2 ^ (-53 - (b - 52))) as Hpow.
      { change 2 with (2 ^ 1) at 1. apply Z.pow_le_mono_r; lia. }
      change (2 ^ 53) with 9007199254740992 in Hm.
      split.
      * intros Hle. apply Z.leb_le in Hle. nia.
      * intros Habs. lia.
    + rewrite (binade_upper_half c t) by lia.
      change (Z.max 0 (- (-1 - 52))) with 53. change (Z.max 0 (-1 - 52)) with 0.
      rewrite Z.pow_0_r, Z.mul_1_r. unfold le64. cbn [fst snd].
      change (Z.max 0 (-53 - (-1 - 52))) with 0.
      change (Z.max 0 (-1 - 52 - -53)) with 0.
      rewrite Z.pow_0_r, !Z.mul_1_r, Z.leb_le.
      rewrite (roundHalfEven_ge_odd _ t 8106479329266893)
        by (lia || reflexivity).
      change (2 ^ 53) with 9007199254740992. lia.
  - assert (c = t) as -> by lia.
    assert (binade t t = 0) as ->.
    { unfold binade. rewrite Z.sub_diag.
      change (Z.max 0 0) with 0. change (Z.max 0 (- 0)) with 0.
      rewrite Z.pow_0_r, Z.mul_1_r.
      destruct (Z.leb_spec t t); lia. }
    change (Z.max 0 (- (0 - 52))) with 52. change (Z.max 0 (0 - 52)) with 0.
    rewrite Z.pow_0_r, Z.mul_1_r. unfold le64. cbn [fst snd].
    change (Z.max 0 (-53 - (0 - 52))) with 0.
    change (Z.max 0 (0 - 52 - -53)) with 1.
    rewrite Z.pow_0_r, Z.mul_1_r, Z.leb_le.
    assert (roundHalfEven (t * 2 ^ 52) t = 2 ^ 52) as ->.
    { unfold roundHalfEven.
      rewrite (Z.mul_comm t (2 ^ 52)), Z.mod_mul, Z.div_mul by lia.
      rewrite Z.mul_0_r. destruct (Z.ltb_spec 0 t); [reflexivity | lia]. }
    split; [lia|]. intros _. apply Z.leb_le. reflexivity.
Qed.

Lemma roundHalfEven_ge_floor (p q : Z) : 0 < q → p / q ≤ roundHalfEven p q.
Proof.
  intros Hq. unfold roundHalfEven.
  destruct (2 * (p mod q) <? q); [lia|].
  destruct (q <? 2 * (p mod q)); [lia|].
  destruct (Z.even (p / q)); lia.
Qed.

(** A quotient of at least 1 lies in a binade of non-negative exponent. *)
Lemma binade_at_least_one (c t : Z) :
  0 < t → t ≤ c → 0 ≤ binade c t ∧ t * 2 ^ binade c t ≤ c.
Proof.
  intros Ht Hct. unfold binade.
  destruct (Z.log2_spec c ltac:(lia)) as [Hc1 Hc2].
  destruct (Z.log2_spec t Ht) as [Ht1 Ht2].
  pose proof (Z.log2_le_mono t c Hct) as Hmono.
  pose proof (Z.log2_nonneg t) as Hlt.
  set (lc := Z.log2 c) in *. set (lt := Z.log2 t) in *.
  rewrite (Z.max_r 0 (lc - lt)) by lia.
  rewrite (Z.max_l 0 (- (lc - lt))) by lia.
  rewrite Z.pow_0_r, Z.mul_1_r.
  destruct (Z.leb_spec (t * 2 ^ (lc - lt)) c) as [Hin | Hout].
  - split; [lia | exact Hin].
  - assert (lc - lt ≠ 0) as Hne.
    { intros Heq. rewrite Heq, Z.pow_0_r in Hout. lia. }
    split; [lia|].
    assert (t * 2 ^ (lc - lt - 1) < 2 ^ Z.succ lt * 2 ^ (lc - lt - 1)) as Hlt'.
    { apply Z.mul_lt_mono_pos_r; [apply Z.pow_pos_nonneg; lia | exact Ht2]. }
    rewrite <- Z.pow_add_r in Hlt' by lia.
    replace (Z.succ lt + (lc - lt - 1)) with lc in Hlt' by lia. lia.
Qed.

(** Where the double quotient passes the double [0.9]: exactly above the
    midpoint between [0.9] and the double before it, for all integers
    [c] and [t > 0]. *)
Lemma le64_threshold_cut (c t : Z) :
  0 < t →
  (le64 threshold64 (round64 c t) = true
   ↔ 16212958658533785 * t < 18014398509481984 * c).
Proof.
  intros Ht.
  change threshold64 with (8106479329266893, -53).
  unfold round64. destruct (Z.eqb_spec c 0) as [-> | Hc0].
  { unfold le64. cbn [fst snd]. rewrite Z.leb_le, Z.mul_0_l.
    assert (0 < 2 ^ Z.max 0 (-53 - 0)) by (apply Z.pow_pos_nonneg; lia).
    split; intros Habs; nia. }
  destruct (Z_lt_le_dec c 0) as [Hneg | Hpos].
  { set (e := binade c t - 52).
    assert (roundHalfEven (c * 2 ^ Z.max 0 (- e)) (t * 2 ^ Z.max 0 e) ≤ 0) as Hm.
    { assert (0 < 2 ^ Z.max 0 (- e)) by (apply Z.pow_pos_nonneg; lia).
      assert (0 < 2 ^ Z.max 0 e) by (apply Z.pow_pos_nonneg; lia).
      apply roundHalfEven_le; nia. }
    unfold le64. cbn [fst snd]. rewrite Z.leb_le.
    assert (0 < 2 ^ Z.max 0 (-53 - e)) by (apply Z.pow_pos_nonneg; lia).
    assert (0 < 2 ^ Z.max 0 (e - -53)) by (apply Z.pow_pos_nonneg; lia).
    split; intros Habs; nia. }
  destruct (Z_lt_le_dec c t) as [Hlt | Hge].
  - destruct (Z_lt_le_dec (2 * c) t) as [Hsmall | Hhalf].
    + destruct (binade_below_half c t ltac:(lia) Hsmall) as [Hb Hup].
      set (b := binade c t) in *.
      assert (roundHalfEven (c * 2 ^ Z.max 0 (- (b - 52)))
                (t * 2 ^ Z.max 0 (b - 52)) ≤ 2 ^ 53) as Hm.
      { rewrite (Z.max_r 0 (- (b - 52))), (Z.max_l 0 (b - 52)) by lia.
        rewrite Z.pow_0_r, Z.mul_1_r.
        apply roundHalfEven_le; [lia|].
        replace (- (b - 52)) with ((- b - 1) + 53) by lia.
        rewrite Z.pow_add_r by lia.
        assert (0 < 2 ^ 53) by (apply Z.pow_pos_nonneg; lia). nia. }
      unfold le64. cbn [fst snd].
      rewrite (Z.max_l 0 (b - 52 - -53)), (Z.max_r 0 (-53 - (b - 52))) by lia.
      rewrite Z.pow_0_r, Z.mul_1_r.
      assert (2 ≤ 2 ^ (-53 - (b - 52))) as Hpow.
      { change 2 with (2 ^ 1) at 1. apply Z.pow_le_mono_r; lia. }
      change (2 ^ 53) with 9007199254740992 in Hm.
      split.
      * intros Hle. apply Z.leb_le in Hle. nia.
      * intros Habs. lia.
    + rewrite (binade_upper_half c t) by lia.
      change (Z.max 0 (- (-1 - 52))) with 53. change (Z.max 0 (-1 - 52)) with 0.
      rewrite Z.pow_0_r, Z.mul_1_r. unfold le64. cbn [fst snd].
      change (Z.max 0 (-53 - (-1 - 52))) with 0.
      change (Z.max 0 (-1 - 52 - -53)) with 0.
      rewrite Z.pow_0_r, !Z.mul_1_r, Z.leb_le.
      rewrite (roundHalfEven_ge_odd _ t 8106479329266893)
        by (lia || reflexivity).
      change (2 ^ 53) with 9007199254740992. lia.
  - destruct (binade_at_least_one c t Ht Hge) as [Hb Hlow].
    set (b := binade c t) in *.
    assert (2 ^ 52 ≤ roundHalfEven (c * 2 ^ Z.max 0 (- (b - 52)))
                       (t * 2 ^ Z.max 0 (b - 52))) as Hm.
    { assert (0 < 2 ^ Z.max 0 (b - 52)) by (apply Z.pow_pos_nonneg; lia).
      etrans; [|apply roundHalfEven_ge_floor; nia].
      apply Z.div_le_lower_bound; [nia|].
      destruct (Z_le_gt_dec b 52) as [Hle | Hgt].
      - rewrite (Z.max_r 0 (- (b - 52))), (Z.max_l 0 (b - 52)) by lia.
        rewrite Z.pow_0_r, Z.mul_1_r.
        replace 52 with (b + (52 - b)) at 1 by lia.
        rewrite Z.pow_add_r by lia.
        assert (0 < 2 ^ (52 - b)) by (apply Z.pow_pos_nonneg; lia).
        replace (- (b - 52)) with (52 - b) by lia. nia.
      - rewrite (Z.max_l 0 (- (b - 52))), (Z.max_r 0 (b - 52)) by lia.
        rewrite Z.pow_0_r, Z.mul_1_r.
        replace (t * 2 ^ (b - 52) * 2 ^ 52) with (t * 2 ^ b); [exact Hlow|].
        rewrite <- Z.mul_assoc, <- Z.pow_add_r by lia. f_equal. f_equal. lia. }
    unfold le64. cbn [fst snd].
    rewrite (Z.max_l 0 (-53 - (b - 52))), (Z.max_r 0 (b - 52 - -53)) by lia.
    rewrite Z.pow_0_r, Z.mul_1_r, Z.leb_le.
    assert (2 ≤ 2 ^ (b - 52 - -53)) as Hpow.
    { change 2 with (2 ^ 1) at 1. apply Z.pow_le_mono_r; lia. }
    change (2 ^ 52) with 4503599627370496 in Hm.
    split; intros _; nia.
Qed.

(** The code's test in integers, for all counters. *)
Lemma meetsThresholds_cut (stats : CharacterStats) :
  meetsThresholds stats = true ↔
  10 ≤ total stats
  ∧ 16212958658533785 * total stats < 18014398509481984 * correct stats.
Proof.
  unfold meetsThresholds, accuracy. rewrite andb_true_iff, Z.leb_le. split.
  - intros [Hten Hle]. split; [done|].
    destruct (Z.ltb_spec 0 (total stats)); [|lia].
    by apply le64_threshold_cut in Hle; [|lia].
  - intros [Hten Hcut]. split; [done|].
    destruct (Z.ltb_spec 0 (total stats)); [|lia].
    by apply le64_threshold_cut; [lia|].
Qed.

(** Within the bound the code's test is the spec's. *)
Lemma meetsThresholds_iff_exact (stats : CharacterStats) :
  0 ≤ correct stats → 0 ≤ incorrect stats → total stats ≤ 2 ^ 50 →
  (meetsThresholds stats = true ↔
   10 ≤ total stats
   ∧ (9 # 10 <= inject_Z (correct stats) / inject_Z (total stats))%Q).
Proof.
  intros Hc Hi Hmax. unfold meetsThresholds, accuracy.
  rewrite andb_true_iff, Z.leb_le. split.
  - intros [Hten Hle]. split; [done|].
    destruct (Z.ltb_spec 0 (total stats)); [|lia].
    apply accuracy_ge_iff; [lia|].
    by apply le64_threshold in Hle; unfold total in *; try lia.
  - intros [Hten Hacc]. split; [done|].
    destruct (Z.ltb_spec 0 (total stats)); [|lia].
    apply le64_threshold; unfold total in *; try lia.
    by apply accuracy_ge_iff in Hacc; [|lia].
Qed.

(** X1. For counters that are non-negative and add up to at most [2 ^ 50],
    the test evaluated in double precision gives the verdict of the test on
    the exact quotient. *)
Lemma meetsThresholds64_exact (stats : CharacterStats) :
  0 ≤ correct stats → 0 ≤ incorrect stats → total stats ≤ 2 ^ 50 →
  meetsThresholds stats = meetsThresholdsExactly stats.
Proof.
  intros Hc Hi Hmax.
  unfold meetsThresholds, meetsThresholdsExactly, accuracy, exactAccuracy.
  destruct (Z.leb_spec 10 (total stats)) as [Hten | Hfew]; [|reflexivity].
  destruct (Z.ltb_spec 0 (total stats)) as [Hpos | ]; [|lia].
  rewrite !andb_true_l. apply eq_true_iff_eq.
  rewrite le64_threshold by (unfold total in *; lia).
  rewrite Qle_bool_iff. symmetry. by apply accuracy_ge_iff.
Qed.

(** [round64] gives the double that the Standard Library's IEEE 754
    division gives, on a sample of quotients. *)
Lemma round64_is_SFdiv_on_samples :
  Forall (λ '(n, d), toSpecFloat (round64 n d) = divide64 n d)
    [ (9, 10); (8, 9); (89, 100); (1, 3); (2, 3); (1, 1); (7, 8); (0, 5);
      (899999, 1000000); (123456789, 987654321);
      (2 ^ 50 - 1, 2 ^ 50); (5, 2 ^ 50) ].
Proof. repeat constructor. Qed.

End Binary64Facts.

(** ** Properties of the mastery classification *)

Section MasteryFacts.
Import Mastery Binary64.

Lemma meetsThresholdsExactly_spec (stats : CharacterStats) :
  meetsThresholdsExactly stats = true ↔
  10 ≤ total stats ∧
  (9 # 10 <= inject_Z (correct stats) / inject_Z (total stats))%Q.
Proof.
  unfold meetsThresholdsExactly, exactAccuracy.
  rewrite andb_true_iff, Z.leb_le, Qle_bool_iff.
  split.
  - intros [Hn Hacc]. split; [done|].
    destruct (Z.ltb_spec 0 (total stats)); [done | lia].
  - intros [Hn Hacc]. split; [done|].
    destruct (Z.ltb_spec 0 (total stats)); [done | lia].
Qed.

Lemma meetsThresholds_spec (stats : CharacterStats) :
  meetsThresholds stats = true ↔
  10 ≤ total stats ∧ le64 threshold64 (accuracy stats) = true.
Proof.
  unfold meetsThresholds. by rewrite andb_true_iff, Z.leb_le.
Qed.

Lemma elem_of_collect_fold (entries : list (string * CharacterStats))
    (acc : gset string) (id : string) :
  id ∈ foldl (λ mastered '(char, stats),
                if meetsThresholds stats then {[ char ]} ∪ mastered
                else mastered) acc entries
  ↔ id ∈ acc ∨ ∃ stats, (id, stats) ∈ entries ∧ meetsThresholds stats = true.
Proof.
  revert acc. induction entries as [|[char stats] entries IH]; intros acc; simpl.
  - split; [by left|]. intros [?|(s & Hin & _)]; [done|]. by apply elem_of_nil in Hin.
  - rewrite IH. split.
    + intros [Hacc | (s & Hin & Hs)].
      * destruct (meetsThresholds stats) eqn:E.
        -- apply elem_of_union in Hacc as [Hid | Hacc]; [|by left].
           apply elem_of_singleton in Hid as ->.
           right. exists stats. split; [left|done].
        -- by left.
      * right. exists s. split; [by right|done].
    + intros [Hacc | (s & Hin & Hs)].
      * left. destruct (meetsThresholds stats); [|done].
        apply elem_of_union. by right.
      * apply elem_of_cons in Hin as [Heq | Hin].
        -- injection Heq as -> ->. left. rewrite Hs.
           apply elem_of_union. left. by apply elem_of_singleton.
        -- right. by exists s.
Qed.

Lemma elem_of_masteredCharacters (m : gmap string CharacterStats) (id : string) :
  id ∈ KanjiCards.masteredCharacters m ↔
  ∃ stats, m !! id = Some stats ∧ meetsThresholds stats = true.
Proof.
  unfold KanjiCards.masteredCharacters. rewrite elem_of_collect_fold. split.
  - intros [Hemp | (s & Hin & Hs)]; [set_solver|].
    exists s. by rewrite <- elem_of_map_to_list.
  - intros (s & Hin & Hs). right. exists s. by rewrite elem_of_map_to_list.
Qed.

(** The vocabulary grid computes the same set. *)
Lemma masteredWords_masteredCharacters (m : gmap string CharacterStats) :
  VocabCards.masteredWords m = KanjiCards.masteredCharacters m.
Proof. reflexivity. Qed.

Lemma meetsThresholds_zero_total (stats : CharacterStats) :
  total stats = 0 → meetsThresholds stats = false.
Proof.
  intros Hz. unfold meetsThresholds. rewrite Hz. reflexivity.
Qed.

Lemma meetsThresholdsExactly_zero_total (stats : CharacterStats) :
  total stats = 0 → meetsThresholdsExactly stats = false.
Proof.
  intros Hz. unfold meetsThresholdsExactly. rewrite Hz. reflexivity.
Qed.

(** Membership in the mastered set, for the counters the ledger holds. *)
Lemma mastered_with_counters (m : gmap string CharacterStats)
    (id : string) (stats : CharacterStats) :
  m !! id = Some stats →
  (id ∈ KanjiCards.masteredCharacters m ↔ meetsThresholds stats = true).
Proof.
  intros Hid. rewrite elem_of_masteredCharacters. split.
  - intros (s & Hs & Hm). rewrite Hid in Hs. by injection Hs as <-.
  - intros Hm. by exists stats.
Qed.

(** C1. An identifier with counters [{correct, incorrect}] is in the
    mastered set, of the kanji grid and of the vocabulary grid alike, if and
    only if [correct + incorrect >= 10] and [correct / (correct + incorrect)
    >= 0.9] as the code evaluates it, in double precision.  For non-negative
    counters that add up to at most [2 ^ 50] this is the test on the exact
    quotient: in the set if and only if [correct + incorrect >= 10] and
    [correct / (correct + incorrect) >= 0.90], both bounds inclusive.
    [{9, 1}] is mastered, [{8, 1}] and [{89, 11}] are not. *)
Theorem mastered_iff_thresholds
    (characterMastery : gmap string CharacterStats)
    (id : string) (stats : CharacterStats) :
  characterMastery !! id = Some stats →
  let masteredInDoubles :=
    10 ≤ correct stats + incorrect stats
    ∧ le64 threshold64 (accuracy stats) = true in
  let mastered :=
    10 ≤ correct stats + incorrect stats ∧
    (9 # 10 <= inject_Z (correct stats)
               / inject_Z (correct stats + incorrect stats))%Q in
  let sample : gmap string CharacterStats :=
    {[ "a" := mkStats 9 1; "b" := mkStats 8 1; "c" := mkStats 89 11 ]} in
  (id ∈ KanjiCards.masteredCharacters characterMastery ↔ masteredInDoubles)
  ∧ (id ∈ VocabCards.masteredWords characterMastery ↔ masteredInDoubles)
  ∧ (0 ≤ correct stats → 0 ≤ incorrect stats →
     correct stats + incorrect stats ≤ 2 ^ 50 →
     (id ∈ KanjiCards.masteredCharacters characterMastery ↔ mastered)
     ∧ (id ∈ VocabCards.masteredWords characterMastery ↔ mastered))
  ∧ ("a" ∈ KanjiCards.masteredCharacters sample
     ∧ ("b" ∉ KanjiCards.masteredCharacters sample)
     ∧ ("c" ∉ KanjiCards.masteredCharacters sample))
  ∧ ("a" ∈ VocabCards.masteredWords sample
     ∧ ("b" ∉ VocabCards.masteredWords sample)
     ∧ ("c" ∉ VocabCards.masteredWords sample)).
Proof.
  intros Hid masteredInDoubles mastered sample.
  change VocabCards.masteredWords with KanjiCards.masteredCharacters.
  assert (Hcode : id ∈ KanjiCards.masteredCharacters characterMastery
                  ↔ masteredInDoubles).
  { rewrite (mastered_with_counters _ _ _ Hid). apply meetsThresholds_spec. }
  assert (Hexact : 0 ≤ correct stats → 0 ≤ incorrect stats →
                   correct stats + incorrect stats ≤ 2 ^ 50 →
                   (id ∈ KanjiCards.masteredCharacters characterMastery
                    ↔ mastered)).
  { intros Hc Hi Hmax. rewrite (mastered_with_counters _ _ _ Hid).
    by apply meetsThresholds_iff_exact. }
  assert (Hsample : "a" ∈ KanjiCards.masteredCharacters sample
                    ∧ ("b" ∉ KanjiCards.masteredCharacters sample)
                    ∧ ("c" ∉ KanjiCards.masteredCharacters sample)).
  { rewrite !elem_of_masteredCharacters. split; [|split].
    - exists (mkStats 9 1). split; reflexivity.
    - intros (s & Hs & Hm). vm_compute in Hs. injection Hs as <-. discriminate.
    - intros (s & Hs & Hm). vm_compute in Hs. injection Hs as <-. discriminate. }
  split; [exact Hcode|]. split; [exact Hcode|].
  split; [|exact (conj Hsample Hsample)].
  intros Hc Hi Hmax. by split; apply Hexact.
Qed.

(** C2. With the collection loaded, a quiz set is classified as fully
    mastered if and only if every item of the set's slice of the collection
    is mastered, that is, has counters that pass the code's test: at least
    10 attempts and a double-precision accuracy of at least [0.9].  When the
    counters of the set's items are non-negative and add up to at most
    [2 ^ 50], that is: if and only if every item has at least 10 attempts
    and an exact accuracy of at least 0.90. *)
Theorem set_mastered_iff_every_item_mastered
    (characterMastery : gmap string CharacterStats) (setStart setEnd : nat) :
  let itemMastered (id : string) :=
    ∃ stats, characterMastery !! id = Some stats
             ∧ 10 ≤ correct stats + incorrect stats
             ∧ le64 threshold64 (accuracy stats) = true in
  let itemMeetsThresholds (id : string) :=
    ∃ stats, characterMastery !! id = Some stats
             ∧ 10 ≤ correct stats + incorrect stats
             ∧ (9 # 10 <= inject_Z (correct stats)
                          / inject_Z (correct stats + incorrect stats))%Q in
  let withinBound (id : string) :=
    ∀ stats, characterMastery !! id = Some stats →
             0 ≤ correct stats ∧ 0 ≤ incorrect stats
             ∧ correct stats + incorrect stats ≤ 2 ^ 50 in
  (∀ collection : KanjiCards.KanjiCollection,
     let kanjiInSet :=
       slice (KanjiCards.data collection)
             (setStart * KanjiCards.KANJI_PER_SET)
             (setEnd * KanjiCards.KANJI_PER_SET) in
     (KanjiCards.isSetMastered (Some collection) characterMastery
                               setStart setEnd = true
      ↔ ∀ kanji, kanji ∈ kanjiInSet → itemMastered (KanjiStore.kanjiChar kanji))
     ∧ ((∀ kanji, kanji ∈ kanjiInSet →
                  withinBound (KanjiStore.kanjiChar kanji)) →
        (KanjiCards.isSetMastered (Some collection) characterMastery
                                  setStart setEnd = true
         ↔ ∀ kanji, kanji ∈ kanjiInSet →
                    itemMeetsThresholds (KanjiStore.kanjiChar kanji))))
  ∧ (∀ collection : VocabCards.VocabCollection,
       let wordsInSet :=
         slice (VocabCards.data collection)
               (setStart * VocabCards.WORDS_PER_SET)
               (setEnd * VocabCards.WORDS_PER_SET) in
       (VocabCards.isSetMastered (Some collection) characterMastery
                                 setStart setEnd = true
        ↔ ∀ vocab, vocab ∈ wordsInSet → itemMastered (VocabCards.word vocab))
       ∧ ((∀ vocab, vocab ∈ wordsInSet →
                    withinBound (VocabCards.word vocab)) →
          (VocabCards.isSetMastered (Some collection) characterMastery
                                    setStart setEnd = true
           ↔ ∀ vocab, vocab ∈ wordsInSet →
                      itemMeetsThresholds (VocabCards.word vocab)))).
Proof.
  intros itemMastered itemMeetsThresholds withinBound.
  assert (Hitem : ∀ id, id ∈ KanjiCards.masteredCharacters characterMastery
                        ↔ itemMastered id).
  { intros id. rewrite elem_of_masteredCharacters. unfold itemMastered.
    split; intros (s & Hs & Hm); exists s; (split; [done|]);
      by apply meetsThresholds_spec. }
  assert (Hexact : ∀ id, withinBound id →
                         (itemMastered id ↔ itemMeetsThresholds id)).
  { intros id Hbound. unfold itemMastered, itemMeetsThresholds.
    split; intros (s & Hs & Hm); exists s; (split; [done|]);
      destruct (Hbound s Hs) as (Hc & Hi & Hmax).
    - by apply meetsThresholds_iff_exact, meetsThresholds_spec.
    - by apply meetsThresholds_spec, meetsThresholds_iff_exact. }
  assert (Hkanji : ∀ collection : KanjiCards.KanjiCollection,
            KanjiCards.isSetMastered (Some collection) characterMastery
                                     setStart setEnd = true
            ↔ ∀ kanji,
                kanji ∈ slice (KanjiCards.data collection)
                              (setStart * KanjiCards.KANJI_PER_SET)
                              (setEnd * KanjiCards.KANJI_PER_SET)
                → itemMastered (KanjiStore.kanjiChar kanji)).
  { intros collection. simpl. rewrite forallb_forall. split.
    - intros Hall kanji Hin. apply Hitem.
      apply list_elem_of_In, Hall in Hin. by apply bool_decide_eq_true in Hin.
    - intros Hall kanji Hin. apply bool_decide_eq_true, Hitem, Hall.
      by apply list_elem_of_In. }
  assert (Hvocab : ∀ collection : VocabCards.VocabCollection,
            VocabCards.isSetMastered (Some collection) characterMastery
                                     setStart setEnd = true
            ↔ ∀ vocab,
                vocab ∈ slice (VocabCards.data collection)
                              (setStart * VocabCards.WORDS_PER_SET)
                              (setEnd * VocabCards.WORDS_PER_SET)
                → itemMastered (VocabCards.word vocab)).
  { intros collection. simpl. rewrite forallb_forall.
    change VocabCards.masteredWords with KanjiCards.masteredCharacters. split.
    - intros Hall vocab Hin. apply Hitem.
      apply list_elem_of_In, Hall in Hin. by apply bool_decide_eq_true in Hin.
    - intros Hall vocab Hin. apply bool_decide_eq_true, Hitem, Hall.
      by apply list_elem_of_In. }
  split; intros collection items; (split; [done|]); intros Hbound.
  - rewrite Hkanji. split; intros Hall kanji Hin.
    + by apply Hexact, Hall; [apply Hbound|].
    + by apply Hexact, Hall; [apply Hbound|].
  - rewrite Hvocab. split; intros Hall vocab Hin.
    + by apply Hexact, Hall; [apply Hbound|].
    + by apply Hexact, Hall; [apply Hbound|].
Qed.

(** While the collection is still loading no set is reported mastered. *)
Lemma set_not_mastered_while_loading
    (characterMastery : gmap string CharacterStats) (setStart setEnd : nat) :
  KanjiCards.isSetMastered None characterMastery setStart setEnd = false
  ∧ VocabCards.isSetMastered None characterMastery setStart setEnd = false.
Proof. split; reflexivity. Qed.

(** C3. With [correct + incorrect = 0] the quotient is never formed: the
    accuracy is the constant 0 of the else-branch, in the code's doubles and
    in the spec's exact reading alike, and the item is in neither mastered
    set. *)
Theorem zero_attempts_never_mastered
    (characterMastery : gmap string CharacterStats)
    (id : string) (stats : CharacterStats) :
  characterMastery !! id = Some stats →
  correct stats + incorrect stats = 0 →
  accuracy stats = (0, 0)
  ∧ exactAccuracy stats = 0%Q
  ∧ meetsThresholds stats = false
  ∧ meetsThresholdsExactly stats = false
  ∧ (id ∉ KanjiCards.masteredCharacters characterMastery)
  ∧ (id ∉ VocabCards.masteredWords characterMastery).
Proof.
  intros Hid Hz.
  change VocabCards.masteredWords with KanjiCards.masteredCharacters.
  assert (Hnot : id ∉ KanjiCards.masteredCharacters characterMastery).
  { rewrite (mastered_with_counters _ _ _ Hid).
    by rewrite meetsThresholds_zero_total. }
  split; [|split; [|split; [|split; [|split]]]]; try done.
  - unfold accuracy, total. by rewrite Hz.
  - unfold exactAccuracy, total. by rewrite Hz.
  - by apply meetsThresholds_zero_total.
  - by apply meetsThresholdsExactly_zero_total.
Qed.

End MasteryFacts.

(** ** Properties of the word-building games *)

Section GameFacts.
Context `{!AdaptiveSelector, !RandomEngine, !SmartReverseMode, !HostStrings}.
Import Game GameSpec.
Local Open Scope eff_scope.

Lemma emitsOnly_refl (P : Event → Prop) (w : World) : emitsOnly P w w.
Proof. exists []. split; [by rewrite app_nil_r | constructor]. Qed.

Lemma emitsOnly_trans (P : Event → Prop) (w1 w2 w3 : World) :
  emitsOnly P w1 w2 → emitsOnly P w2 w3 → emitsOnly P w1 w3.
Proof.
  intros (n1 & Ht1 & F1) (n2 & Ht2 & F2). exists (n1 ++ n2). split.
  - by rewrite Ht2, Ht1, app_assoc.
  - by apply Forall_app.
Qed.

Lemma emitsOnly_one (P : Event → Prop) (w w' : World) (e : Event) :
  trace w' = trace w ++ [e] → P e → emitsOnly P w w'.
Proof. intros Ht He. exists [e]. split; [done | by repeat constructor]. Qed.

Lemma emitsOnly_none (P : Event → Prop) (w w' : World) :
  trace w' = trace w → emitsOnly P w w'.
Proof. intros Ht. exists []. split; [by rewrite app_nil_r | constructor]. Qed.

Lemma keeps_refl (w : World) : keepsControllerAndScore w w.
Proof. split; [done | split; [done | apply emitsOnly_refl]]. Qed.

Lemma keeps_trans (w1 w2 w3 : World) :
  keepsControllerAndScore w1 w2 → keepsControllerAndScore w2 w3 →
  keepsControllerAndScore w1 w3.
Proof.
  intros (S1 & R1 & E1) (S2 & R2 & E2). split; [congruence|].
  split; [congruence | by eapply emitsOnly_trans].
Qed.

Section Always.
Variable R : World → World → Prop.
Hypothesis R_refl : ∀ w, R w w.
Hypothesis R_trans : ∀ w1 w2 w3, R w1 w2 → R w2 w3 → R w1 w3.

Lemma always_ret {A : Type} (a : A) : always R (ret a).
Proof. intros w. apply R_refl. Qed.

Lemma always_bind {A B : Type} (m : Eff A) (k : A → Eff B) :
  always R m → (∀ a, always R (k a)) → always R (bind m k).
Proof.
  intros Hm Hk w. unfold bind. specialize (Hm w).
  destruct (m w) as [a w1]. eapply R_trans; [exact Hm | apply Hk].
Qed.

Lemma always_when (c : bool) (m : Eff unit) :
  always R m → always R (when c m).
Proof. intros Hm. destruct c; [exact Hm | apply always_ret]. Qed.

Lemma always_forEach {A : Type} (xs : list A) (body : A → Eff unit) :
  (∀ x, always R (body x)) → always R (forEach xs body).
Proof.
  intros Hbody. induction xs as [|x xs IH]; simpl.
  - apply always_ret.
  - apply always_bind; [apply Hbody | intros _; exact IH].
Qed.

End Always.

(** The result and the world after a [bind]. *)
Lemma run_bind {A B : Type} (m : Eff A) (k : A → Eff B) (w : World) :
  bind m k w = k (m w).1 (m w).2.
Proof. unfold bind. by destruct (m w). Qed.

(** *** The selector is only ever given candidates *)

Lemma selects_bind {A B : Type} (m : Eff A) (k : A → Eff B) :
  selects m → (∀ a, selects (k a)) → selects (bind m k).
Proof.
  apply always_bind. intros w1 w2 w3. apply emitsOnly_trans.
Qed.

Lemma selects_ret {A : Type} (a : A) : selects (ret a).
Proof. apply always_ret, emitsOnly_refl. Qed.

Lemma selects_callSelect (c : string) (cs : list string) :
  selects (callSelectWeightedCharacter (c :: cs)).
Proof.
  intros w. unfold callSelectWeightedCharacter.
  destruct (selectWeightedCharacter (c :: cs) (selector w)) as [sel s].
  by eapply emitsOnly_one.
Qed.

Lemma selects_callMark (id : string) : selects (callMarkCharacterSeen id).
Proof. intros w. by eapply emitsOnly_one. Qed.

Lemma selects_callRandomInteger (lo hi : Z) : selects (callRandomInteger lo hi).
Proof.
  intros w. unfold callRandomInteger.
  destruct (randomInteger lo hi (rng w)) as [i r]. by apply emitsOnly_none.
Qed.

Lemma selects_callRandomSort {A : Type} (xs : list A) :
  selects (callRandomSort xs).
Proof.
  intros w. unfold callRandomSort.
  destruct (randomSort xs (rng w)) as [ys r]. by apply emitsOnly_none.
Qed.

Lemma selects_drawWordChars (remaining : nat)
    (sourceChars wordChars : list string) (usedChars : gset string) :
  selects (KanaWordBuilding.drawWordChars remaining sourceChars wordChars usedChars).
Proof.
  revert wordChars usedChars.
  induction remaining as [|remaining IH]; intros wordChars usedChars; simpl.
  - apply selects_ret.
  - destruct (filter _ sourceChars) as [|c cs]; [apply selects_ret|].
    apply selects_bind; [apply selects_callSelect | intros selected].
    apply selects_bind; [apply selects_callMark | intros _]. apply IH.
Qed.

Lemma selects_drawDistractors (remaining : nat) (distractorSource : list string)
    (usedAnswers : gset (option string)) (distractors : list (option string)) :
  selects (KanaWordBuilding.drawDistractors remaining distractorSource
             usedAnswers distractors).
Proof.
  revert distractors.
  induction remaining as [|remaining IH]; intros distractors; simpl.
  - apply selects_ret.
  - destruct (filter _ distractorSource) as [|c cs]; [apply selects_ret|].
    apply selects_bind; [apply selects_callRandomInteger | intros i]. apply IH.
Qed.

Lemma selects_generateWord (isReverse : bool) (wordLength : Z)
    (selectedKana selectedRomaji : list string)
    (kanaToRomaji romajiToKana : gmap string string) :
  selects (KanaWordBuilding.generateWord isReverse wordLength selectedKana
             selectedRomaji kanaToRomaji romajiToKana).
Proof.
  unfold KanaWordBuilding.generateWord.
  destruct (_ <? wordLength); [apply selects_ret|].
  apply selects_bind; [apply selects_drawWordChars | intros wordChars].
  apply selects_bind; [apply selects_drawDistractors | intros distractors].
  apply selects_bind; [apply selects_callRandomSort | intros tiles].
  apply selects_ret.
Qed.

Lemma selects_generateQuestion (isReverse : bool)
    (selectedKanjiObjs : list KanjiStore.IKanjiObj)
    (externalDistractorCount : Z) :
  selects (KanjiWordBuilding.generateQuestion isReverse selectedKanjiObjs
             externalDistractorCount).
Proof.
  unfold KanjiWordBuilding.generateQuestion.
  destruct selectedKanjiObjs as [|obj objs]; [apply selects_ret|].
  apply selects_bind; [apply selects_callSelect | intros selected].
  apply selects_bind; [apply selects_callMark | intros _].
  destruct (_ !! selected) as [selectedObj|]; [|apply selects_ret].
  apply selects_bind; [apply selects_callRandomSort | intros sorted].
  apply selects_bind; [apply selects_callRandomSort | intros tiles].
  apply selects_ret.
Qed.

Lemma nonEmptySelection_spec (new : list Event) :
  Forall nonEmptySelection new →
  ∀ candidates, SelectWeightedCharacter candidates ∈ new → candidates ≠ [].
Proof.
  intros Hall candidates Hin ->.
  rewrite Forall_forall in Hall. exact (Hall _ Hin).
Qed.

(** C4. Every call of [selectWeightedCharacter] made by [generateWord] and
    by [generateQuestion] passes a non-empty candidate list: both return the
    empty result, without calling the selector, when the pool is too small,
    and the draw loop of [generateWord] stops when no candidate is left. *)
Theorem selector_never_called_on_empty_pool :
  (∀ isReverse wordLength selectedKana selectedRomaji kanaToRomaji
     romajiToKana w,
     let m := KanaWordBuilding.generateWord isReverse wordLength selectedKana
                selectedRomaji kanaToRomaji romajiToKana in
     (∃ new, trace (m w).2 = trace w ++ new
             ∧ ∀ candidates,
                 SelectWeightedCharacter candidates ∈ new → candidates ≠ [])
     ∧ (Z.of_nat (length (if isReverse then selectedRomaji else selectedKana))
          < wordLength
        → m w = (KanaWordBuilding.mkWordData [] [] [], w)))
  ∧ (∀ isReverse selectedKanjiObjs externalDistractorCount w,
       let m := KanjiWordBuilding.generateQuestion isReverse selectedKanjiObjs
                  externalDistractorCount in
       (∃ new, trace (m w).2 = trace w ++ new
               ∧ ∀ candidates,
                   SelectWeightedCharacter candidates ∈ new → candidates ≠ [])
       ∧ (selectedKanjiObjs = []
          → m w = (KanjiWordBuilding.emptyQuestion, w))).
Proof.
  split.
  - intros isReverse wordLength selectedKana selectedRomaji k2r r2k w m. split.
    + destruct (selects_generateWord isReverse wordLength selectedKana
                  selectedRomaji k2r r2k w) as (new & Ht & Hall).
      exists new. split; [exact Ht | by apply nonEmptySelection_spec].
    + intros Hshort. unfold m, KanaWordBuilding.generateWord.
      apply Z.ltb_lt in Hshort. by rewrite Hshort.
  - intros isReverse selectedKanjiObjs count w m. split.
    + destruct (selects_generateQuestion isReverse selectedKanjiObjs count w)
        as (new & Ht & Hall).
      exists new. split; [exact Ht | by apply nonEmptySelection_spec].
    + by intros ->.
Qed.

(** *** The characters of a word are distinct *)

Lemma drawWordChars_NoDup (sourceChars : list string) :
  (∀ candidates s, candidates ≠ [] →
     (selectWeightedCharacter candidates s).1 ∈ candidates) →
  ∀ remaining wordChars (usedChars : gset string) w,
    NoDup wordChars →
    (∀ c, c ∈ wordChars → c ∈ usedChars) →
    NoDup (KanaWordBuilding.drawWordChars remaining sourceChars wordChars
             usedChars w).1.
Proof.
  intros Hsel remaining.
  induction remaining as [|remaining IH]; intros wordChars usedChars w Hnd Hused;
    simpl; [done|].
  destruct (filter _ sourceChars) as [|c cs] eqn:Hav; [done|].
  unfold bind, callSelectWeightedCharacter.
  pose proof (Hsel (c :: cs) (selector w) ltac:(done)) as Hmem.
  destruct (selectWeightedCharacter (c :: cs) (selector w)) as [selected s].
  simpl in *. rewrite <- Hav in Hmem.
  apply list_elem_of_filter in Hmem as [Hfresh _].
  apply IH.
  - apply NoDup_app. split; [done|]. split; [|apply NoDup_singleton].
    intros x Hx Hx'. apply list_elem_of_singleton in Hx' as ->.
    by apply Hfresh, Hused.
  - intros x Hx. apply elem_of_app in Hx as [Hx | Hx].
    + apply elem_of_union. right. by apply Hused.
    + apply list_elem_of_singleton in Hx as ->.
      apply elem_of_union. left. by apply elem_of_singleton.
Qed.

(** C5. If [selectWeightedCharacter] returns a member of the list it is
    given, the [wordChars] produced by [generateWord] are pairwise distinct:
    a drawn character joins [usedChars] and is filtered out of the candidates
    of every later draw. *)
Theorem generateWord_wordChars_distinct
    (isReverse : bool) (wordLength : Z)
    (selectedKana selectedRomaji : list string)
    (kanaToRomaji romajiToKana : gmap string string) (w : World) :
  (∀ candidates s, candidates ≠ [] →
     (selectWeightedCharacter candidates s).1 ∈ candidates) →
  NoDup (KanaWordBuilding.wordChars
           (KanaWordBuilding.generateWord isReverse wordLength selectedKana
              selectedRomaji kanaToRomaji romajiToKana w).1).
Proof.
  intros Hsel. unfold KanaWordBuilding.generateWord.
  destruct (_ <? wordLength); [apply NoDup_nil_2|].
  unfold bind.
  pose proof (drawWordChars_NoDup
                (if isReverse then selectedRomaji else selectedKana) Hsel
                (Z.to_nat wordLength) [] ∅ w NoDup_nil_2) as Hnd.
  destruct (KanaWordBuilding.drawWordChars _ _ _ _ w) as [wordChars w1].
  destruct (KanaWordBuilding.drawDistractors _ _ _ _ w1) as [ds w2].
  destruct (callRandomSort _ w2) as [tiles w3]. simpl.
  apply Hnd. intros c Hc. by apply elem_of_nil in Hc.
Qed.

(** *** Distractors *)

Lemma drawDistractors_length (distractorSource : list string)
    (usedAnswers : gset (option string)) :
  ∀ remaining distractors w,
    (length (KanaWordBuilding.drawDistractors remaining distractorSource
               usedAnswers distractors w).1
     ≤ length distractors + remaining)%nat.
Proof.
  intros remaining.
  induction remaining as [|remaining IH]; intros distractors w; simpl; [lia|].
  destruct (filter _ distractorSource) as [|c cs]; simpl; [lia|].
  unfold bind, callRandomInteger.
  destruct (randomInteger _ _ (rng w)) as [i r].
  etrans; [apply IH|]. rewrite length_app. simpl. lia.
Qed.

Lemma drawDistractors_fresh (distractorSource : list string)
    (usedAnswers : gset (option string)) :
  (∀ lo hi s, lo ≤ hi → lo ≤ (randomInteger lo hi s).1 ≤ hi) →
  ∀ remaining distractors w,
    NoDup distractors →
    (∀ d, d ∈ distractors → d ∉ usedAnswers) →
    let out := (KanaWordBuilding.drawDistractors remaining distractorSource
                  usedAnswers distractors w).1 in
    NoDup out ∧ ∀ d, d ∈ out → d ∉ usedAnswers.
Proof.
  intros Hrand remaining.
  induction remaining as [|remaining IH]; intros distractors w Hnd Hfresh;
    simpl; [done|].
  destruct (filter _ distractorSource) as [|c cs] eqn:Hav; [done|].
  unfold bind, callRandomInteger.
  pose proof (Hrand 0 (Z.of_nat (length (c :: cs)) - 1) (rng w)
                ltac:(simpl; lia)) as Hi.
  destruct (randomInteger _ _ (rng w)) as [i r]. simpl in Hi.
  unfold jsIndex. destruct (Z.ltb_spec i 0) as [|_]; [lia|].
  destruct (lookup_lt_is_Some_2 (c :: cs) (Z.to_nat i) ltac:(simpl; lia))
    as [picked Hpicked].
  rewrite Hpicked.
  assert (Hin : picked ∈ filter
                  (λ c, (Some c ∉ usedAnswers) ∧ (Some c ∉ distractors))
                  distractorSource).
  { rewrite Hav. by eapply list_elem_of_lookup_2. }
  apply list_elem_of_filter in Hin as [[Hused Hnew] _].
  apply IH.
  - apply NoDup_app. split; [done|]. split; [|apply NoDup_singleton].
    intros x Hx Hx'. by apply list_elem_of_singleton in Hx' as ->.
  - intros d Hd. apply elem_of_app in Hd as [Hd | Hd]; [by apply Hfresh|].
    by apply list_elem_of_singleton in Hd as ->.
Qed.

Lemma drawDistractors_spec (distractorSource : list string)
    (answerChars : list (option string)) (count : Z) (w : World) :
  0 ≤ count →
  let distractors :=
    (KanaWordBuilding.drawDistractors (Z.to_nat count) distractorSource
       (list_to_set answerChars) [] w).1 in
  Z.of_nat (length distractors) ≤ count
  ∧ ((∀ lo hi s, lo ≤ hi → lo ≤ (randomInteger lo hi s).1 ≤ hi) →
     NoDup distractors ∧ ∀ d, d ∈ distractors → d ∉ answerChars).
Proof.
  intros Hcount distractors. unfold distractors. split.
  - pose proof (drawDistractors_length distractorSource
                  (list_to_set answerChars) (Z.to_nat count) [] w) as Hle.
    simpl in Hle. lia.
  - intros Hrand.
    destruct (drawDistractors_fresh distractorSource (list_to_set answerChars)
                Hrand (Z.to_nat count) [] w NoDup_nil_2) as [Hnd Hfresh].
    { intros d Hd. by apply elem_of_nil in Hd. }
    split; [exact Hnd|]. intros d Hd Hans.
    apply (Hfresh d Hd). by apply elem_of_list_to_set.
Qed.

(** The kanji question takes its distractors from the front of the sorted
    source: never more than [distractorCount] of them. *)
Lemma sliceFromZero_length {A : Type} (xs : list A) (stop : Z) :
  0 ≤ stop →
  Z.of_nat (length (KanjiWordBuilding.sliceFromZero xs stop)) ≤ stop.
Proof.
  intros Hstop. unfold KanjiWordBuilding.sliceFromZero.
  destruct (Z.ltb_spec stop 0); [lia|]. rewrite length_take. lia.
Qed.

(** C9. When the word length [L] does not exceed the size [n] of the source
    pool, [generateWord] returns normally, and the distractor list it builds
    (the result of its second loop, appended to the answers before the
    random sort) has at most [min(3, n - L)] elements; a small pool gives a
    shorter list, possibly empty.  As [random.integer] stays within the
    bounds it is given, the distractors are pairwise distinct and none of
    them is an answer. *)
Theorem generateWord_distractors_bounded_distinct
    (isReverse : bool) (wordLength : Z)
    (selectedKana selectedRomaji : list string)
    (kanaToRomaji romajiToKana : gmap string string) (w : World) :
  let sourceChars := if isReverse then selectedRomaji else selectedKana in
  let distractorSource := if isReverse then selectedKana else selectedRomaji in
  let n := Z.of_nat (length sourceChars) in
  wordLength ≤ n →
  let firstLoop :=
    KanaWordBuilding.drawWordChars (Z.to_nat wordLength) sourceChars [] ∅ w in
  let wordChars := firstLoop.1 in
  let answerChars :=
    if isReverse then map (λ r, romajiToKana !! r) wordChars
    else map (λ k, kanaToRomaji !! k) wordChars in
  let secondLoop :=
    KanaWordBuilding.drawDistractors (Z.to_nat (Z.min 3 (n - wordLength)))
      distractorSource (list_to_set answerChars) [] firstLoop.2 in
  let distractors := secondLoop.1 in
  (KanaWordBuilding.generateWord isReverse wordLength selectedKana
     selectedRomaji kanaToRomaji romajiToKana w).1
  = KanaWordBuilding.mkWordData wordChars answerChars
      (callRandomSort (answerChars ++ distractors) secondLoop.2).1
  ∧ Z.of_nat (length distractors) ≤ Z.min 3 (n - wordLength)
  ∧ ((∀ lo hi s, lo ≤ hi → lo ≤ (randomInteger lo hi s).1 ≤ hi) →
     NoDup distractors ∧ ∀ d, d ∈ distractors → d ∉ answerChars).
Proof.
  intros sourceChars distractorSource n Hlen firstLoop wordChars
    answerChars secondLoop distractors.
  split.
  - unfold KanaWordBuilding.generateWord. fold sourceChars n.
    destruct (Z.ltb_spec n wordLength) as [|_]; [lia|].
    rewrite !run_bind. reflexivity.
  - apply (drawDistractors_spec distractorSource answerChars
             (Z.min 3 (n - wordLength)) firstLoop.2). lia.
Qed.

(** *** What [handleCheck] does to the score and to the reverse-mode hook *)

Lemma keeps_emit (e : Event) :
  isControllerEvent e = false → always keepsControllerAndScore (emit e).
Proof.
  intros He w. split; [done|]. split; [done|]. by eapply emitsOnly_one.
Qed.

Lemma keeps_callUpdate (id : string) (wasCorrect : bool) :
  always keepsControllerAndScore (callUpdateCharacterWeight id wasCorrect).
Proof.
  intros w. split; [done|]. split; [done|]. by eapply emitsOnly_one.
Qed.

Lemma keeps_bind {A B : Type} (m : Eff A) (k : A → Eff B) :
  always keepsControllerAndScore m →
  (∀ a, always keepsControllerAndScore (k a)) →
  always keepsControllerAndScore (bind m k).
Proof. apply always_bind. apply keeps_trans. Qed.

Lemma keeps_ret {A : Type} (a : A) : always keepsControllerAndScore (ret a).
Proof. apply always_ret, keeps_refl. Qed.

Lemma keeps_forEach {A : Type} (xs : list A) (body : A → Eff unit) :
  (∀ x, always keepsControllerAndScore (body x)) →
  always keepsControllerAndScore (forEach xs body).
Proof. apply always_forEach; [apply keeps_refl | apply keeps_trans]. Qed.

Ltac keeps :=
  repeat first
    [ apply keeps_ret
    | apply keeps_callUpdate
    | apply keeps_emit; reflexivity
    | apply keeps_bind; [|intros ?]
    | apply keeps_forEach; intros ?
    | apply always_when; [apply keeps_refl |] ].

Ltac all_events :=
  repeat first
    [ assumption
    | apply Forall_nil_2
    | apply Forall_cons; split; [reflexivity|]
    | apply Forall_app; split ].

Lemma keeps_correct_loop (wordChars : list string) :
  always keepsControllerAndScore
    (forEach wordChars (λ char,
       emit (AddCharacterToHistory char) ;;
       emit (IncrementCharacterScore char FieldCorrect) ;;
       callUpdateCharacterWeight char true ;;
       if KanaWordBuilding.isHiragana char then emit IncrementHiraganaCorrect
       else when (KanaWordBuilding.isKatakana char)
                 (emit IncrementKatakanaCorrect))).
Proof.
  keeps. destruct (KanaWordBuilding.isHiragana _); keeps.
Qed.

Lemma keeps_wrong_loop (wordChars : list string) :
  always keepsControllerAndScore
    (forEach wordChars (λ char,
       emit (IncrementCharacterScore char FieldWrong) ;;
       callUpdateCharacterWeight char false)).
Proof. keeps. Qed.

(** Running a computation step by step: the three observed slots of the
    world after each primitive. *)
Lemma run_ret {A : Type} (a : A) (w : World) : (ret a w).2 = w.
Proof. reflexivity. Qed.

Lemma run_when_true (m : Eff unit) : when true m = m.
Proof. reflexivity. Qed.

Lemma run_when_false (m : Eff unit) (w : World) : (when false m w).2 = w.
Proof. reflexivity. Qed.

Lemma run_readScore (w : World) :
  (readScore w).1 = score w ∧ (readScore w).2 = w.
Proof. done. Qed.

Lemma run_emit (e : Event) (w : World) :
  score (emit e w).2 = score w
  ∧ reverseMode (emit e w).2 = reverseMode w
  ∧ trace (emit e w).2 = trace w ++ [e].
Proof. done. Qed.

Lemma run_setScore (v : Z) (w : World) :
  score (setScore v w).2 = v
  ∧ reverseMode (setScore v w).2 = reverseMode w
  ∧ trace (setScore v w).2 = trace w.
Proof. done. Qed.

Lemma run_callUpdate (id : string) (wasCorrect : bool) (w : World) :
  score (callUpdateCharacterWeight id wasCorrect w).2 = score w
  ∧ reverseMode (callUpdateCharacterWeight id wasCorrect w).2 = reverseMode w
  ∧ trace (callUpdateCharacterWeight id wasCorrect w).2
    = trace w ++ [UpdateCharacterWeight id wasCorrect].
Proof. done. Qed.

Lemma run_callDecide (w : World) :
  score (callDecideNextMode w).2 = score w
  ∧ reverseMode (callDecideNextMode w).2 = decideNextMode (reverseMode w)
  ∧ trace (callDecideNextMode w).2 = trace w ++ [DecideNextMode].
Proof. done. Qed.

Lemma run_callRecordWrong (w : World) :
  score (callRecordWrongAnswer w).2 = score w
  ∧ reverseMode (callRecordWrongAnswer w).2 = recordWrongAnswer (reverseMode w)
  ∧ trace (callRecordWrongAnswer w).2 = trace w ++ [RecordWrongAnswer].
Proof. done. Qed.

(** Push the three observations through the primitives, outside in. *)
Ltac observe :=
  repeat first
    [ rewrite run_ret
    | rewrite run_when_true
    | rewrite run_when_false
    | rewrite (proj1 (run_readScore _))
    | rewrite (proj2 (run_readScore _))
    | rewrite (proj1 (run_emit _ _))
    | rewrite (proj1 (proj2 (run_emit _ _)))
    | rewrite (proj2 (proj2 (run_emit _ _)))
    | rewrite (proj1 (run_setScore _ _))
    | rewrite (proj1 (proj2 (run_setScore _ _)))
    | rewrite (proj2 (proj2 (run_setScore _ _)))
    | rewrite (proj1 (run_callUpdate _ _ _))
    | rewrite (proj1 (proj2 (run_callUpdate _ _ _)))
    | rewrite (proj2 (proj2 (run_callUpdate _ _ _)))
    | rewrite (proj1 (run_callDecide _))
    | rewrite (proj1 (proj2 (run_callDecide _)))
    | rewrite (proj2 (proj2 (run_callDecide _)))
    | rewrite (proj1 (run_callRecordWrong _))
    | rewrite (proj1 (proj2 (run_callRecordWrong _)))
    | rewrite (proj2 (proj2 (run_callRecordWrong _)))
    | match goal with
      | Hs : score ?w1 = _ |- context [score ?w1] => rewrite Hs
      | Hr : reverseMode ?w1 = _ |- context [reverseMode ?w1] => rewrite Hr
      | Ht : trace ?w1 = _ |- context [trace ?w1] => rewrite Ht
      end ].

(** Close the three parts of an effect summary once the world is explicit. *)
Ltac summarise :=
  split; [observe; reflexivity|];
  split; [observe; reflexivity|];
  eexists; split; [observe; rewrite <- ?app_assoc; reflexivity|];
  split; [try done; intros _; all_events
         |try done; intros _; rewrite ?elem_of_app, ?elem_of_cons; tauto].

(** The state of the hook, the score and the new events after the kana
    [handleCheck], by cases on the branch taken. *)
Lemma kana_handleCheck_effect (externalIsReverse : option bool)
    (externalOnWrong : bool) (st : KanaWordBuilding.GameState) (w : World) :
  let w' := (KanaWordBuilding.handleCheck externalIsReverse externalOnWrong
               st w).2 in
  let answered := bool_decide (KanaWordBuilding.placedTiles st ≠ []) in
  let right := KanaWordBuilding.isCorrect st in
  let free := bool_decide (externalIsReverse = None) in
  reverseMode w'
  = (if answered && free
     then (if right then decideNextMode else recordWrongAnswer) (reverseMode w)
     else reverseMode w)
  ∧ score w'
    = (if answered
       then if right
            then score w + Z.of_nat (length (KanaWordBuilding.wordChars
                                               (KanaWordBuilding.wordData st)))
            else if 0 <=? score w - 1 then score w - 1 else score w
       else score w)
  ∧ ∃ new, trace w' = trace w ++ new
           ∧ (free = false → Forall (λ e, isControllerEvent e = false) new)
           ∧ (answered && free = true →
              (if right then DecideNextMode else RecordWrongAnswer) ∈ new).
Proof.
  intros w' answered right free.
  unfold w', answered, right, free, KanaWordBuilding.handleCheck.
  destruct (KanaWordBuilding.placedTiles st) as [|t ts] eqn:Hplaced.
  { cbv beta iota. rewrite run_ret.
    rewrite (bool_decide_eq_false_2 ([] ≠ [])) by (intros Hne; by apply Hne).
    split; [done|]. split; [done|]. exists []. rewrite app_nil_r.
    split; [done|]. split; [intros _; constructor | done]. }
  rewrite (bool_decide_eq_true_2 (t :: ts ≠ [])) by done.
  cbv beta iota. rewrite !run_bind. cbv beta.
  destruct (KanaWordBuilding.isCorrect st); cbv beta iota;
    rewrite !run_bind; cbv beta;
    rewrite ?(proj1 (run_readScore _)), ?(proj2 (run_readScore _)).
  - match goal with |- context [(forEach ?xs ?body ?w0).2] =>
      destruct (keeps_correct_loop xs w0) as (Hs & Hr & new & Ht & Hnew) end.
    destruct externalIsReverse as [direction|].
    + rewrite (bool_decide_eq_false_2 (Some direction = None)) by done.
      summarise.
    + rewrite (bool_decide_eq_true_2 (None = None)) by done.
      summarise.
  - match goal with |- context [(forEach ?xs ?body ?w0).2] =>
      destruct (keeps_wrong_loop xs w0) as (Hs & Hr & new & Ht & Hnew) end.
    destruct (0 <=? score w - 1), externalIsReverse as [direction|],
      externalOnWrong;
      rewrite ?(bool_decide_eq_false_2 (Some direction = None)) by done;
      rewrite ?(bool_decide_eq_true_2 (None = None)) by done;
      summarise.
Qed.

(** The same for the kanji [handleCheck]. *)
Lemma kanji_handleCheck_effect (externalIsReverse : option bool)
    (externalOnWrong : bool) (selectedKanjiCollection : string)
    (selectedKanjiObjs : list KanjiStore.IKanjiObj)
    (st : KanjiWordBuilding.GameState) (w : World) :
  let w' := (KanjiWordBuilding.handleCheck externalIsReverse externalOnWrong
               selectedKanjiCollection selectedKanjiObjs st w).2 in
  let answered := bool_decide (KanjiWordBuilding.placedTiles st ≠ []) in
  let right := KanjiWordBuilding.isCorrect st in
  let free := bool_decide (externalIsReverse = None) in
  reverseMode w'
  = (if answered && free
     then (if right then decideNextMode else recordWrongAnswer) (reverseMode w)
     else reverseMode w)
  ∧ score w'
    = (if answered
       then if right then score w + 1
            else if 0 <=? score w - 1 then score w - 1 else score w
       else score w)
  ∧ ∃ new, trace w' = trace w ++ new
           ∧ (free = false → Forall (λ e, isControllerEvent e = false) new)
           ∧ (answered && free = true →
              (if right then DecideNextMode else RecordWrongAnswer) ∈ new).
Proof.
  intros w' answered right free.
  unfold w', answered, right, free, KanjiWordBuilding.handleCheck.
  destruct (KanjiWordBuilding.placedTiles st) as [|t ts] eqn:Hplaced.
  { cbv beta iota. rewrite run_ret.
    rewrite (bool_decide_eq_false_2 ([] ≠ [])) by (intros Hne; by apply Hne).
    split; [done|]. split; [done|]. exists []. rewrite app_nil_r.
    split; [done|]. split; [intros _; constructor | done]. }
  rewrite (bool_decide_eq_true_2 (t :: ts ≠ [])) by done.
  cbv beta iota zeta. rewrite !run_bind. cbv beta.
  destruct (KanjiWordBuilding.isCorrect st); cbv beta iota;
    rewrite !run_bind; cbv beta;
    rewrite ?(proj1 (run_readScore _)), ?(proj2 (run_readScore _)).
  - destruct externalIsReverse as [direction|].
    + rewrite (bool_decide_eq_false_2 (Some direction = None)) by done.
      summarise.
    + rewrite (bool_decide_eq_true_2 (None = None)) by done.
      summarise.
  - destruct (0 <=? score w - 1), externalIsReverse as [direction|],
      externalOnWrong;
      rewrite ?(bool_decide_eq_false_2 (Some direction = None)) by done;
      rewrite ?(bool_decide_eq_true_2 (None = None)) by done;
      summarise.
Qed.

(** C8. With a direction supplied by the caller, both games use exactly
    that direction: it is the direction with which the component generates
    the round it mounts with and every round [resetGame] starts, whatever
    the hook says; and [handleCheck] neither calls [decideNextMode] or
    [recordWrongAnswer] nor changes the state of the hook.  Without one, the
    rounds are generated with the hook's direction, and a checked answer
    runs [decideNextMode] when it is correct and [recordWrongAnswer] when it
    is wrong. *)
Theorem external_direction_disables_controller
    (externalOnWrong : bool) (selectedKanjiCollection : string)
    (selectedKanjiObjs : list KanjiStore.IKanjiObj)
    (wordLength : Z) (tables : KanaRound.KanaTables)
    (externalDistractorCount : Z) (speedStopwatchStart : Eff unit)
    (kana : KanaWordBuilding.GameState) (kanji : KanjiWordBuilding.GameState)
    (w : World) :
  let kanaCheck ext :=
    (KanaWordBuilding.handleCheck ext externalOnWrong kana w).2 in
  let kanjiCheck ext :=
    (KanjiWordBuilding.handleCheck ext externalOnWrong selectedKanjiCollection
       selectedKanjiObjs kanji w).2 in
  let untouched w' :=
    reverseMode w' = reverseMode w
    ∧ ∃ new, trace w' = trace w ++ new
             ∧ Forall (λ e, isControllerEvent e = false) new in
  let advanced (answered right : bool) w' :=
    if answered
    then reverseMode w'
         = (if right then decideNextMode else recordWrongAnswer) (reverseMode w)
         ∧ ∃ new, trace w' = trace w ++ new
                  ∧ (if right then DecideNextMode else RecordWrongAnswer) ∈ new
    else w' = w in
  let generatesWith (ext : option bool) (direction : bool) :=
    let word :=
      (KanaWordBuilding.generateWord direction wordLength
         (KanaRound.selectedKana tables) (KanaRound.selectedRomaji tables)
         (KanaRound.kanaToRomaji tables) (KanaRound.romajiToKana tables) w).1 in
    let question :=
      (KanjiWordBuilding.generateQuestion direction selectedKanjiObjs
         externalDistractorCount w).1 in
    (KanaRound.mount ext wordLength tables w).1
    = KanaWordBuilding.mkGameState word [] false false BarCheck
    ∧ (KanaRound.resetGame ext wordLength tables speedStopwatchStart w).1
      = KanaWordBuilding.mkGameState word [] false false BarCheck
    ∧ (KanjiRound.mount ext externalDistractorCount selectedKanjiObjs w).1
      = KanjiWordBuilding.mkGameState question [] false false BarCheck
          false None
    ∧ (KanjiRound.resetGame ext externalDistractorCount selectedKanjiObjs
         speedStopwatchStart kanji w).1
      = KanjiWordBuilding.mkGameState question [] false false BarCheck
          false (KanjiWordBuilding.currentKanjiObjForSummary kanji) in
  (∀ direction,
     isReverse (Some direction) w = direction
     ∧ untouched (kanaCheck (Some direction))
     ∧ untouched (kanjiCheck (Some direction)))
  ∧ isReverse None w = internalIsReverse (reverseMode w)
  ∧ advanced (bool_decide (KanaWordBuilding.placedTiles kana ≠ []))
             (KanaWordBuilding.isCorrect kana) (kanaCheck None)
  ∧ advanced (bool_decide (KanjiWordBuilding.placedTiles kanji ≠ []))
             (KanjiWordBuilding.isCorrect kanji) (kanjiCheck None)
  ∧ (∀ direction, generatesWith (Some direction) direction)
  ∧ generatesWith None (internalIsReverse (reverseMode w)).
Proof.
  intros kanaCheck kanjiCheck untouched advanced generatesWith.
  assert (Hgen : ∀ ext, generatesWith ext (isReverse ext w)).
  { intros ext. unfold generatesWith, KanaRound.mount, KanaRound.resetGame,
      KanjiRound.mount, KanjiRound.resetGame.
    rewrite !run_bind. by repeat split. }
  split; [|split; [done|split; [|split; [|split]]]];
    [| | |intros direction; apply (Hgen (Some direction)) | apply (Hgen None)].
  - intros direction. split; [done|]. split.
    + destruct (kana_handleCheck_effect (Some direction) externalOnWrong kana w)
        as (Hr & _ & new & Ht & Hall & _).
      rewrite andb_false_r in Hr. split; [exact Hr|].
      exists new. split; [exact Ht | by apply Hall].
    + destruct (kanji_handleCheck_effect (Some direction) externalOnWrong
                  selectedKanjiCollection selectedKanjiObjs kanji w)
        as (Hr & _ & new & Ht & Hall & _).
      rewrite andb_false_r in Hr. split; [exact Hr|].
      exists new. split; [exact Ht | by apply Hall].
  - unfold advanced, kanaCheck.
    destruct (kana_handleCheck_effect None externalOnWrong kana w)
      as (Hr & _ & new & Ht & _ & Hin).
    destruct (bool_decide (KanaWordBuilding.placedTiles kana ≠ [])) eqn:Hans.
    + split; [exact Hr|]. exists new. split; [exact Ht | by apply Hin].
    + apply bool_decide_eq_false in Hans.
      unfold KanaWordBuilding.handleCheck.
      destruct (KanaWordBuilding.placedTiles kana); [done|].
      exfalso. by apply Hans.
  - unfold advanced, kanjiCheck.
    destruct (kanji_handleCheck_effect None externalOnWrong
                selectedKanjiCollection selectedKanjiObjs kanji w)
      as (Hr & _ & new & Ht & _ & Hin).
    destruct (bool_decide (KanjiWordBuilding.placedTiles kanji ≠ [])) eqn:Hans.
    + split; [exact Hr|]. exists new. split; [exact Ht | by apply Hin].
    + apply bool_decide_eq_false in Hans.
      unfold KanjiWordBuilding.handleCheck.
      destruct (KanjiWordBuilding.placedTiles kanji); [done|].
      exfalso. by apply Hans.
Qed.

(** C10. The score never becomes negative: a correct answer adds to it, a
    wrong answer takes 1 off only when the result is still [>= 0] and
    otherwise leaves it alone, in both games. *)
Theorem score_never_negative
    (externalIsReverse : option bool) (externalOnWrong : bool)
    (selectedKanjiCollection : string)
    (selectedKanjiObjs : list KanjiStore.IKanjiObj)
    (kana : KanaWordBuilding.GameState) (kanji : KanjiWordBuilding.GameState)
    (w : World) :
  0 ≤ score w →
  let kanaScore :=
    score (KanaWordBuilding.handleCheck externalIsReverse externalOnWrong
             kana w).2 in
  let kanjiScore :=
    score (KanjiWordBuilding.handleCheck externalIsReverse externalOnWrong
             selectedKanjiCollection selectedKanjiObjs kanji w).2 in
  let afterWrong := if 0 <=? score w - 1 then score w - 1 else score w in
  0 ≤ kanaScore
  ∧ 0 ≤ kanjiScore
  ∧ kanaScore
    = (if bool_decide (KanaWordBuilding.placedTiles kana ≠ [])
       then if KanaWordBuilding.isCorrect kana
            then score w + Z.of_nat (length (KanaWordBuilding.wordChars
                                               (KanaWordBuilding.wordData kana)))
            else afterWrong
       else score w)
  ∧ kanjiScore
    = (if bool_decide (KanjiWordBuilding.placedTiles kanji ≠ [])
       then if KanjiWordBuilding.isCorrect kanji then score w + 1
            else afterWrong
       else score w).
Proof.
  intros Hscore kanaScore kanjiScore afterWrong.
  destruct (kana_handleCheck_effect externalIsReverse externalOnWrong kana w)
    as (_ & Hkana & _).
  destruct (kanji_handleCheck_effect externalIsReverse externalOnWrong
              selectedKanjiCollection selectedKanjiObjs kanji w)
    as (_ & Hkanji & _).
  fold kanaScore in Hkana. fold kanjiScore in Hkanji. fold afterWrong in Hkana, Hkanji.
  assert (Hwrong : 0 ≤ afterWrong).
  { unfold afterWrong. destruct (Z.leb_spec 0 (score w - 1)); lia. }
  split; [|split; [|split; [exact Hkana | exact Hkanji]]].
  - rewrite Hkana. clear Hkana Hkanji. clearbody afterWrong.
    destruct (bool_decide _), (KanaWordBuilding.isCorrect kana); lia.
  - rewrite Hkanji. clear Hkana Hkanji. clearbody afterWrong.
    destruct (bool_decide _), (KanjiWordBuilding.isCorrect kanji); lia.
Qed.

End GameFacts.

(** ** Properties of the adaptive selector *)

Section SelectorFacts.
Import AdaptiveSelection.
Variable cfg : Config.

Lemma pickCumulative_member (st : SelectionState) (cs : list string) :
  ∀ target c, pickCumulative cfg st target c cs ∈ c :: cs.
Proof.
  induction cs as [|c' cs IH]; intros target c; simpl.
  - by left.
  - destruct (Qle_bool _ target); [right; apply IH | by left].
Qed.

Lemma pickUniform_member (r : Q) (c : string) (cs : list string) :
  pickUniform r c cs ∈ c :: cs.
Proof.
  unfold pickUniform.
  destruct ((c :: cs) !! _) as [picked|] eqn:Hpicked; simpl.
  - by eapply list_elem_of_lookup_2.
  - by left.
Qed.

Lemma selectWeightedCharacter_member (st : SelectionState) (r : Q)
    (candidates : list string) :
  candidates ≠ [] →
  ∃ c, selectWeightedCharacter cfg st r candidates = inr c ∧ c ∈ candidates.
Proof.
  intros Hne. destruct candidates as [|c cs]; [done|].
  unfold selectWeightedCharacter.
  destruct (Qle_bool _ 0); eexists; (split; [reflexivity|]).
  - apply pickUniform_member.
  - apply pickCumulative_member.
Qed.

(** C6. On a non-empty pool [selectWeightedCharacter] returns, without
    failure, an identifier that is a member of the pool. *)
Theorem selectWeightedCharacter_returns_member (st : SelectionState) (r : Q)
    (candidates : list string) :
  candidates ≠ [] →
  ∃ c, selectWeightedCharacter cfg st r candidates = inr c ∧ c ∈ candidates.
Proof.
  intros Hne. destruct candidates as [|c cs]; [done|].
  unfold selectWeightedCharacter.
  destruct (Qle_bool (totalWeight cfg st (c :: cs)) 0) eqn:Hzero.
  - exists (pickUniform r c cs). split; [reflexivity|].
    apply pickUniform_member.
  - exists (pickCumulative cfg st (r * totalWeight cfg st (c :: cs)) c cs).
    split; [reflexivity|]. apply pickCumulative_member.
Qed.

Lemma weightOf_update (st : SelectionState) (id : string) (wasCorrect : bool) :
  weightOf cfg (updateCharacterWeight cfg id wasCorrect st) id
  = clampWeight cfg
      (if wasCorrect then (weightOf cfg st id * decayFactor cfg)%Q
       else applyBoost cfg (weightOf cfg st id)).
Proof.
  unfold weightOf at 1, statOf at 1, updateCharacterWeight. simpl.
  rewrite lookup_insert_eq. by destruct wasCorrect.
Qed.

Hypothesis cfg_ok : ConfigOk cfg.

Lemma W_min_le_W_max : (W_min cfg <= W_max cfg)%Q.
Proof.
  destruct cfg_ok as [_ Hlo Hhi _ _ _]. by eapply Qle_trans.
Qed.

Lemma clampWeight_inBounds (x : Q) : inBounds cfg (clampWeight cfg x).
Proof.
  pose proof W_min_le_W_max as Hmm. unfold inBounds, clampWeight.
  destruct (Qle_bool x (W_max cfg)) eqn:Hx.
  - apply Qle_bool_iff in Hx.
    destruct (Qle_bool (W_min cfg) x) eqn:Hy.
    + apply Qle_bool_iff in Hy. done.
    + split; [apply Qle_refl | done].
  - destruct (Qle_bool (W_min cfg) (W_max cfg)) eqn:Hy.
    + split; [done | apply Qle_refl].
    + split; [apply Qle_refl | done].
Qed.

Lemma clampWeight_id (x : Q) : inBounds cfg x → clampWeight cfg x = x.
Proof.
  intros [Hlo Hhi]. unfold clampWeight.
  apply Qle_bool_iff in Hlo, Hhi. by rewrite Hhi, Hlo.
Qed.

Lemma clampWeight_above (x : Q) :
  (W_max cfg <= x)%Q → (clampWeight cfg x == W_max cfg)%Q.
Proof.
  pose proof W_min_le_W_max as Hmm. intros Hx. unfold clampWeight.
  destruct (Qle_bool x (W_max cfg)) eqn:Hx'.
  - apply Qle_bool_iff in Hx'.
    assert (x == W_max cfg)%Q as Heq by by apply Qle_antisym.
    assert (Qle_bool (W_min cfg) x = true) as ->.
    { apply Qle_bool_iff. by eapply Qle_trans. }
    exact Heq.
  - apply Qle_bool_iff in Hmm. rewrite Hmm. reflexivity.
Qed.

Lemma clampWeight_below (x : Q) :
  (x <= W_min cfg)%Q → (clampWeight cfg x == W_min cfg)%Q.
Proof.
  pose proof W_min_le_W_max as Hmm. intros Hx. unfold clampWeight.
  assert (Qle_bool x (W_max cfg) = true) as ->.
  { apply Qle_bool_iff. by eapply Qle_trans. }
  destruct (Qle_bool (W_min cfg) x) eqn:Hx'.
  - apply Qle_bool_iff in Hx'. by apply Qle_antisym.
  - reflexivity.
Qed.

Lemma applyBoost_increases (x : Q) : (0 < x)%Q → (x < applyBoost cfg x)%Q.
Proof.
  intros Hx. pose proof (boost_ok cfg cfg_ok) as Hb. unfold applyBoost.
  destruct (boost cfg) as [factor|amount]; [nra | lra].
Qed.

Lemma decay_decreases (x : Q) : (0 < x)%Q → (x * decayFactor cfg < x)%Q.
Proof.
  intros Hx. pose proof (decay_lt1 cfg cfg_ok). nra.
Qed.

(** One incorrect outcome on a weight within bounds. *)
Lemma wrong_outcome_raises (st : SelectionState) (id : string) :
  inBounds cfg (weightOf cfg st id) →
  let before := weightOf cfg st id in
  let after := weightOf cfg (updateCharacterWeight cfg id false st) id in
  inBounds cfg after
  ∧ (before <= after)%Q
  ∧ ((before < after)%Q ∨ (after == W_max cfg)%Q).
Proof.
  intros [Hlo Hhi] before after. unfold after. rewrite weightOf_update.
  fold before in Hlo, Hhi |- *.
  pose proof (W_min_pos cfg cfg_ok) as Hpos.
  assert (before < applyBoost cfg before)%Q as Hup
    by (apply applyBoost_increases; lra).
  split; [apply clampWeight_inBounds|].
  destruct (Qlt_le_dec (W_max cfg) (applyBoost cfg before)) as [Hcap | Hfit].
  - pose proof (clampWeight_above (applyBoost cfg before) ltac:(lra)) as Heq.
    split; [lra | by right].
  - rewrite clampWeight_id by (split; lra). split; [lra | by left].
Qed.

(** One correct outcome on a weight within bounds. *)
Lemma right_outcome_lowers (st : SelectionState) (id : string) :
  inBounds cfg (weightOf cfg st id) →
  let before := weightOf cfg st id in
  let after := weightOf cfg (updateCharacterWeight cfg id true st) id in
  inBounds cfg after
  ∧ (after <= before)%Q
  ∧ ((after < before)%Q ∨ (after == W_min cfg)%Q).
Proof.
  intros [Hlo Hhi] before after. unfold after. rewrite weightOf_update.
  fold before in Hlo, Hhi |- *.
  pose proof (W_min_pos cfg cfg_ok) as Hpos.
  assert (before * decayFactor cfg < before)%Q as Hdown
    by (apply decay_decreases; lra).
  split; [apply clampWeight_inBounds|].
  destruct (Qlt_le_dec (before * decayFactor cfg) (W_min cfg)) as [Hcap | Hfit].
  - pose proof (clampWeight_below (before * decayFactor cfg)%Q ltac:(lra)) as Heq.
    split; [lra | by right].
  - rewrite clampWeight_id by (split; lra). split; [lra | by left].
Qed.

Lemma weightOf_update_other (st : SelectionState) (id other : string)
    (wasCorrect : bool) :
  id ≠ other →
  weightOf cfg (updateCharacterWeight cfg id wasCorrect st) other
  = weightOf cfg st other.
Proof.
  intros Hne. unfold weightOf, statOf, updateCharacterWeight. simpl.
  by rewrite lookup_insert_ne.
Qed.

Lemma weightOf_markSeen (st : SelectionState) (id other : string) :
  weightOf cfg (markCharacterSeen cfg id st) other = weightOf cfg st other.
Proof.
  unfold weightOf at 1, statOf at 1, markCharacterSeen. simpl.
  destruct (decide (id = other)) as [-> | Hne].
  - by rewrite lookup_insert_eq.
  - by rewrite lookup_insert_ne.
Qed.

Lemma applyCall_inBounds (st : SelectionState) (call : SelectorCall) :
  (∀ id, inBounds cfg (weightOf cfg st id)) →
  ∀ id, inBounds cfg (weightOf cfg (applyCall cfg st call) id).
Proof.
  intros Hall id. destruct call as [seen | target wasCorrect]; simpl.
  - rewrite weightOf_markSeen. apply Hall.
  - destruct (decide (target = id)) as [-> | Hne].
    + rewrite weightOf_update. apply clampWeight_inBounds.
    + rewrite weightOf_update_other by done. apply Hall.
Qed.

Lemma afterCalls_inBounds (calls : list SelectorCall) (id : string) :
  inBounds cfg (weightOf cfg (afterCalls cfg calls) id).
Proof.
  unfold afterCalls. revert id.
  induction calls as [|call calls IH] using rev_ind; intros id.
  - destruct cfg_ok as [_ Hlo Hhi _ _ _]. by split.
  - rewrite foldl_app. simpl. by apply applyCall_inBounds.
Qed.

(** C7. In every state the selector can reach, the weight of every item
    lies within [[W_min, W_max]]; one more [updateCharacterWeight(id, false)]
    leaves the weight of [id] strictly higher, or at [W_max]; one more
    [updateCharacterWeight(id, true)] leaves it strictly lower, or at
    [W_min].  Repeated calls therefore move the weight monotonically to the
    cap, or to the floor, and hold it there. *)
Theorem updateCharacterWeight_monotone_and_clamped
    (calls : list SelectorCall) (id : string) (n : nat) :
  let st := afterCalls cfg calls in
  let after (wasCorrect : bool) (k : nat) :=
    weightOf cfg (Nat.iter k (updateCharacterWeight cfg id wasCorrect) st) id in
  inBounds cfg (weightOf cfg st id)
  ∧ inBounds cfg (after false n)
  ∧ inBounds cfg (after true n)
  ∧ ((after false n <= after false (S n))%Q
     ∧ ((after false n < after false (S n))%Q
        ∨ (after false (S n) == W_max cfg)%Q))
  ∧ ((after true (S n) <= after true n)%Q
     ∧ ((after true (S n) < after true n)%Q
        ∨ (after true (S n) == W_min cfg)%Q)).
Proof.
  intros st after.
  assert (Hst : inBounds cfg (weightOf cfg st id))
    by apply afterCalls_inBounds.
  assert (Hiter : ∀ b k, inBounds cfg (after b k)).
  { intros b k. unfold after. destruct k as [|k]; simpl; [done|].
    rewrite weightOf_update. apply clampWeight_inBounds. }
  split; [exact Hst|]. split; [apply Hiter|]. split; [apply Hiter|]. split.
  - unfold after. simpl.
    apply (wrong_outcome_raises
             (Nat.iter n (updateCharacterWeight cfg id false) st) id).
    apply (Hiter false n).
  - unfold after. simpl.
    apply (right_outcome_lowers
             (Nat.iter n (updateCharacterWeight cfg id true) st) id).
    apply (Hiter true n).
Qed.

End SelectorFacts.

(** ** Mastery is kept by further correct answers *)

Section MasteryOrder.
Import Mastery.

Lemma meetsThresholds_more_correct (stats : CharacterStats) (more : Z) :
  0 ≤ more →
  meetsThresholds stats = true →
  meetsThresholds (mkStats (correct stats + more) (incorrect stats)) = true.
Proof.
  intros Hmore. rewrite !meetsThresholds_cut. unfold total. simpl. lia.
Qed.

(** X2. Correct answers never cost mastery.  When the counters of one item
    gain correct answers and nothing else in the ledger changes, every item
    that was in the mastered set is still in it, and every set that was
    classified as mastered, in either grid, still is. *)
Theorem correct_answers_never_lose_mastery
    (characterMastery : gmap string CharacterStats)
    (id : string) (stats : CharacterStats) (more : Z) :
  characterMastery !! id = Some stats →
  0 ≤ more →
  let after :=
    <[ id := mkStats (correct stats + more) (incorrect stats) ]>
      characterMastery in
  KanjiCards.masteredCharacters characterMastery
    ⊆ KanjiCards.masteredCharacters after
  ∧ (∀ collection setStart setEnd,
       KanjiCards.isSetMastered (Some collection) characterMastery
                                setStart setEnd = true →
       KanjiCards.isSetMastered (Some collection) after setStart setEnd = true)
  ∧ (∀ collection setStart setEnd,
       VocabCards.isSetMastered (Some collection) characterMastery
                                setStart setEnd = true →
       VocabCards.isSetMastered (Some collection) after setStart setEnd = true).
Proof.
  intros Hid Hmore after.
  assert (Hsub : KanjiCards.masteredCharacters characterMastery
                   ⊆ KanjiCards.masteredCharacters after).
  { intros other. rewrite !elem_of_masteredCharacters.
    intros (s & Hs & Hm). unfold after.
    destruct (decide (other = id)) as [->|Hne].
    - rewrite lookup_insert_eq. eexists. split; [done|].
      rewrite Hid in Hs. injection Hs as <-.
      by apply meetsThresholds_more_correct.
    - rewrite lookup_insert_ne by done. by exists s. }
  split; [exact Hsub|]. split.
  - intros collection setStart setEnd. simpl. rewrite !forallb_forall.
    intros Hall kanji Hin. specialize (Hall kanji Hin).
    apply bool_decide_eq_true in Hall. apply bool_decide_eq_true.
    by apply Hsub.
  - change VocabCards.masteredWords with KanjiCards.masteredCharacters.
    intros collection setStart setEnd. simpl. rewrite !forallb_forall.
    intros Hall vocab Hin. specialize (Hall vocab Hin).
    apply bool_decide_eq_true in Hall. apply bool_decide_eq_true.
    by apply Hsub.
Qed.

End MasteryOrder.

(** ** Properties of the card grids *)

Section GridFacts.
Import Mastery Grid.

Lemma ceilDiv_bounds (n d : nat) :
  (0 < d)%nat →
  (n ≤ ceilDiv n d * d)%nat ∧ (ceilDiv n d * d < n + d)%nat.
Proof.
  intros Hd. unfold ceilDiv.
  pose proof (Nat.div_mod (n + d - 1) d ltac:(lia)) as Hdiv.
  pose proof (Nat.mod_upper_bound (n + d - 1) d ltac:(lia)) as Hmod.
  split; nia.
Qed.

(** The first [k] slices of width [d], put end to end, are the first
    [k * d] elements. *)
Lemma concat_slices {A : Type} (l : list A) (d k : nat) :
  concat (imap (λ i (_ : ()), slice l (i * d) ((i + 1) * d)) (replicate k ()))
  = take (k * d) l.
Proof.
  induction k as [|k IH]; [done|].
  rewrite replicate_S_end, imap_app, concat_app, IH, length_replicate.
  simpl. rewrite app_nil_r, Nat.add_0_r. unfold slice.
  replace ((k + 1) * d - k * d)%nat with d by lia.
  rewrite take_take_drop. f_equal. lia.
Qed.

Lemma slice_length {A : Type} (l : list A) (d i : nat) :
  length (slice l (i * d) ((i + 1) * d)) = Nat.min d (length l - i * d).
Proof.
  unfold slice. rewrite length_take, length_drop. lia.
Qed.

(** What the grid shows for one set. *)
Lemma kanji_sets_lookup (collection : KanjiCards.KanjiCollection)
    (characterMastery : gmap string CharacterStats) (i : nat) (set : CardSet) :
  KanjiGrid.sets collection characterMastery !! i = Some set ↔
  (i < ceilDiv (length (KanjiCards.data collection)) KanjiCards.KANJI_PER_SET)%nat
  ∧ set = mkCardSet ("Set " +:+ pretty (KanjiCards.prevLength collection + i + 1)%nat)
                    i (i + 1) ("Set " +:+ pretty (i + 1)%nat)
                    (KanjiCards.isSetMastered (Some collection) characterMastery
                                              i (i + 1)).
Proof.
  unfold KanjiGrid.sets. rewrite list_lookup_imap_Some. split.
  - intros ([] & Hi & ->). apply lookup_replicate in Hi as [_ Hi]. done.
  - intros [Hi ->]. exists (). split; [|done]. by apply lookup_replicate.
Qed.

Lemma vocab_sets_lookup (collection : VocabCards.VocabCollection)
    (characterMastery : gmap string CharacterStats) (i : nat) (set : CardSet) :
  VocabGrid.sets collection characterMastery !! i = Some set ↔
  (i < ceilDiv (length (VocabCards.data collection)) VocabCards.WORDS_PER_SET)%nat
  ∧ set = mkCardSet ("Set " +:+ pretty (VocabCards.prevLength collection + i + 1)%nat)
                    i (i + 1) ("Set " +:+ pretty (i + 1)%nat)
                    (VocabCards.isSetMastered (Some collection) characterMastery
                                              i (i + 1)).
Proof.
  unfold VocabGrid.sets. rewrite list_lookup_imap_Some. split.
  - intros ([] & Hi & ->). apply lookup_replicate in Hi as [_ Hi]. done.
  - intros [Hi ->]. exists (). split; [|done]. by apply lookup_replicate.
Qed.

Lemma kanji_sets_length (collection : KanjiCards.KanjiCollection)
    (characterMastery : gmap string CharacterStats) :
  length (KanjiGrid.sets collection characterMastery)
  = ceilDiv (length (KanjiCards.data collection)) KanjiCards.KANJI_PER_SET.
Proof. unfold KanjiGrid.sets. by rewrite length_imap, length_replicate. Qed.

Lemma vocab_sets_length (collection : VocabCards.VocabCollection)
    (characterMastery : gmap string CharacterStats) :
  length (VocabGrid.sets collection characterMastery)
  = ceilDiv (length (VocabCards.data collection)) VocabCards.WORDS_PER_SET.
Proof. unfold VocabGrid.sets. by rewrite length_imap, length_replicate. Qed.

(** Slices of width 10 taken at [0, 1, ..] up to [Math.ceil(length / 10)]
    cover the list once, and only the last can be short. *)
Lemma slices_partition {A : Type} (l : list A) :
  let count := ceilDiv (length l) 10 in
  concat (imap (λ i (_ : ()), slice l (i * 10) ((i + 1) * 10))
               (replicate count ())) = l
  ∧ (∀ i, (i < count)%nat →
          (1 ≤ length (slice l (i * 10) ((i + 1) * 10)) ≤ 10)%nat
          ∧ ((i + 1 < count)%nat →
             length (slice l (i * 10) ((i + 1) * 10)) = 10%nat)).
Proof.
  intros count.
  destruct (ceilDiv_bounds (length l) 10 ltac:(lia)) as [Hlo Hhi].
  fold count in Hlo, Hhi. split.
  - rewrite concat_slices. by apply take_ge.
  - intros i Hi. rewrite slice_length. lia.
Qed.

(** X3. The sets of a loaded collection cut its data into consecutive
    slices: put end to end, the items of the sets are the collection, in
    order and without loss or repetition; every set has between 1 and 10
    items, and every set but the last has exactly 10. *)
Theorem sets_partition_collection
    (characterMastery : gmap string CharacterStats) :
  (∀ collection : KanjiCards.KanjiCollection,
     let sets := KanjiGrid.sets collection characterMastery in
     concat (map (KanjiGrid.setWords collection) sets)
     = KanjiCards.data collection
     ∧ ∀ i set, sets !! i = Some set →
         (1 ≤ length (KanjiGrid.setWords collection set) ≤ 10)%nat
         ∧ ((i + 1 < length sets)%nat →
            length (KanjiGrid.setWords collection set) = 10%nat))
  ∧ (∀ collection : VocabCards.VocabCollection,
       let sets := VocabGrid.sets collection characterMastery in
       concat (map (VocabGrid.setWords collection) sets)
       = VocabCards.data collection
       ∧ ∀ i set, sets !! i = Some set →
           (1 ≤ length (VocabGrid.setWords collection set) ≤ 10)%nat
           ∧ ((i + 1 < length sets)%nat →
              length (VocabGrid.setWords collection set) = 10%nat)).
Proof.
  split; intros collection sets.
  - destruct (slices_partition (KanjiCards.data collection)) as [Hcat Hlen].
    split.
    + unfold sets, KanjiGrid.sets. rewrite fmap_imap. exact Hcat.
    + intros i set Hset. unfold sets in *. rewrite kanji_sets_length.
      apply kanji_sets_lookup in Hset as [Hi ->]. by apply Hlen.
  - destruct (slices_partition (VocabCards.data collection)) as [Hcat Hlen].
    split.
    + unfold sets, VocabGrid.sets. rewrite fmap_imap. exact Hcat.
    + intros i set Hset. unfold sets in *. rewrite vocab_sets_length.
      apply vocab_sets_lookup in Hset as [Hi ->]. by apply Hlen.
Qed.


Lemma imap_replicate_seq {B : Type} (f : nat → B) (start count : nat) :
  imap (λ i (_ : ()), f (start + i)%nat) (replicate count ()) = f <$> seq start count.
Proof.
  induction count as [|count IH]; [done|].
  rewrite replicate_S_end, imap_app, IH, seq_S, fmap_app, length_replicate.
  simpl. by rewrite Nat.add_0_r.
Qed.

(** [counts[level]] is the number of sets of the levels before [level]. *)
Lemma loadCumulativeCounts_spec (getByLevel : Level → nat) :
  let count level := ceilDiv (getByLevel level) 10 in
  loadCumulativeCounts getByLevel n5 = 0%nat
  ∧ loadCumulativeCounts getByLevel n4 = count n5
  ∧ loadCumulativeCounts getByLevel n3 = (count n5 + count n4)%nat
  ∧ loadCumulativeCounts getByLevel n2 = (count n5 + count n4 + count n3)%nat
  ∧ loadCumulativeCounts getByLevel n1
    = (count n5 + count n4 + count n3 + count n2)%nat.
Proof. repeat split. Qed.

Lemma set_name_inj : Inj eq eq (λ i : nat, "Set " +:+ pretty (i + 1)%nat).
Proof.
  intros i j Hij. apply String.app_inj, pretty_nat_inj in Hij. lia.
Qed.

Lemma kanji_set_names (collection : KanjiCards.KanjiCollection)
    (characterMastery : gmap string CharacterStats) :
  name <$> KanjiGrid.sets collection characterMastery
  = (λ i, "Set " +:+ pretty (i + 1)%nat)
      <$> seq (KanjiCards.prevLength collection)
              (ceilDiv (length (KanjiCards.data collection)) 10).
Proof.
  unfold KanjiGrid.sets. rewrite fmap_imap. simpl.
  apply (imap_replicate_seq (λ i, "Set " +:+ pretty (i + 1)%nat)).
Qed.

Lemma vocab_set_names (collection : VocabCards.VocabCollection)
    (characterMastery : gmap string CharacterStats) :
  name <$> VocabGrid.sets collection characterMastery
  = (λ i, "Set " +:+ pretty (i + 1)%nat)
      <$> seq (VocabCards.prevLength collection)
              (ceilDiv (length (VocabCards.data collection)) 10).
Proof.
  unfold VocabGrid.sets. rewrite fmap_imap. simpl.
  apply (imap_replicate_seq (λ i, "Set " +:+ pretty (i + 1)%nat)).
Qed.

(** Five consecutive runs of numbers make one run. *)
Lemma seq_five (a b c d e : nat) :
  seq 0 a ++ seq a b ++ seq (a + b) c ++ seq (a + b + c) d
    ++ seq (a + b + c + d) e
  = seq 0 (a + b + c + d + e).
Proof. by rewrite !seq_app, <- !(assoc_L (++)). Qed.

(** X4. When every collection was stored with the offset that
    [loadCumulativeCounts] computed, the set names of the five levels, read
    in level order, are [Set 1], [Set 2], ... without gap or repetition. *)
Theorem set_names_number_consecutively
    (kanjiCollections : Level → KanjiCards.KanjiCollection)
    (characterMastery : gmap string CharacterStats) :
  (∀ level,
     KanjiCards.prevLength (kanjiCollections level)
     = loadCumulativeCounts
         (λ l, length (KanjiCards.data (kanjiCollections l))) level) →
  let names :=
    concat (map (λ level,
                   map name (KanjiGrid.sets (kanjiCollections level)
                                            characterMastery))
                levelOrder) in
  names = map (λ i, "Set " +:+ pretty (i + 1)%nat) (seq 0 (length names))
  ∧ NoDup names.
Proof.
  intros Hprev names.
  assert (Hnames : ∃ total,
             names = (λ i, "Set " +:+ pretty (i + 1)%nat) <$> seq 0 total).
  { destruct (loadCumulativeCounts_spec
                (λ l, length (KanjiCards.data (kanjiCollections l))))
      as (H5 & H4 & H3 & H2 & H1).
    eexists. unfold names, levelOrder. cbn [map concat].
    change (@map CardSet string) with (@fmap list _ CardSet string).
    rewrite !kanji_set_names, !Hprev, H5, H4, H3, H2, H1, app_nil_r.
    rewrite <- !fmap_app. f_equal. apply seq_five. }
  destruct Hnames as [total Hnames]. split.
  - rewrite Hnames at 2. by rewrite length_fmap, length_seq.
  - rewrite Hnames. apply (NoDup_fmap_2 _ (Inj0 := set_name_inj)), NoDup_seq.
Qed.

Lemma forallb_false {A : Type} (p : A → bool) (l : list A) :
  forallb p l = false ↔ ∃ x, x ∈ l ∧ p x = false.
Proof.
  induction l as [|a l IH]; simpl.
  - split; [done|]. intros (x & Hx & _). by apply elem_of_nil in Hx.
  - rewrite andb_false_iff, IH. split.
    + intros [Ha | (x & Hx & Hp)]; [exists a | exists x]; split; try done.
      * left.
      * by right.
    + intros (x & Hx & Hp). apply elem_of_cons in Hx as [-> | Hx]; [by left|].
      right. by exists x.
Qed.

Lemma length_filter_split (l : list CardSet) :
  (length (filter (λ set, isMastered set = true) l)
   + length (filter (λ set, isMastered set = false) l))%nat = length l.
Proof.
  induction l as [|set l IH]; [done|].
  rewrite !filter_cons. destruct (isMastered set) eqn:E.
  - rewrite decide_True, decide_False by done. simpl. lia.
  - rewrite decide_False, decide_True by done. simpl. lia.
Qed.

(** X5. The "hide mastered" filter of the kanji grid.  With the filter
    off every set is listed.  With the filter on a set is listed exactly
    when one of its kanji is not in the mastered set; and the mastered
    counter, which does not depend on the filter, plus the number of sets
    listed is the number of sets. *)
Theorem hide_mastered_hides_exactly_the_mastered_sets
    (chunkArray : ∀ A : Type, list A → nat → list (list A))
    (collection : KanjiCards.KanjiCollection)
    (characterMastery : gmap string CharacterStats) (numColumns : nat) :
  let view hideMastered :=
    KanjiGrid.gridView chunkArray (Some collection) characterMastery
                       hideMastered numColumns in
  filteredSets (view false) = setsTemp (view false)
  ∧ setsTemp (view true) = setsTemp (view false)
  ∧ masteredCount (view true) = masteredCount (view false)
  ∧ (∀ set,
       set ∈ filteredSets (view true) ↔
       set ∈ setsTemp (view true)
       ∧ ∃ kanji, kanji ∈ KanjiGrid.setWords collection set
                  ∧ (KanjiStore.kanjiChar kanji
                       ∉ KanjiCards.masteredCharacters characterMastery))
  ∧ (masteredCount (view true) + length (filteredSets (view true)))%nat
    = length (setsTemp (view true)).
Proof.
  intros view. simpl.
  split; [done|]. split; [done|]. split; [done|].
  split; [|apply length_filter_split].
  intros set. rewrite list_elem_of_filter. split.
  - intros [Hm Hin]. split; [done|].
    apply list_elem_of_lookup_1 in Hin as [i Hi].
    apply kanji_sets_lookup in Hi as [_ ->]. simpl in Hm.
    apply forallb_false in Hm as (kanji & Hk & Hp).
    exists kanji. split; [done|]. by apply bool_decide_eq_false in Hp.
  - intros [Hin (kanji & Hk & Hp)]. split; [|done].
    apply list_elem_of_lookup_1 in Hin as [i Hi].
    apply kanji_sets_lookup in Hi as [_ ->]. simpl.
    apply forallb_false. exists kanji. split; [done|].
    by apply bool_decide_eq_false.
Qed.

Lemma uniqueInOrder_fold (xs seen : list string) :
  let result :=
    foldl (λ seen x, if bool_decide (x ∈ seen) then seen else seen ++ [x])
          seen xs in
  (NoDup seen → NoDup result)
  ∧ (∀ x, x ∈ result ↔ x ∈ seen ∨ x ∈ xs)
  ∧ (NoDup (seen ++ xs) → result = seen ++ xs).
Proof.
  revert seen. induction xs as [|a xs IH]; intros seen; simpl.
  - repeat split; try done.
    + by left.
    + intros [?|Hx]; [done|]. by apply elem_of_nil in Hx.
    + by rewrite app_nil_r.
  - destruct (IH (if bool_decide (a ∈ seen) then seen else seen ++ [a]))
      as (Hnd & Hin & Hid).
    case_bool_decide as Ha; (split; [|split]).
    + done.
    + intros x. rewrite Hin, elem_of_cons. split; [tauto|].
      intros [?|[->|?]]; tauto.
    + intros Hdup. apply NoDup_app in Hdup as (_ & Hdisj & _).
      exfalso. apply (Hdisj a Ha). left.
    + intros Hseen. apply Hnd. apply NoDup_app. repeat split; try done.
      * intros x Hx Hxa. apply list_elem_of_singleton in Hxa as ->. done.
      * apply NoDup_singleton.
    + intros x. rewrite Hin, elem_of_app, list_elem_of_singleton, elem_of_cons.
      tauto.
    + intros Hdup. rewrite Hid; rewrite <- (assoc_L (++)); done.
Qed.

(** X6. Clicking a set button toggles the set's name in the selection and
    touches no other name; a selection without repetitions stays so, and
    selecting a set and deselecting it again gives back the selection. *)
Theorem clickSet_toggles_one_name (selectedSets : list string) (set : CardSet) :
  let after := clickSet selectedSets set in
  (name set ∈ after ↔ name set ∉ selectedSets)
  ∧ (∀ other, other ≠ name set → other ∈ after ↔ other ∈ selectedSets)
  ∧ (NoDup selectedSets → NoDup after)
  ∧ (NoDup selectedSets → (name set ∉ selectedSets) →
     clickSet after set = selectedSets).
Proof.
  intros after. unfold after, clickSet.
  destruct (uniqueInOrder_fold (selectedSets ++ [name set]) [])
    as (Hnd & Hin & Hid).
  fold (uniqueInOrder (selectedSets ++ [name set])) in Hnd, Hin, Hid.
  simpl in Hid.
  case_bool_decide as Hsel; (split; [|split; [|split]]).
  - rewrite list_elem_of_filter. split; [intros [? _]; done | done].
  - intros other Hne. rewrite list_elem_of_filter. tauto.
  - intros Hdup. by apply NoDup_filter.
  - done.
  - rewrite Hin, elem_of_app, list_elem_of_singleton.
    split; [done|]. intros _. right. by right.
  - intros other Hne. rewrite Hin, elem_of_app, list_elem_of_singleton.
    split; [|tauto]. intros [Hx|[?|?]]; [by apply elem_of_nil in Hx|done|done].
  - intros _. apply Hnd, NoDup_nil_2.
  - intros Hdup _. rewrite Hid.
    + rewrite bool_decide_eq_true_2
        by (rewrite elem_of_app, list_elem_of_singleton; by right).
      rewrite filter_app, filter_cons, decide_False, filter_nil, app_nil_r
        by (intros Hne; by apply Hne).
      clear -Hsel. induction selectedSets as [|a l IH]; [done|].
      rewrite filter_cons, decide_True.
      * f_equal. apply IH. intros Hin. apply Hsel. by right.
      * intros ->. apply Hsel. left.
    + simpl. apply NoDup_app. repeat split; try done.
      * intros x Hx Hxa. by apply list_elem_of_singleton in Hxa as ->.
      * apply NoDup_singleton.
Qed.

(** X7. Clicking a row header toggles that row in the list of collapsed
    rows and no other; collapsing a row and expanding it again gives the
    list back. *)
Theorem toggleCollapsedRow_toggles_one_row (prev : list nat) (rowIndex : nat) :
  let after := toggleCollapsedRow prev rowIndex in
  (rowIndex ∈ after ↔ rowIndex ∉ prev)
  ∧ (∀ other, other ≠ rowIndex → other ∈ after ↔ other ∈ prev)
  ∧ ((rowIndex ∉ prev) → toggleCollapsedRow after rowIndex = prev).
Proof.
  intros after. unfold after, toggleCollapsedRow.
  case_bool_decide as Hin; (split; [|split]).
  - rewrite list_elem_of_filter. split; [intros [? _]; done | done].
  - intros other Hne. rewrite list_elem_of_filter. tauto.
  - done.
  - rewrite elem_of_app, list_elem_of_singleton. split; [done|]. by right.
  - intros other Hne. rewrite elem_of_app, list_elem_of_singleton. tauto.
  - intros _.
    rewrite bool_decide_eq_true_2
      by (rewrite elem_of_app, list_elem_of_singleton; by right).
    rewrite filter_app, filter_cons, decide_False, filter_nil, app_nil_r
      by (intros Hne; by apply Hne).
    clear -Hin. induction prev as [|a l IH]; [done|].
    rewrite filter_cons, decide_True.
    + f_equal. apply IH. intros Hl. apply Hin. by right.
    + intros ->. apply Hin. left.
Qed.

(** X8. One completed load.  From a state with no load in progress, a call
    of [loadMoreRows] followed by its timer shows [ROWS_PER_LOAD] more rows,
    or all rows when fewer are left; when all rows are shown it changes
    nothing. *)
Theorem loadMoreRows_reveals_next_rows {A : Type} (allRows : list A) (p : Paging) :
  isLoadingMore p = false →
  timers p = [] →
  let after := fireTimer (loadMoreRows (length allRows) p) in
  length (visibleRows allRows after)
  = Nat.min (length (visibleRows allRows p) + ROWS_PER_LOAD) (length allRows)
  ∧ isLoadingMore after = false
  ∧ (hasMoreRows p (length allRows) = false → after = p).
Proof.
  intros Hload Htimers after. unfold after, loadMoreRows, hasMoreRows, visibleRows.
  rewrite Hload. simpl.
  destruct (Nat.ltb_spec (visibleRowCount p) (length allRows)) as [Hlt | Hge]; simpl.
  - unfold fireTimer. rewrite Htimers. simpl.
    rewrite !length_take. split; [lia|]. by split.
  - unfold fireTimer. rewrite Htimers.
    rewrite !length_take. split; [unfold ROWS_PER_LOAD; lia|]. by split.
Qed.

Lemma paging_invariant (steps : list PagingStep) :
  let p := foldl pagingStep initialPaging steps in
  (isLoadingMore p = true ↔ timers p ≠ [])
  ∧ (length (timers p) ≤ 1)%nat
  ∧ (INITIAL_ROWS ≤ visibleRowCount p)%nat
  ∧ (∀ totalRows, totalRows ∈ timers p → (visibleRowCount p < totalRows)%nat).
Proof.
  induction steps as [|step steps IH] using rev_ind; simpl.
  - split; [done|]. split; [lia|]. split; [done|].
    intros t Ht. by apply elem_of_nil in Ht.
  - rewrite foldl_app. simpl.
    set (p := foldl pagingStep initialPaging steps) in *.
    destruct IH as (Hflag & Hlen & Hlow & Hcap).
    destruct step as [totalRows| |]; simpl.
    + unfold loadMoreRows, hasMoreRows.
      destruct (isLoadingMore p) eqn:Hl; simpl; [by rewrite Hl|].
      destruct (Nat.ltb_spec (visibleRowCount p) totalRows) as [Hlt|Hge];
        simpl; [|by rewrite Hl].
      assert (timers p = []) as ->.
      { destruct (timers p); [done|]. by destruct Hflag as [_ Hflag]; discriminate Hflag. }
      simpl. split; [done|]. split; [lia|]. split; [done|].
      intros t Ht. by apply list_elem_of_singleton in Ht as ->.
    + unfold fireTimer. destruct (timers p) as [|t rest] eqn:Ht; [by rewrite Ht|].
      simpl in *. destruct rest; [|simpl in Hlen; lia]. simpl.
      split; [done|]. split; [lia|]. split.
      * pose proof (Hcap t ltac:(left)). unfold INITIAL_ROWS, ROWS_PER_LOAD in *. lia.
      * intros t' Ht'. by apply elem_of_nil in Ht'.
    + unfold resetVisibleRows. simpl.
      split; [done|]. split; [done|]. split; [done|].
      intros t Ht. pose proof (Hcap t Ht). lia.
Qed.

(** X9. In every state the paging can reach, [isLoadingMore] is true
    exactly while a timer is pending, at most one timer is pending, and
    that timer will show more rows than are visible now; at least
    [INITIAL_ROWS] rows are asked for at all times. *)
Theorem loading_flag_tracks_the_pending_timer (steps : list PagingStep) :
  let p := foldl pagingStep initialPaging steps in
  (isLoadingMore p = true ↔ timers p ≠ [])
  ∧ (length (timers p) ≤ 1)%nat
  ∧ (INITIAL_ROWS ≤ visibleRowCount p)%nat
  ∧ (isLoadingMore p = true →
     (visibleRowCount p < visibleRowCount (fireTimer p))%nat
     ∧ isLoadingMore (fireTimer p) = false).
Proof.
  intros p. destruct (paging_invariant steps) as (Hflag & Hlen & Hlow & Hcap).
  fold p in Hflag, Hlen, Hlow, Hcap.
  split; [done|]. split; [done|]. split; [done|]. intros Hl. split; revert Hl.
  - intros Hl. apply Hflag in Hl. unfold fireTimer.
    destruct (timers p) as [|t rest]; [done|]. simpl.
    pose proof (Hcap t ltac:(left)). unfold ROWS_PER_LOAD. lia.
  - intros Hl. apply Hflag in Hl. unfold fireTimer.
    by destruct (timers p) as [|t rest].
Qed.

End GridFacts.

(** ** Properties of a round of word building *)

Section RoundFacts.
Context `{!AdaptiveSelector, !RandomEngine, !SmartReverseMode, !HostStrings}.
Import Game GameSpec Round RoundSpec.
Local Open Scope eff_scope.

Lemma everyFrom_spec {A : Type} (p : A → nat → bool) (i : nat) (xs : list A) :
  everyFrom p i xs = true ↔ ∀ j x, xs !! j = Some x → p x (i + j)%nat = true.
Proof.
  revert i. induction xs as [|a xs IH]; intros i; simpl.
  - split; [|done]. intros _ j x Hj. by rewrite lookup_nil in Hj.
  - rewrite andb_true_iff, IH. split.
    + intros [Ha Hxs] [|j] x Hj; simpl in Hj.
      * injection Hj as <-. by rewrite Nat.add_0_r.
      * replace (i + S j)%nat with (S i + j)%nat by lia. by apply Hxs.
    + intros Hall. split.
      * specialize (Hall 0%nat a eq_refl). by rewrite Nat.add_0_r in Hall.
      * intros j x Hj. replace (S i + j)%nat with (i + S j)%nat by lia.
        by apply Hall.
Qed.

Lemma kana_isCorrect_iff (st : KanaWordBuilding.GameState) :
  KanaWordBuilding.isCorrect st = true ↔
  KanaWordBuilding.placedTiles st
  = KanaWordBuilding.answerChars (KanaWordBuilding.wordData st).
Proof.
  unfold KanaWordBuilding.isCorrect.
  rewrite andb_true_iff, Nat.eqb_eq, everyFrom_spec. split.
  - intros [Hlen Hall]. apply list_eq_same_length with
      (length (KanaWordBuilding.placedTiles st)); [done | done |].
    intros j x y Hj Hx Hy. apply Hall in Hx.
    apply bool_decide_eq_true in Hx. simpl in Hx. by rewrite Hy in Hx.
  - intros ->. split; [done|]. intros j x Hj.
    apply bool_decide_eq_true. simpl. by rewrite Hj.
Qed.

Lemma kanji_isCorrect_iff (st : KanjiWordBuilding.GameState) :
  KanjiWordBuilding.isCorrect st = true ↔
  KanjiWordBuilding.placedTiles st
  = [KanjiWordBuilding.correctAnswer (KanjiWordBuilding.questionData st)].
Proof.
  unfold KanjiWordBuilding.isCorrect.
  rewrite andb_true_iff, Nat.eqb_eq, bool_decide_eq_true.
  destruct (KanjiWordBuilding.placedTiles st) as [|t [|t' ts]]; simpl.
  - split; [intros [? _]; done | done].
  - split; [by intros [_ ->] | by intros [= ->]].
  - split; [intros [? _]; done | done].
Qed.

(** X10. What counts as a correct answer.  The kana game accepts the
    placed tiles exactly when they are the answer tiles, one by one and in
    order; the kanji game exactly when the single placed tile is the
    correct answer. *)
Theorem isCorrect_iff_placed_tiles_are_the_answer :
  (∀ st : KanaWordBuilding.GameState,
     KanaWordBuilding.isCorrect st = true ↔
     KanaWordBuilding.placedTiles st
     = KanaWordBuilding.answerChars (KanaWordBuilding.wordData st))
  ∧ (∀ st : KanjiWordBuilding.GameState,
       KanjiWordBuilding.isCorrect st = true ↔
       KanjiWordBuilding.placedTiles st
       = [KanjiWordBuilding.correctAnswer (KanjiWordBuilding.questionData st)]).
Proof. split; [apply kana_isCorrect_iff | apply kanji_isCorrect_iff]. Qed.

(** The component state a handler returns when every continuation returns
    the same one. *)
Lemma result_bind {A B : Type} (m : Eff A) (k : A → Eff B) (b : B) (w : World) :
  (∀ a w', (k a w').1 = b) → (bind m k w).1 = b.
Proof. intros Hk. rewrite run_bind. apply Hk. Qed.

Ltac result :=
  repeat first [ reflexivity | apply result_bind; intros ? ? ].

Lemma kana_handleCheck_result (externalIsReverse : option bool)
    (externalOnWrong : bool) (st : KanaWordBuilding.GameState) (w : World) :
  (KanaWordBuilding.handleCheck externalIsReverse externalOnWrong st w).1
  = match KanaWordBuilding.placedTiles st with
    | [] => st
    | _ :: _ =>
        if KanaWordBuilding.isCorrect st
        then KanaWordBuilding.mkGameState (KanaWordBuilding.wordData st)
               (KanaWordBuilding.placedTiles st) true true BarCorrect
        else KanaWordBuilding.mkGameState (KanaWordBuilding.wordData st)
               (KanaWordBuilding.placedTiles st) true
               (KanaWordBuilding.isCelebrating st) BarWrong
    end.
Proof.
  unfold KanaWordBuilding.handleCheck.
  destruct (KanaWordBuilding.placedTiles st); [done|].
  destruct (KanaWordBuilding.isCorrect st); result.
Qed.

Lemma kanji_handleCheck_result (externalIsReverse : option bool)
    (externalOnWrong : bool) (selectedKanjiCollection : string)
    (selectedKanjiObjs : list KanjiStore.IKanjiObj)
    (st : KanjiWordBuilding.GameState) (w : World) :
  (KanjiWordBuilding.handleCheck externalIsReverse externalOnWrong
     selectedKanjiCollection selectedKanjiObjs st w).1
  = match KanjiWordBuilding.placedTiles st with
    | [] => st
    | _ :: _ =>
        if KanjiWordBuilding.isCorrect st
        then KanjiWordBuilding.mkGameState (KanjiWordBuilding.questionData st)
               (KanjiWordBuilding.placedTiles st) true true BarCorrect true
               (KanjiWordBuilding.kanjiObjMap selectedKanjiObjs
                  !! KanjiWordBuilding.kanjiChar
                       (KanjiWordBuilding.questionData st))
        else KanjiWordBuilding.mkGameState (KanjiWordBuilding.questionData st)
               (KanjiWordBuilding.placedTiles st) true
               (KanjiWordBuilding.isCelebrating st) BarWrong
               (KanjiWordBuilding.displayAnswerSummary st)
               (KanjiWordBuilding.currentKanjiObjForSummary st)
    end.
Proof.
  unfold KanjiWordBuilding.handleCheck.
  destruct (KanjiWordBuilding.placedTiles st); [done|].
  destruct (KanjiWordBuilding.isCorrect st); result.
Qed.

(** A tile toggled in a row without repetitions leaves a row without
    repetitions. *)
Lemma toggle_NoDup (char : option string) (placed : list (option string)) :
  NoDup placed →
  NoDup (if bool_decide (char ∈ placed)
         then filter (λ c, c ≠ char) placed
         else placed ++ [char]).
Proof.
  intros Hnd. case_bool_decide as Hin; [by apply NoDup_filter|].
  apply NoDup_app. split; [done|]. split; [|apply NoDup_singleton].
  intros x Hx Hx'. by apply list_elem_of_singleton in Hx' as ->.
Qed.


(** The state each handler returns. *)
Lemma kana_handleTileClick_result (speedStopwatchStart : Eff unit)
    (char : option string) (st : KanaWordBuilding.GameState) (w : World) :
  (KanaRound.handleTileClick speedStopwatchStart char st w).1
  = if KanaWordBuilding.isChecking st
       && negb (bool_decide (KanaWordBuilding.bottomBarState st = BarWrong))
    then st
    else
      let wrong := bool_decide (KanaWordBuilding.bottomBarState st = BarWrong) in
      KanaWordBuilding.mkGameState (KanaWordBuilding.wordData st)
        (if bool_decide (char ∈ KanaWordBuilding.placedTiles st)
         then filter (λ c, c ≠ char) (KanaWordBuilding.placedTiles st)
         else KanaWordBuilding.placedTiles st ++ [char])
        (if wrong then false else KanaWordBuilding.isChecking st)
        (KanaWordBuilding.isCelebrating st)
        (if wrong then BarCheck else KanaWordBuilding.bottomBarState st).
Proof.
  unfold KanaRound.handleTileClick.
  destruct (_ && _); [done|]. cbv zeta.
  destruct (bool_decide (KanaWordBuilding.bottomBarState st = BarWrong));
    rewrite !run_bind; reflexivity.
Qed.

Lemma kana_resetGame_result (externalIsReverse : option bool) (wordLength : Z)
    (tables : KanaRound.KanaTables) (speedStopwatchStart : Eff unit) (w : World) :
  ∃ wordData,
    (KanaRound.resetGame externalIsReverse wordLength tables
       speedStopwatchStart w).1
    = KanaWordBuilding.mkGameState wordData [] false false BarCheck.
Proof.
  unfold KanaRound.resetGame. rewrite !run_bind. eexists. reflexivity.
Qed.

Ltac by_cases :=
  simpl in *; intuition (try discriminate; try congruence).

Lemma kana_act_consistent (externalIsReverse : option bool)
    (externalOnWrong : bool)
    (externalOnCorrect : option (list string → Eff unit))
    (wordLength : Z) (tables : KanaRound.KanaTables)
    (speedStopwatchStart : Eff unit)
    (action : KanaRound.UserAction) (st : KanaWordBuilding.GameState)
    (w : World) :
  kanaConsistent st →
  kanaConsistent
    (KanaRound.act externalIsReverse externalOnWrong externalOnCorrect
       wordLength tables speedStopwatchStart action st w).1.
Proof.
  assert (Hfresh : ∀ wordData,
            kanaConsistent
              (KanaWordBuilding.mkGameState wordData [] false false BarCheck)).
  { intros wordData. split; [apply NoDup_nil_2|]. by_cases. }
  intros Hst. destruct action as [char| | |]; simpl.
  - rewrite kana_handleTileClick_result.
    pose proof (toggle_NoDup char (KanaWordBuilding.placedTiles st)) as Htoggle.
    destruct st as [wd placed [] cel []]; destruct Hst as (Hnd & Hrest);
      simpl in *; try done; (split; [by apply Htoggle|]); by_cases.
  - unfold KanaRound.onAction.
    destruct (KanaWordBuilding.bottomBarState st) eqn:Hb.
    + rewrite kana_handleCheck_result.
      pose proof (kana_isCorrect_iff st) as Hiff.
      destruct (KanaWordBuilding.isCorrect st);
        destruct st as [wd [|t ts] chk cel bar];
        destruct Hst as (Hnd & Hrest); simpl in *; try done;
        (split; [done|]); subst bar; destruct cel; by_cases.
    + unfold KanaRound.handleContinue. rewrite !run_bind.
      destruct (kana_resetGame_result externalIsReverse wordLength tables
                  speedStopwatchStart
                  (callOptional externalOnCorrect
                     (KanaWordBuilding.wordChars (KanaWordBuilding.wordData st))
                     (emit PlayClick w).2).2) as [wordData ->].
      apply Hfresh.
    + unfold KanaRound.handleTryAgain. rewrite !run_bind. cbn [fst ret].
      destruct st as [wd placed chk cel bar]; destruct Hst as (Hnd & Hrest).
      split; [apply NoDup_nil_2|]. simpl in *. subst bar. destruct cel; by_cases.
  - unfold KanaRound.handleClearPlaced.
    destruct (KanaWordBuilding.isChecking st) eqn:Hc; [done|].
    rewrite !run_bind. cbn [fst ret].
    destruct st as [wd placed chk cel []]; destruct Hst as (Hnd & Hrest);
      (split; [apply NoDup_nil_2|]); simpl in *; subst chk; by_cases.
  - destruct (kana_resetGame_result externalIsReverse wordLength tables
                speedStopwatchStart w) as [wordData ->].
    apply Hfresh.
Qed.

Lemma kana_play_consistent (externalIsReverse : option bool)
    (externalOnWrong : bool)
    (externalOnCorrect : option (list string → Eff unit))
    (wordLength : Z) (tables : KanaRound.KanaTables)
    (speedStopwatchStart : Eff unit) (actions : list KanaRound.UserAction) :
  ∀ st w,
    kanaConsistent st →
    kanaConsistent
      (KanaRound.play externalIsReverse externalOnWrong externalOnCorrect
         wordLength tables speedStopwatchStart actions st w).1.
Proof.
  induction actions as [|action actions IH]; intros st w Hst; simpl; [done|].
  rewrite run_bind. by apply IH, kana_act_consistent.
Qed.

(** X11. The slots of the kana game stay consistent.  From the state the
    component mounts in, whatever tiles are clicked, whenever the bar button
    is pressed, the row cleared or the game reset, and whatever the
    callbacks do: the answer row never holds a tile twice; [isChecking] is
    set exactly while the bar shows a verdict and [isCelebrating] exactly
    while it shows "correct"; the bar shows "correct" only over a row that
    is the answer, and "wrong" only over a non-empty row that is not.  So
    an answer in which a tile repeats is never accepted. *)
Theorem kana_round_stays_consistent (externalIsReverse : option bool)
    (externalOnWrong : bool)
    (externalOnCorrect : option (list string → Eff unit))
    (wordLength : Z) (tables : KanaRound.KanaTables)
    (speedStopwatchStart : Eff unit) (actions : list KanaRound.UserAction)
    (w : World) :
  let session :=
    let* st := KanaRound.mount externalIsReverse wordLength tables in
    KanaRound.play externalIsReverse externalOnWrong externalOnCorrect
      wordLength tables speedStopwatchStart actions st in
  let st := (session w).1 in
  kanaConsistent st
  ∧ (KanaWordBuilding.bottomBarState st = BarCorrect →
     NoDup (KanaWordBuilding.answerChars (KanaWordBuilding.wordData st))).
Proof.
  intros session st.
  assert (Hst : kanaConsistent st).
  { unfold st, session. rewrite run_bind. apply kana_play_consistent.
    unfold KanaRound.mount. rewrite !run_bind. cbn [fst ret].
    split; [apply NoDup_nil_2|]. by_cases. }
  split; [exact Hst|]. intros Hbar.
  destruct Hst as (Hnd & _ & _ & Hright & _). by rewrite <- (Hright Hbar).
Qed.

Lemma kanji_handleTileClick_result (speedStopwatchStart : Eff unit)
    (char : option string) (st : KanjiWordBuilding.GameState) (w : World) :
  (KanjiRound.handleTileClick speedStopwatchStart char st w).1
  = if KanjiWordBuilding.isChecking st
       && negb (bool_decide (KanjiWordBuilding.bottomBarState st = BarWrong))
    then st
    else
      let wrong := bool_decide (KanjiWordBuilding.bottomBarState st = BarWrong) in
      KanjiWordBuilding.mkGameState (KanjiWordBuilding.questionData st)
        (if bool_decide (char ∈ KanjiWordBuilding.placedTiles st)
         then filter (λ c, c ≠ char) (KanjiWordBuilding.placedTiles st)
         else KanjiWordBuilding.placedTiles st ++ [char])
        (if wrong then false else KanjiWordBuilding.isChecking st)
        (KanjiWordBuilding.isCelebrating st)
        (if wrong then BarCheck else KanjiWordBuilding.bottomBarState st)
        (KanjiWordBuilding.displayAnswerSummary st)
        (KanjiWordBuilding.currentKanjiObjForSummary st).
Proof.
  unfold KanjiRound.handleTileClick.
  destruct (_ && _); [done|]. cbv zeta.
  destruct (bool_decide (KanjiWordBuilding.bottomBarState st = BarWrong));
    rewrite !run_bind; reflexivity.
Qed.

Lemma kanji_resetGame_result (externalIsReverse : option bool)
    (externalDistractorCount : Z)
    (selectedKanjiObjs : list KanjiStore.IKanjiObj)
    (speedStopwatchStart : Eff unit) (st : KanjiWordBuilding.GameState)
    (w : World) :
  ∃ questionData,
    (KanjiRound.resetGame externalIsReverse externalDistractorCount
       selectedKanjiObjs speedStopwatchStart st w).1
    = KanjiWordBuilding.mkGameState questionData [] false false BarCheck false
        (KanjiWordBuilding.currentKanjiObjForSummary st).
Proof.
  unfold KanjiRound.resetGame. rewrite !run_bind. eexists. reflexivity.
Qed.

Lemma kanji_act_consistent (externalIsReverse : option bool)
    (externalOnWrong : bool)
    (externalOnCorrect : option (list string → Eff unit))
    (externalDistractorCount : Z) (selectedKanjiCollection : string)
    (selectedKanjiObjs : list KanjiStore.IKanjiObj)
    (speedStopwatchStart : Eff unit)
    (action : KanjiRound.UserAction) (st : KanjiWordBuilding.GameState)
    (w : World) :
  kanjiConsistent st →
  kanjiConsistent
    (KanjiRound.act externalIsReverse externalOnWrong externalOnCorrect
       externalDistractorCount selectedKanjiCollection selectedKanjiObjs
       speedStopwatchStart action st w).1.
Proof.
  assert (Hfresh : ∀ questionData summary,
            kanjiConsistent
              (KanjiWordBuilding.mkGameState questionData [] false false
                 BarCheck false summary)).
  { intros questionData summary. split; [apply NoDup_nil_2|]. by_cases. }
  intros Hst. destruct action as [char| |]; simpl.
  - rewrite kanji_handleTileClick_result.
    pose proof (toggle_NoDup char (KanjiWordBuilding.placedTiles st)) as Htoggle.
    destruct st as [qd placed [] cel [] summary obj];
      destruct Hst as (Hnd & Hrest);
      simpl in *; try done; (split; [by apply Htoggle|]); by_cases.
  - unfold KanjiRound.onAction.
    destruct (KanjiWordBuilding.bottomBarState st) eqn:Hb.
    + rewrite kanji_handleCheck_result.
      pose proof (kanji_isCorrect_iff st) as Hiff.
      destruct (KanjiWordBuilding.isCorrect st);
        destruct st as [qd [|t ts] chk cel bar summary obj];
        destruct Hst as (Hnd & Hrest); simpl in *; try done;
        (split; [done|]); subst bar; destruct cel, summary; by_cases.
    + unfold KanjiRound.handleContinue. rewrite !run_bind.
      destruct (kanji_resetGame_result externalIsReverse
                  externalDistractorCount selectedKanjiObjs
                  speedStopwatchStart st
                  (callOptional externalOnCorrect
                     [KanjiWordBuilding.kanjiChar
                        (KanjiWordBuilding.questionData st)]
                     (emit PlayClick w).2).2) as [questionData ->].
      apply Hfresh.
    + unfold KanjiRound.handleTryAgain. rewrite !run_bind. cbn [fst ret].
      destruct st as [qd placed chk cel bar summary obj];
        destruct Hst as (Hnd & Hrest).
      split; [apply NoDup_nil_2|]. simpl in *. subst bar.
      destruct cel, summary; by_cases.
  - destruct (kanji_resetGame_result externalIsReverse externalDistractorCount
                selectedKanjiObjs speedStopwatchStart st w)
      as [questionData ->].
    apply Hfresh.
Qed.

Lemma kanji_play_consistent (externalIsReverse : option bool)
    (externalOnWrong : bool)
    (externalOnCorrect : option (list string → Eff unit))
    (externalDistractorCount : Z) (selectedKanjiCollection : string)
    (selectedKanjiObjs : list KanjiStore.IKanjiObj)
    (speedStopwatchStart : Eff unit) (actions : list KanjiRound.UserAction) :
  ∀ st w,
    kanjiConsistent st →
    kanjiConsistent
      (KanjiRound.play externalIsReverse externalOnWrong externalOnCorrect
         externalDistractorCount selectedKanjiCollection selectedKanjiObjs
         speedStopwatchStart actions st w).1.
Proof.
  induction actions as [|action actions IH]; intros st w Hst; simpl; [done|].
  rewrite run_bind. by apply IH, kanji_act_consistent.
Qed.

(** X12. The slots of the kanji game stay consistent in the same way, from
    the state the component mounts in and through any sequence of tile
    clicks, presses of the bar button and resets: no tile twice in the
    answer row; [isChecking] set exactly while the bar shows a verdict;
    [isCelebrating] and the answer summary on exactly while the verdict is
    "correct", which is shown only over the single correct tile; "wrong"
    only over a non-empty row that is not the correct tile alone. *)
Theorem kanji_round_stays_consistent (externalIsReverse : option bool)
    (externalOnWrong : bool)
    (externalOnCorrect : option (list string → Eff unit))
    (externalDistractorCount : Z) (selectedKanjiCollection : string)
    (selectedKanjiObjs : list KanjiStore.IKanjiObj)
    (speedStopwatchStart : Eff unit) (actions : list KanjiRound.UserAction)
    (w : World) :
  let session :=
    let* st := KanjiRound.mount externalIsReverse externalDistractorCount
                 selectedKanjiObjs in
    KanjiRound.play externalIsReverse externalOnWrong externalOnCorrect
      externalDistractorCount selectedKanjiCollection selectedKanjiObjs
      speedStopwatchStart actions st in
  kanjiConsistent (session w).1.
Proof.
  intros session. unfold session. rewrite run_bind.
  apply kanji_play_consistent.
  unfold KanjiRound.mount. rewrite !run_bind. cbn [fst ret].
  split; [apply NoDup_nil_2|]. by_cases.
Qed.

(** *** What a check does to the selector *)

Lemma upd_ext {A : Type} (f g : SelectorState → SelectorState) (m : Eff A) :
  (∀ s, f s = g s) → updatesSelector f m → updatesSelector g m.
Proof. intros Hfg Hm w. rewrite <- Hfg. apply Hm. Qed.

Lemma upd_ret {A : Type} (a : A) : updatesSelector (λ s, s) (ret a).
Proof. done. Qed.

Lemma upd_emit (e : Event) : updatesSelector (λ s, s) (emit e).
Proof. done. Qed.

Lemma upd_readScore : updatesSelector (λ s, s) readScore.
Proof. done. Qed.

Lemma upd_setScore (v : Z) : updatesSelector (λ s, s) (setScore v).
Proof. done. Qed.

Lemma upd_callDecide : updatesSelector (λ s, s) callDecideNextMode.
Proof. done. Qed.

Lemma upd_callRecordWrong : updatesSelector (λ s, s) callRecordWrongAnswer.
Proof. done. Qed.

Lemma upd_callUpdate (id : string) (wasCorrect : bool) :
  updatesSelector (updateCharacterWeight id wasCorrect)
                  (callUpdateCharacterWeight id wasCorrect).
Proof. done. Qed.

Lemma upd_bind {A B : Type} (f g : SelectorState → SelectorState)
    (m : Eff A) (k : A → Eff B) :
  updatesSelector f m → (∀ a, updatesSelector g (k a)) →
  updatesSelector (λ s, g (f s)) (bind m k).
Proof.
  intros Hm Hk w. rewrite run_bind.
  destruct (Hk (m w).1 (m w).2) as [Hs Hr], (Hm w) as [Hs' Hr'].
  split; congruence.
Qed.

Lemma upd_when (c : bool) (m : Eff unit) :
  updatesSelector (λ s, s) m → updatesSelector (λ s, s) (when c m).
Proof. intros Hm. destruct c; [exact Hm | apply upd_ret]. Qed.

Lemma upd_forEach {A : Type} (f : A → SelectorState → SelectorState)
    (xs : list A) (body : A → Eff unit) :
  (∀ x, updatesSelector (f x) (body x)) →
  updatesSelector (λ s, foldl (λ s x, f x s) s xs) (forEach xs body).
Proof.
  intros Hbody. induction xs as [|x xs IH]; simpl; [apply upd_ret|].
  apply (upd_bind (f x) (λ s, foldl (λ s x, f x s) s xs)); [apply Hbody|].
  intros _. exact IH.
Qed.

Ltac upd :=
  repeat first
    [ apply upd_ret
    | apply upd_emit
    | apply upd_readScore
    | apply upd_setScore
    | apply upd_callDecide
    | apply upd_callRecordWrong
    | apply upd_callUpdate
    | apply upd_when
    | eapply upd_bind; [|intros ?] ].

Lemma upd_correct_loop (wordChars : list string) :
  updatesSelector
    (λ s, foldl (λ s char, updateCharacterWeight char true s) s wordChars)
    (forEach wordChars (λ char,
       emit (AddCharacterToHistory char) ;;
       emit (IncrementCharacterScore char FieldCorrect) ;;
       callUpdateCharacterWeight char true ;;
       if KanaWordBuilding.isHiragana char then emit IncrementHiraganaCorrect
       else when (KanaWordBuilding.isKatakana char)
                 (emit IncrementKatakanaCorrect))).
Proof.
  apply (upd_forEach (λ char, updateCharacterWeight char true)). intros char.
  eapply upd_ext; [|upd; destruct (KanaWordBuilding.isHiragana char); upd].
  done.
Qed.

Lemma upd_wrong_loop (wordChars : list string) :
  updatesSelector
    (λ s, foldl (λ s char, updateCharacterWeight char false s) s wordChars)
    (forEach wordChars (λ char,
       emit (IncrementCharacterScore char FieldWrong) ;;
       callUpdateCharacterWeight char false)).
Proof.
  apply (upd_forEach (λ char, updateCharacterWeight char false)). intros char.
  eapply upd_ext; [|upd]. done.
Qed.

Lemma kana_handleCheck_updates (externalIsReverse : option bool)
    (externalOnWrong : bool) (st : KanaWordBuilding.GameState) :
  KanaWordBuilding.placedTiles st ≠ [] →
  updatesSelector
    (λ s, foldl (λ s char,
                   updateCharacterWeight char (KanaWordBuilding.isCorrect st) s)
                s (KanaWordBuilding.wordChars (KanaWordBuilding.wordData st)))
    (KanaWordBuilding.handleCheck externalIsReverse externalOnWrong st).
Proof.
  intros Hne. unfold KanaWordBuilding.handleCheck.
  destruct (KanaWordBuilding.placedTiles st); [done|].
  destruct (KanaWordBuilding.isCorrect st);
    (eapply upd_ext;
     [|upd; first [apply upd_correct_loop | apply upd_wrong_loop]]); done.
Qed.

Lemma kanji_handleCheck_updates (externalIsReverse : option bool)
    (externalOnWrong : bool) (selectedKanjiCollection : string)
    (selectedKanjiObjs : list KanjiStore.IKanjiObj)
    (st : KanjiWordBuilding.GameState) :
  KanjiWordBuilding.placedTiles st ≠ [] →
  updatesSelector
    (updateCharacterWeight
       (KanjiWordBuilding.kanjiChar (KanjiWordBuilding.questionData st))
       (KanjiWordBuilding.isCorrect st))
    (KanjiWordBuilding.handleCheck externalIsReverse externalOnWrong
       selectedKanjiCollection selectedKanjiObjs st).
Proof.
  intros Hne. unfold KanjiWordBuilding.handleCheck.
  destruct (KanjiWordBuilding.placedTiles st); [done|]. cbv zeta.
  destruct (KanjiWordBuilding.isCorrect st);
    (eapply upd_ext; [|upd]); done.
Qed.

(** X13. What a check teaches the selector.  The kana [handleCheck], when
    the answer row is not empty, reports every character of the word to
    [updateCharacterWeight] once, in word order, all with the verdict on the
    whole row; the kanji [handleCheck] reports the kanji of the question
    once.  With an empty row the selector is left as it was, and the random
    engine is never used. *)
Theorem handleCheck_reports_the_verdict_for_every_character
    (externalIsReverse : option bool) (externalOnWrong : bool) (w : World) :
  (∀ st : KanaWordBuilding.GameState,
     let w' := (KanaWordBuilding.handleCheck externalIsReverse
                  externalOnWrong st w).2 in
     rng w' = rng w
     ∧ selector w'
       = if bool_decide (KanaWordBuilding.placedTiles st ≠ [])
         then foldl (λ s char,
                       updateCharacterWeight char
                         (KanaWordBuilding.isCorrect st) s)
                    (selector w)
                    (KanaWordBuilding.wordChars (KanaWordBuilding.wordData st))
         else selector w)
  ∧ (∀ selectedKanjiCollection selectedKanjiObjs
       (st : KanjiWordBuilding.GameState),
       let w' := (KanjiWordBuilding.handleCheck externalIsReverse
                    externalOnWrong selectedKanjiCollection selectedKanjiObjs
                    st w).2 in
       rng w' = rng w
       ∧ selector w'
         = if bool_decide (KanjiWordBuilding.placedTiles st ≠ [])
           then updateCharacterWeight
                  (KanjiWordBuilding.kanjiChar
                     (KanjiWordBuilding.questionData st))
                  (KanjiWordBuilding.isCorrect st) (selector w)
           else selector w).
Proof.
  split.
  - intros st w'. unfold w'. case_bool_decide as Hne.
    + destruct (kana_handleCheck_updates externalIsReverse externalOnWrong
                  st Hne w) as [Hs Hr]. by split.
    + unfold KanaWordBuilding.handleCheck.
      by destruct (KanaWordBuilding.placedTiles st).
  - intros selectedKanjiCollection selectedKanjiObjs st w'. unfold w'.
    case_bool_decide as Hne.
    + destruct (kanji_handleCheck_updates externalIsReverse externalOnWrong
                  selectedKanjiCollection selectedKanjiObjs st Hne w)
        as [Hs Hr]. by split.
    + unfold KanjiWordBuilding.handleCheck.
      by destruct (KanjiWordBuilding.placedTiles st).
Qed.

(** *** The word that [generateWord] returns *)

Lemma filter_unused_without (sourceChars : list string) (usedChars : gset string)
    (selected : string) :
  selected ∉ sourceChars →
  filter (λ c, c ∉ {[ selected ]} ∪ usedChars) sourceChars
  = filter (λ c, c ∉ usedChars) sourceChars.
Proof.
  induction sourceChars as [|a l IH]; intros Hsel; [done|].
  rewrite !filter_cons, IH by (intros Hin; apply Hsel; by right).
  assert (a ≠ selected) by (intros ->; apply Hsel; left).
  assert (a ∉ {[ selected ]} ∪ usedChars ↔ a ∉ usedChars) as Hiff.
  { rewrite not_elem_of_union, not_elem_of_singleton. tauto. }
  destruct (decide (a ∉ usedChars)).
  - by rewrite decide_True by (by apply Hiff).
  - by rewrite decide_False by (by rewrite Hiff).
Qed.

Lemma filter_unused_empty (sourceChars : list string) (usedChars : gset string) :
  usedChars = ∅ →
  filter (λ c, c ∉ usedChars) sourceChars = sourceChars.
Proof.
  intros ->. induction sourceChars as [|a l IH]; [done|].
  rewrite filter_cons, decide_True by apply not_elem_of_empty. by f_equal.
Qed.

(** Marking one more character as used removes at most one candidate from a
    pool without repetitions. *)
Lemma available_shrinks_by_one (sourceChars : list string)
    (usedChars : gset string) (selected : string) :
  NoDup sourceChars →
  (length (filter (λ c, c ∉ usedChars) sourceChars)
   ≤ S (length (filter (λ c, c ∉ {[ selected ]} ∪ usedChars) sourceChars)))%nat.
Proof.
  induction sourceChars as [|a l IH]; intros Hnd; [simpl; lia|].
  apply NoDup_cons in Hnd as [Ha Hnd]. specialize (IH Hnd).
  rewrite !filter_cons.
  destruct (decide (a ∉ usedChars)) as [Hfree|Hused].
  - destruct (decide (a = selected)) as [->|Hne].
    + rewrite decide_False
        by (rewrite not_elem_of_union, not_elem_of_singleton; tauto).
      rewrite filter_unused_without by done. simpl. lia.
    + rewrite decide_True
        by (rewrite not_elem_of_union, not_elem_of_singleton; tauto).
      simpl. lia.
  - rewrite decide_False
      by (rewrite not_elem_of_union, not_elem_of_singleton; tauto).
    exact IH.
Qed.

Lemma drawWordChars_length (sourceChars : list string) :
  ∀ remaining wordChars (usedChars : gset string) w,
    let drawn := (KanaWordBuilding.drawWordChars remaining sourceChars
                    wordChars usedChars w).1 in
    (length drawn ≤ length wordChars + remaining)%nat
    ∧ (NoDup sourceChars →
       (remaining ≤ length (filter (λ c, c ∉ usedChars) sourceChars))%nat →
       length drawn = (length wordChars + remaining)%nat).
Proof.
  intros remaining.
  induction remaining as [|remaining IH]; intros wordChars usedChars w; simpl.
  { split; [lia|]. intros _ _. lia. }
  destruct (filter (λ c, c ∉ usedChars) sourceChars) as [|c cs] eqn:Hav; simpl.
  { split; [lia|]. intros _ Hle. lia. }
  rewrite !run_bind.
  set (selected := (callSelectWeightedCharacter (c :: cs) w).1).
  match goal with
  | |- context [KanaWordBuilding.drawWordChars _ _ _ _ ?w1] =>
      destruct (IH (wordChars ++ [selected]) ({[ selected ]} ∪ usedChars) w1)
        as [Hle Heq]
  end.
  rewrite length_app in Hle, Heq. cbn [length] in Hle, Heq.
  split; [lia|]. intros Hnd Hrem. rewrite Heq; [lia | done |].
  pose proof (available_shrinks_by_one sourceChars usedChars selected Hnd) as Hs.
  rewrite Hav in Hs. simpl in Hs. lia.
Qed.

(** X14. The length of the word.  [generateWord] never returns more
    characters than asked for and gives one answer tile per character; from
    a pool without repetitions that holds at least [wordLength] characters
    it returns exactly [wordLength] of them. *)
Theorem generateWord_word_has_the_requested_length
    (isReverse : bool) (wordLength : Z)
    (selectedKana selectedRomaji : list string)
    (kanaToRomaji romajiToKana : gmap string string) (w : World) :
  let sourceChars := if isReverse then selectedRomaji else selectedKana in
  let word := (KanaWordBuilding.generateWord isReverse wordLength selectedKana
                 selectedRomaji kanaToRomaji romajiToKana w).1 in
  (length (KanaWordBuilding.wordChars word) ≤ Z.to_nat wordLength)%nat
  ∧ length (KanaWordBuilding.answerChars word)
    = length (KanaWordBuilding.wordChars word)
  ∧ (NoDup sourceChars →
     wordLength ≤ Z.of_nat (length sourceChars) →
     length (KanaWordBuilding.wordChars word) = Z.to_nat wordLength).
Proof.
  intros sourceChars word. unfold word, KanaWordBuilding.generateWord.
  fold sourceChars.
  destruct (Z.ltb_spec (Z.of_nat (length sourceChars)) wordLength) as [Hlt|Hge].
  { simpl. split; [lia|]. split; [done|]. intros _ Hle. lia. }
  rewrite !run_bind. cbn [fst ret KanaWordBuilding.wordChars
                           KanaWordBuilding.answerChars].
  destruct (drawWordChars_length sourceChars (Z.to_nat wordLength) [] ∅ w)
    as [Hle Heq].
  cbn [length] in Hle, Heq. rewrite filter_unused_empty in Heq by done.
  split; [exact Hle|]. split.
  - destruct isReverse; by rewrite length_map.
  - intros Hnd _. apply Heq; [done | lia].
Qed.

(** *** What generating a word does to the world *)

Lemma run_callSelect (candidates : list string) (w : World) :
  score (callSelectWeightedCharacter candidates w).2 = score w
  ∧ reverseMode (callSelectWeightedCharacter candidates w).2 = reverseMode w
  ∧ trace (callSelectWeightedCharacter candidates w).2
    = trace w ++ [SelectWeightedCharacter candidates].
Proof.
  unfold callSelectWeightedCharacter.
  by destruct (selectWeightedCharacter candidates (selector w)).
Qed.

Lemma run_callMark (id : string) (w : World) :
  score (callMarkCharacterSeen id w).2 = score w
  ∧ reverseMode (callMarkCharacterSeen id w).2 = reverseMode w
  ∧ trace (callMarkCharacterSeen id w).2 = trace w ++ [MarkCharacterSeen id].
Proof. done. Qed.

Lemma run_callRandomInteger (lo hi : Z) (w : World) :
  score (callRandomInteger lo hi w).2 = score w
  ∧ reverseMode (callRandomInteger lo hi w).2 = reverseMode w
  ∧ trace (callRandomInteger lo hi w).2 = trace w.
Proof.
  unfold callRandomInteger. by destruct (randomInteger lo hi (rng w)).
Qed.

Lemma run_callRandomSort {A : Type} (xs : list A) (w : World) :
  score (callRandomSort xs w).2 = score w
  ∧ reverseMode (callRandomSort xs w).2 = reverseMode w
  ∧ trace (callRandomSort xs w).2 = trace w.
Proof.
  unfold callRandomSort. by destruct (randomSort xs (rng w)).
Qed.

Lemma drawWordChars_trace (sourceChars : list string) :
  ∀ remaining wordChars (usedChars : gset string) w,
    let drawn := KanaWordBuilding.drawWordChars remaining sourceChars
                   wordChars usedChars w in
    score drawn.2 = score w
    ∧ reverseMode drawn.2 = reverseMode w
    ∧ ∃ new, trace drawn.2 = trace w ++ new
             ∧ Forall (λ e, isDrawEvent e = true) new
             ∧ drawn.1 = wordChars ++ seenIds new.
Proof.
  intros remaining.
  induction remaining as [|remaining IH]; intros wordChars usedChars w; simpl.
  { split; [done|]. split; [done|]. exists [].
    by rewrite !app_nil_r. }
  destruct (filter (λ c, c ∉ usedChars) sourceChars) as [|c cs]; simpl.
  { split; [done|]. split; [done|]. exists [].
    by rewrite !app_nil_r. }
  rewrite !run_bind.
  set (w1 := (callSelectWeightedCharacter (c :: cs) w).2).
  set (selected := (callSelectWeightedCharacter (c :: cs) w).1).
  set (w2 := (callMarkCharacterSeen selected w1).2).
  destruct (IH (wordChars ++ [selected]) ({[ selected ]} ∪ usedChars) w2)
    as (Hs & Hr & new & Ht & Hall & Hdrawn).
  destruct (run_callSelect (c :: cs) w) as (Hs1 & Hr1 & Ht1).
  destruct (run_callMark selected w1) as (Hs2 & Hr2 & Ht2).
  fold w1 in Hs1, Hr1, Ht1. fold w2 in Hs2, Hr2, Ht2.
  split; [congruence|]. split; [congruence|].
  exists ([SelectWeightedCharacter (c :: cs); MarkCharacterSeen selected] ++ new).
  split; [|split].
  - rewrite Ht, Ht2, Ht1, <- !app_assoc. done.
  - apply Forall_app. split; [by repeat constructor | done].
  - rewrite Hdrawn, <- app_assoc. done.
Qed.

Lemma drawDistractors_quiet (distractorSource : list string)
    (usedAnswers : gset (option string)) :
  ∀ remaining distractors w,
    let drawn := KanaWordBuilding.drawDistractors remaining distractorSource
                   usedAnswers distractors w in
    score drawn.2 = score w
    ∧ reverseMode drawn.2 = reverseMode w
    ∧ trace drawn.2 = trace w.
Proof.
  intros remaining.
  induction remaining as [|remaining IH]; intros distractors w; simpl; [done|].
  destruct (filter _ distractorSource) as [|c cs]; simpl; [done|].
  rewrite !run_bind.
  match goal with
  | |- context [KanaWordBuilding.drawDistractors _ _ _ ?ds ?w1] =>
      destruct (IH ds w1) as (Hs & Hr & Ht)
  end.
  match type of Hs with
  | context [callRandomInteger ?lo ?hi w] =>
      destruct (run_callRandomInteger lo hi w) as (Hs1 & Hr1 & Ht1)
  end.
  split; [congruence|]. split; congruence.
Qed.


(** *** The tiles on offer *)

Lemma result_callSelect (candidates : list string) (w : World) :
  (callSelectWeightedCharacter candidates w).1
  = (selectWeightedCharacter candidates (selector w)).1.
Proof.
  unfold callSelectWeightedCharacter.
  by destruct (selectWeightedCharacter candidates (selector w)).
Qed.

Lemma result_callRandomSort {A : Type} (xs : list A) (w : World) :
  (callRandomSort xs w).1 = (randomSort xs (rng w)).1.
Proof.
  unfold callRandomSort. by destruct (randomSort xs (rng w)).
Qed.

(** [kanjiObjMap.get(c)] is the last selected object whose [kanjiChar] is
    [c]. *)
Lemma kanjiObjMap_lookup (selectedKanjiObjs : list KanjiStore.IKanjiObj)
    (c : string) :
  KanjiWordBuilding.kanjiObjMap selectedKanjiObjs !! c
  = last (filter (λ obj, KanjiStore.kanjiChar obj = c) selectedKanjiObjs).
Proof.
  unfold KanjiWordBuilding.kanjiObjMap.
  induction selectedKanjiObjs as [|obj objs IH] using rev_ind; [done|].
  rewrite foldl_app, filter_app. simpl. rewrite filter_cons, filter_nil.
  destruct (decide (KanjiStore.kanjiChar obj = c)) as [<-|Hne].
  - by rewrite lookup_insert_eq, last_snoc.
  - by rewrite lookup_insert_ne, app_nil_r.
Qed.

Lemma sliceFromZero_take {A : Type} (xs : list A) (stop : Z) :
  0 ≤ stop →
  KanjiWordBuilding.sliceFromZero xs stop = take (Z.to_nat stop) xs.
Proof.
  intros Hstop. unfold KanjiWordBuilding.sliceFromZero.
  destruct (Z.ltb_spec stop 0); [lia | done].
Qed.

Lemma sliceFromZero_subset {A : Type} (xs : list A) (stop : Z) (x : A) :
  x ∈ KanjiWordBuilding.sliceFromZero xs stop → x ∈ xs.
Proof.
  unfold KanjiWordBuilding.sliceFromZero.
  destruct (stop <? 0); apply subseteq_take.
Qed.

Section Shuffle.
Hypothesis randomSort_permutes :
  ∀ (A : Type) (xs : list A) s, (randomSort xs s).1 ≡ₚ xs.

(** X16. The tiles of a kana round.  As the random sort only reorders,
    every answer tile is among the tiles offered, and at most three other
    tiles are offered with them. *)
Theorem generateWord_offers_every_answer
    (isReverse : bool) (wordLength : Z)
    (selectedKana selectedRomaji : list string)
    (kanaToRomaji romajiToKana : gmap string string) (w : World) :
  let word := (KanaWordBuilding.generateWord isReverse wordLength selectedKana
                 selectedRomaji kanaToRomaji romajiToKana w).1 in
  (∀ tile, tile ∈ KanaWordBuilding.answerChars word →
           tile ∈ KanaWordBuilding.allTiles word)
  ∧ (length (KanaWordBuilding.answerChars word)
     ≤ length (KanaWordBuilding.allTiles word)
     ≤ length (KanaWordBuilding.answerChars word) + 3)%nat.
Proof.
  intros word. unfold word, KanaWordBuilding.generateWord.
  destruct (_ <? wordLength); [simpl; split; [done | lia]|].
  rewrite !run_bind.
  cbn [fst ret KanaWordBuilding.answerChars KanaWordBuilding.allTiles].
  rewrite result_callRandomSort.
  match goal with
  | |- context [randomSort (?answers ++ ?distractors) ?s] =>
      pose proof (randomSort_permutes _ (answers ++ distractors) s) as Hperm;
      set (tiles := (randomSort (answers ++ distractors) s).1) in *;
      assert (length distractors ≤ 3)%nat as Hthree
  end.
  { match goal with
    | |- context [KanaWordBuilding.drawDistractors ?n ?src ?used [] ?w1] =>
        pose proof (drawDistractors_length src used n [] w1) as Hlen
    end.
    simpl in Hlen. lia. }
  split.
  - intros tile Htile. rewrite Hperm. apply elem_of_app. by left.
  - rewrite (Permutation_length Hperm), length_app. lia.
Qed.

(** X17. The question of a kanji round.  As the selector returns a member
    of its candidates and the random sort only reorders, a non-empty
    selection always gives a proper question: it is built from the last
    selected object that carries the chosen kanji; the correct answer is
    among the tiles; the number of tiles is one more than the number of
    distractors, which is the requested count or the number of other
    objects if that is smaller; and in reverse mode every other tile is the
    kanji of another selected object. *)
Theorem generateQuestion_offers_the_answer
    (isReverse : bool) (selectedKanjiObjs : list KanjiStore.IKanjiObj)
    (externalDistractorCount : Z) (w : World) :
  (∀ candidates s, candidates ≠ [] →
     (selectWeightedCharacter candidates s).1 ∈ candidates) →
  selectedKanjiObjs ≠ [] →
  let question := (KanjiWordBuilding.generateQuestion isReverse
                     selectedKanjiObjs externalDistractorCount w).1 in
  let chosen := KanjiWordBuilding.kanjiChar question in
  let others :=
    filter (λ obj, KanjiStore.kanjiChar obj ≠ chosen) selectedKanjiObjs in
  ∃ obj,
    last (filter (λ o, KanjiStore.kanjiChar o = chosen) selectedKanjiObjs)
    = Some obj
    ∧ KanjiWordBuilding.correctAnswer question
      = (if isReverse then Some chosen else head (KanjiStore.meanings obj))
    ∧ KanjiWordBuilding.displayChar question
      = (if isReverse then head (KanjiStore.meanings obj) else Some chosen)
    ∧ KanjiWordBuilding.correctAnswer question
        ∈ KanjiWordBuilding.allTiles question
    ∧ (0 ≤ externalDistractorCount →
       Z.of_nat (length (KanjiWordBuilding.allTiles question))
       = 1 + Z.min externalDistractorCount (Z.of_nat (length others)))
    ∧ (isReverse = true →
       ∀ tile, tile ∈ KanjiWordBuilding.allTiles question →
               tile ≠ KanjiWordBuilding.correctAnswer question →
               ∃ other, other ∈ others
                        ∧ tile = Some (KanjiStore.kanjiChar other)).
Proof.
  intros Hsel Hne question chosen others.
  subst others chosen question. unfold KanjiWordBuilding.generateQuestion.
  destruct selectedKanjiObjs as [|first rest] eqn:Hobjs; [done|].
  rewrite <- Hobjs in *. clear Hne.
  rewrite !run_bind. cbv beta.
  set (kanjiChars := map KanjiStore.kanjiChar selectedKanjiObjs).
  assert (kanjiChars ≠ []) as Hchars by (unfold kanjiChars; by rewrite Hobjs).
  pose proof (Hsel kanjiChars (selector w) Hchars) as Hmem.
  rewrite <- result_callSelect in Hmem.
  set (selected := (callSelectWeightedCharacter kanjiChars w).1) in *.
  rewrite kanjiObjMap_lookup.
  destruct (last (filter (λ obj, KanjiStore.kanjiChar obj = selected)
                         selectedKanjiObjs)) as [obj|] eqn:Hlast.
  2:{ exfalso. apply last_None in Hlast.
      apply list_elem_of_fmap in Hmem as (o & Ho & Hin).
      assert (o ∈ filter (λ obj, KanjiStore.kanjiChar obj = selected)
                         selectedKanjiObjs) as Hin'
        by (by apply list_elem_of_filter).
      rewrite Hlast in Hin'. by apply elem_of_nil in Hin'. }
  rewrite !run_bind.
  cbn [fst ret KanjiWordBuilding.kanjiChar KanjiWordBuilding.correctAnswer
       KanjiWordBuilding.displayChar KanjiWordBuilding.allTiles].
  rewrite Hlast. exists obj. split; [done|]. split; [done|]. split; [done|].
  rewrite !result_callRandomSort.
  set (others := filter (λ o, KanjiStore.kanjiChar o ≠ selected)
                        selectedKanjiObjs).
  set (correct := if isReverse then Some selected
                  else head (KanjiStore.meanings obj)).
  match goal with
  | |- context [randomSort (correct :: ?ds) ?s] =>
      pose proof (randomSort_permutes _ (correct :: ds) s) as Htiles;
      set (distractors := ds) in *;
      set (tiles := (randomSort (correct :: distractors) s).1) in *
  end.
  assert (Hothers : (length others < length selectedKanjiObjs)%nat).
  { apply last_Some in Hlast as [l' Hl'].
    assert (obj ∈ filter (λ o, KanjiStore.kanjiChar o = selected)
                         selectedKanjiObjs) as Hin.
    { rewrite Hl'. apply elem_of_app. right. by apply list_elem_of_singleton. }
    apply list_elem_of_filter in Hin as [Hc Hin].
    apply (length_filter_lt _ _ obj); [done|]. by intros Hn. }
  split; [|split].
  - rewrite Htiles. left.
  - intros Hcount. rewrite (Permutation_length Htiles). cbn [length].
    unfold distractors, KanjiWordBuilding.distractorCount.
    rewrite sliceFromZero_take by lia. rewrite length_take.
    match goal with
    | |- context [randomSort ?src ?s] =>
        rewrite (Permutation_length (randomSort_permutes _ src s))
    end.
    assert (length (if isReverse
                    then map (λ o, Some (KanjiStore.kanjiChar o)) others
                    else map (λ o, head (KanjiStore.meanings o)) others)
            = length others) as ->
      by (destruct isReverse; apply length_map).
    lia.
  - intros -> tile Htile Hnot. rewrite Htiles in Htile.
    apply elem_of_cons in Htile as [->|Htile]; [done|].
    unfold distractors in Htile. apply sliceFromZero_subset in Htile.
    rewrite (randomSort_permutes _ _ _) in Htile.
    apply list_elem_of_fmap in Htile as (other & -> & Hin). by exists other.
Qed.

End Shuffle.

End RoundFacts.

(** ** Properties of the kana tables *)

Section TableFacts.
Import KanaRound.

Lemma fillTables_snoc (kanaChars romajiChars : list string) (k : string) :
  fillTables (kanaChars ++ [k]) romajiChars
  = match romajiChars !! length kanaChars with
    | Some r => (<[ k := r ]> (fillTables kanaChars romajiChars).1,
                 <[ r := k ]> (fillTables kanaChars romajiChars).2)
    | None => (delete k (fillTables kanaChars romajiChars).1,
               <[ "undefined" := k ]> (fillTables kanaChars romajiChars).2)
    end.
Proof.
  unfold fillTables. rewrite imap_app, foldl_app. simpl.
  rewrite Nat.add_0_r.
  destruct (foldl _ _ (imap pair kanaChars)) as [k2r r2k].
  by destruct (romajiChars !! length kanaChars).
Qed.

(** Each table holds, for a key, the partner at the key's last position. *)
Lemma fillTables_spec (romajiChars kanaChars : list string) :
  (length kanaChars ≤ length romajiChars)%nat →
  (∀ k r,
     (fillTables kanaChars romajiChars).1 !! k = Some r ↔
     ∃ i, kanaChars !! i = Some k ∧ romajiChars !! i = Some r
          ∧ ∀ j, (i < j)%nat → kanaChars !! j ≠ Some k)
  ∧ (∀ r k,
       (fillTables kanaChars romajiChars).2 !! r = Some k ↔
       ∃ i, kanaChars !! i = Some k ∧ romajiChars !! i = Some r
            ∧ ∀ j, (i < j < length kanaChars)%nat → romajiChars !! j ≠ Some r).
Proof.
  induction kanaChars as [|k0 l IH] using rev_ind; intros Hlen.
  { unfold fillTables. simpl.
    split; intros a b; (split; [by rewrite lookup_empty|]);
      intros (i & Hi & _); by rewrite lookup_nil in Hi. }
  rewrite length_app in Hlen. simpl in Hlen.
  destruct IH as [IHk IHr]; [lia|].
  rewrite fillTables_snoc.
  destruct (lookup_lt_is_Some_2 romajiChars (length l) ltac:(lia)) as [r0 Hr0].
  rewrite Hr0. cbn [fst snd]. split.
  - intros k r. destruct (decide (k = k0)) as [->|Hne].
    + rewrite lookup_insert_eq. split.
      * intros [= <-]. exists (length l). split; [|split; [done|]].
        -- by rewrite lookup_app_r, Nat.sub_diag by lia.
        -- intros j Hj. rewrite lookup_ge_None_2; [done|].
           rewrite length_app. simpl. lia.
      * intros (i & Hi & Hr & Hlast).
        destruct (decide (i = length l)) as [->|Hi'].
        -- congruence.
        -- exfalso. apply lookup_lt_Some in Hi as Hi2.
           rewrite length_app in Hi2. simpl in Hi2.
           apply (Hlast (length l)); [lia|].
           by rewrite lookup_app_r, Nat.sub_diag by lia.
    + rewrite lookup_insert_ne by done. rewrite IHk. split.
      * intros (i & Hi & Hr & Hlast). exists i.
        apply lookup_lt_Some in Hi as Hi2.
        split; [by rewrite lookup_app_l by lia|]. split; [done|].
        intros j Hj. destruct (decide (j < length l)%nat).
        -- rewrite lookup_app_l by lia. by apply Hlast.
        -- destruct (decide (j = length l)) as [->|].
           ++ rewrite lookup_app_r, Nat.sub_diag by lia. simpl. congruence.
           ++ rewrite lookup_ge_None_2; [done|]. rewrite length_app. simpl. lia.
      * intros (i & Hi & Hr & Hlast).
        apply lookup_lt_Some in Hi as Hi2.
        rewrite length_app in Hi2. simpl in Hi2.
        destruct (decide (i = length l)) as [->|Hi'].
        { rewrite lookup_app_r, Nat.sub_diag in Hi by lia. simpl in Hi.
          congruence. }
        exists i. rewrite lookup_app_l in Hi by lia.
        split; [done|]. split; [done|].
        intros j Hj Hlj. apply (Hlast j Hj).
        apply lookup_lt_Some in Hlj as Hj2. by rewrite lookup_app_l by lia.
  - intros r k. destruct (decide (r = r0)) as [->|Hne].
    + rewrite lookup_insert_eq. split.
      * intros [= <-]. exists (length l). split; [|split; [done|]].
        -- by rewrite lookup_app_r, Nat.sub_diag by lia.
        -- intros j Hj. rewrite length_app in Hj. simpl in Hj. lia.
      * intros (i & Hi & Hr & Hlast).
        destruct (decide (i = length l)) as [->|Hi'].
        -- rewrite lookup_app_r, Nat.sub_diag in Hi by lia. simpl in Hi.
           congruence.
        -- exfalso. apply lookup_lt_Some in Hi as Hi2.
           rewrite length_app in Hi2, Hlast. simpl in Hi2, Hlast.
           apply (Hlast (length l)); [lia | done].
    + rewrite lookup_insert_ne by done. rewrite IHr. split.
      * intros (i & Hi & Hr & Hlast). exists i.
        apply lookup_lt_Some in Hi as Hi2.
        split; [by rewrite lookup_app_l by lia|]. split; [done|].
        intros j Hj. rewrite length_app in Hj. simpl in Hj.
        destruct (decide (j = length l)) as [->|]; [congruence|].
        apply Hlast. lia.
      * intros (i & Hi & Hr & Hlast).
        apply lookup_lt_Some in Hi as Hi2.
        rewrite length_app in Hi2, Hlast. simpl in Hi2, Hlast.
        destruct (decide (i = length l)) as [->|Hi']; [congruence|].
        exists i. rewrite lookup_app_l in Hi by lia.
        split; [done|]. split; [done|].
        intros j Hj. apply Hlast. lia.
Qed.

Lemma lookup_NoDup_eq {A : Type} (l : list A) (i j : nat) (x : A) :
  NoDup l → l !! i = Some x → l !! j = Some x → i = j.
Proof. intros Hnd Hi Hj. by eapply NoDup_lookup. Qed.

(** X18. The two tables built from the selected groups.  When the groups
    list as many romaji as kana, [kanaToRomaji] gives every selected kana
    the romaji at its last position and [romajiToKana] gives every romaji
    the kana at its last position: a romaji shared by several kana leads
    back to the last of them.  When no kana and no romaji is listed twice
    the two tables are inverse to each other. *)
Theorem kanaTables_pair_kana_with_romaji
    (kanaData : list KanaGroup) (kanaGroupIndices : list nat)
    (tables : KanaTables) :
  kanaTables kanaData kanaGroupIndices = Some tables →
  length (selectedKana tables) = length (selectedRomaji tables) →
  (∀ i k r,
     selectedKana tables !! i = Some k →
     selectedRomaji tables !! i = Some r →
     ((∀ j, (i < j)%nat → selectedKana tables !! j ≠ Some k) →
      kanaToRomaji tables !! k = Some r)
     ∧ ((∀ j, (i < j)%nat → selectedRomaji tables !! j ≠ Some r) →
        romajiToKana tables !! r = Some k))
  ∧ (∀ k, k ∈ selectedKana tables ↔ is_Some (kanaToRomaji tables !! k))
  ∧ (NoDup (selectedKana tables) → NoDup (selectedRomaji tables) →
     ∀ k r, kanaToRomaji tables !! k = Some r
            ↔ romajiToKana tables !! r = Some k).
Proof.
  unfold kanaTables. intros Htables Hlen.
  destruct (flatGroups kanaData kanaGroupIndices kana) as [kanaChars|];
    [|done].
  destruct (flatGroups kanaData kanaGroupIndices romanji) as [romajiChars|];
    [|done].
  simpl in Htables.
  destruct (fillTables_spec romajiChars kanaChars) as [Hk Hr].
  { destruct (fillTables kanaChars romajiChars). injection Htables as <-.
    simpl in Hlen. lia. }
  destruct (fillTables kanaChars romajiChars) as [k2r r2k].
  injection Htables as <-. simpl in *. split; [|split].
  - intros i k r Hi Hri. split; intros Hlast.
    + apply Hk. by exists i.
    + apply Hr. exists i. split; [done|]. split; [done|].
      intros j Hj. apply Hlast. lia.
  - intros k. split.
    + intros Hin. apply list_elem_of_lookup_1 in Hin as [i Hi].
      assert (∃ i, kanaChars !! i = Some k
                   ∧ ∀ j, (i < j)%nat → kanaChars !! j ≠ Some k)
        as (i' & Hi' & Hlast).
      { clear -Hi. revert i Hi.
        induction kanaChars as [|a l IH] using rev_ind; intros i Hi.
        { by rewrite lookup_nil in Hi. }
        destruct (decide (a = k)) as [->|Hne].
        - exists (length l). split.
          + by rewrite lookup_app_r, Nat.sub_diag by lia.
          + intros j Hj. rewrite lookup_ge_None_2; [done|].
            rewrite length_app. simpl. lia.
        - apply lookup_lt_Some in Hi as Hi2.
          rewrite length_app in Hi2. simpl in Hi2.
          destruct (decide (i = length l)) as [->|].
          { rewrite lookup_app_r, Nat.sub_diag in Hi by lia. simpl in Hi.
            congruence. }
          rewrite lookup_app_l in Hi by lia.
          destruct (IH i Hi) as (i' & Hi' & Hlast).
          apply lookup_lt_Some in Hi' as Hi3.
          exists i'. split; [by rewrite lookup_app_l by lia|].
          intros j Hj. destruct (decide (j < length l)%nat).
          + rewrite lookup_app_l by lia. by apply Hlast.
          + destruct (decide (j = length l)) as [->|].
            * rewrite lookup_app_r, Nat.sub_diag by lia. simpl. congruence.
            * rewrite lookup_ge_None_2; [done|]. rewrite length_app. simpl. lia. }
      apply lookup_lt_Some in Hi' as Hlt.
      destruct (lookup_lt_is_Some_2 romajiChars i' ltac:(lia)) as [r Hri].
      exists r. apply Hk. by exists i'.
    + intros [r Hkr]. apply Hk in Hkr as (i & Hi & _).
      by eapply list_elem_of_lookup_2.
  - intros Hndk Hndr k r. rewrite Hk, Hr. split.
    + intros (i & Hi & Hri & _). exists i. split; [done|]. split; [done|].
      intros j Hj Hrj. pose proof (lookup_NoDup_eq _ _ _ _ Hndr Hri Hrj). lia.
    + intros (i & Hi & Hri & _). exists i. split; [done|]. split; [done|].
      intros j Hj Hkj. pose proof (lookup_NoDup_eq _ _ _ _ Hndk Hi Hkj). lia.
Qed.

End TableFacts.

(** ** The score through a whole session *)

Section SessionFacts.
Context `{!AdaptiveSelector, !RandomEngine, !SmartReverseMode, !HostStrings}.
Import Game GameSpec Round RoundSpec.
Local Open Scope eff_scope.

Lemma floor_refl (w : World) : 0 ≤ score w → 0 ≤ score w.
Proof. done. Qed.

Lemma floor_trans (w1 w2 w3 : World) :
  (0 ≤ score w1 → 0 ≤ score w2) → (0 ≤ score w2 → 0 ≤ score w3) →
  0 ≤ score w1 → 0 ≤ score w3.
Proof. auto. Qed.

Lemma floor_ret {A : Type} (a : A) :
  always (λ w w', 0 ≤ score w → 0 ≤ score w') (ret a).
Proof. by intros w. Qed.

Lemma floor_bind {A B : Type} (m : Eff A) (k : A → Eff B) :
  always (λ w w', 0 ≤ score w → 0 ≤ score w') m →
  (∀ a, always (λ w w', 0 ≤ score w → 0 ≤ score w') (k a)) →
  always (λ w w', 0 ≤ score w → 0 ≤ score w') (bind m k).
Proof. apply always_bind. apply floor_trans. Qed.

Lemma floor_emit (e : Event) :
  always (λ w w', 0 ≤ score w → 0 ≤ score w') (emit e).
Proof. by intros w. Qed.

Lemma floor_when (c : bool) (m : Eff unit) :
  always (λ w w', 0 ≤ score w → 0 ≤ score w') m →
  always (λ w w', 0 ≤ score w → 0 ≤ score w') (when c m).
Proof. intros Hm. destruct c; [exact Hm | apply floor_ret]. Qed.

Lemma generateWord_keeps_score (isReverse : bool) (wordLength : Z)
    (selectedKana selectedRomaji : list string)
    (kanaToRomaji romajiToKana : gmap string string) (w : World) :
  score (KanaWordBuilding.generateWord isReverse wordLength selectedKana
           selectedRomaji kanaToRomaji romajiToKana w).2 = score w.
Proof.
  unfold KanaWordBuilding.generateWord.
  destruct (_ <? wordLength); [done|].
  rewrite !run_bind. cbn [snd ret].
  match goal with
  | |- context [KanaWordBuilding.drawWordChars ?n ?src [] ∅ w] =>
      destruct (drawWordChars_trace src n [] ∅ w) as (Hs & _);
      set (first := KanaWordBuilding.drawWordChars n src [] ∅ w) in *
  end.
  match goal with
  | |- context [KanaWordBuilding.drawDistractors ?n ?src ?used [] first.2] =>
      destruct (drawDistractors_quiet src used n [] first.2) as (Hs1 & _);
      set (second := KanaWordBuilding.drawDistractors n src used [] first.2) in *
  end.
  match goal with
  | |- context [callRandomSort ?xs second.2] =>
      destruct (run_callRandomSort xs second.2) as (Hs2 & _)
  end.
  congruence.
Qed.

Lemma generateQuestion_keeps_score (isReverse : bool)
    (selectedKanjiObjs : list KanjiStore.IKanjiObj)
    (externalDistractorCount : Z) (w : World) :
  score (KanjiWordBuilding.generateQuestion isReverse selectedKanjiObjs
           externalDistractorCount w).2 = score w.
Proof.
  unfold KanjiWordBuilding.generateQuestion.
  destruct selectedKanjiObjs as [|obj objs]; [done|].
  rewrite !run_bind. cbv beta.
  set (chars := map KanjiStore.kanjiChar (obj :: objs)).
  destruct (run_callSelect chars w) as (Hs1 & _).
  set (w1 := (callSelectWeightedCharacter chars w).2) in *.
  set (selected := (callSelectWeightedCharacter chars w).1) in *.
  destruct (run_callMark selected w1) as (Hs2 & _).
  set (w2 := (callMarkCharacterSeen selected w1).2) in *.
  destruct (_ !! selected) as [selectedObj|]; [|cbn [snd ret]; congruence].
  rewrite !run_bind. cbn [snd ret].
  match goal with
  | |- context [callRandomSort ?xs w2] =>
      destruct (run_callRandomSort xs w2) as (Hs3 & _);
      set (w3 := (callRandomSort xs w2).2) in *;
      set (sorted := (callRandomSort xs w2).1) in *
  end.
  match goal with
  | |- context [callRandomSort ?xs w3] =>
      destruct (run_callRandomSort xs w3) as (Hs4 & _)
  end.
  congruence.
Qed.

Section Callbacks.
Variable speedStopwatchStart : Eff unit.
Variable externalOnCorrect : option (list string → Eff unit).
Hypothesis start_keeps_floor :
  ∀ w, 0 ≤ score w → 0 ≤ score (speedStopwatchStart w).2.
Hypothesis onCorrect_keeps_floor :
  ∀ f chars w, externalOnCorrect = Some f →
               0 ≤ score w → 0 ≤ score (f chars w).2.

Lemma floor_callOptional (chars : list string) :
  always (λ w w', 0 ≤ score w → 0 ≤ score w')
    (callOptional externalOnCorrect chars).
Proof.
  unfold callOptional.
  destruct externalOnCorrect as [f|] eqn:Hf; [|apply floor_ret].
  intros w. by apply onCorrect_keeps_floor.
Qed.

Ltac floor :=
  repeat first
    [ assumption
    | apply floor_ret
    | apply floor_emit
    | apply floor_callOptional
    | exact start_keeps_floor
    | apply floor_bind; [|intros ?] ].

Lemma floor_kana_act (externalIsReverse : option bool) (externalOnWrong : bool)
    (wordLength : Z) (tables : KanaRound.KanaTables)
    (action : KanaRound.UserAction) (st : KanaWordBuilding.GameState) :
  always (λ w w', 0 ≤ score w → 0 ≤ score w')
    (KanaRound.act externalIsReverse externalOnWrong externalOnCorrect
       wordLength tables speedStopwatchStart action st).
Proof.
  assert (Hreset : always (λ w w', 0 ≤ score w → 0 ≤ score w')
            (KanaRound.resetGame externalIsReverse wordLength tables
               speedStopwatchStart)).
  { unfold KanaRound.resetGame. floor; [by intros w|].
    intros w. by rewrite generateWord_keeps_score. }
  destruct action as [char| | |]; simpl.
  - unfold KanaRound.handleTileClick.
    destruct (_ && _); [apply floor_ret|].
    destruct (bool_decide _); floor.
  - unfold KanaRound.onAction.
    destruct (KanaWordBuilding.bottomBarState st).
    + intros w Hw.
      destruct (kana_handleCheck_effect externalIsReverse externalOnWrong st w)
        as (_ & Hs & _).
      rewrite Hs.
      destruct (bool_decide _), (KanaWordBuilding.isCorrect st),
        (Z.leb_spec 0 (score w - 1)); lia.
    + unfold KanaRound.handleContinue. floor.
    + unfold KanaRound.handleTryAgain. floor.
  - unfold KanaRound.handleClearPlaced.
    destruct (KanaWordBuilding.isChecking st); floor.
  - exact Hreset.
Qed.

Lemma floor_kanji_act (externalIsReverse : option bool)
    (externalOnWrong : bool) (externalDistractorCount : Z)
    (selectedKanjiCollection : string)
    (selectedKanjiObjs : list KanjiStore.IKanjiObj)
    (action : KanjiRound.UserAction) (st : KanjiWordBuilding.GameState) :
  always (λ w w', 0 ≤ score w → 0 ≤ score w')
    (KanjiRound.act externalIsReverse externalOnWrong externalOnCorrect
       externalDistractorCount selectedKanjiCollection selectedKanjiObjs
       speedStopwatchStart action st).
Proof.
  assert (Hreset : ∀ st', always (λ w w', 0 ≤ score w → 0 ≤ score w')
            (KanjiRound.resetGame externalIsReverse externalDistractorCount
               selectedKanjiObjs speedStopwatchStart st')).
  { intros st'. unfold KanjiRound.resetGame. floor; [by intros w|].
    intros w. by rewrite generateQuestion_keeps_score. }
  destruct action as [char| |]; simpl.
  - unfold KanjiRound.handleTileClick.
    destruct (_ && _); [apply floor_ret|].
    destruct (bool_decide _); floor.
  - unfold KanjiRound.onAction.
    destruct (KanjiWordBuilding.bottomBarState st).
    + intros w Hw.
      destruct (kanji_handleCheck_effect externalIsReverse externalOnWrong
                  selectedKanjiCollection selectedKanjiObjs st w)
        as (_ & Hs & _).
      rewrite Hs.
      destruct (bool_decide _), (KanjiWordBuilding.isCorrect st),
        (Z.leb_spec 0 (score w - 1)); lia.
    + unfold KanjiRound.handleContinue. pose proof (Hreset st). floor.
    + unfold KanjiRound.handleTryAgain. floor.
  - apply Hreset.
Qed.

(** X19. The score through a session.  In a game that is given no
    [onWrong] callback, as long as the stopwatch and the [onCorrect]
    callback do not push the score below zero, a score that is non-negative
    when the game mounts is non-negative after any sequence of tile clicks,
    presses of the bar button, clears and resets, in the kana game and in
    the kanji game. *)
Theorem score_stays_non_negative_through_a_session
    (externalIsReverse : option bool)
    (wordLength : Z) (tables : KanaRound.KanaTables)
    (externalDistractorCount : Z) (selectedKanjiCollection : string)
    (selectedKanjiObjs : list KanjiStore.IKanjiObj)
    (kanaActions : list KanaRound.UserAction)
    (kanjiActions : list KanjiRound.UserAction) (w : World) :
  0 ≤ score w →
  let kanaSession :=
    let* st := KanaRound.mount externalIsReverse wordLength tables in
    KanaRound.play externalIsReverse false externalOnCorrect
      wordLength tables speedStopwatchStart kanaActions st in
  let kanjiSession :=
    let* st := KanjiRound.mount externalIsReverse externalDistractorCount
                 selectedKanjiObjs in
    KanjiRound.play externalIsReverse false externalOnCorrect
      externalDistractorCount selectedKanjiCollection selectedKanjiObjs
      speedStopwatchStart kanjiActions st in
  0 ≤ score (kanaSession w).2 ∧ 0 ≤ score (kanjiSession w).2.
Proof.
  intros Hw kanaSession kanjiSession. split.
  - revert w Hw. unfold kanaSession. apply floor_bind.
    + unfold KanaRound.mount. floor; [by intros w|].
      intros w. by rewrite generateWord_keeps_score.
    + intros st. revert st.
      induction kanaActions as [|action actions IH]; intros st; simpl.
      * apply floor_ret.
      * apply floor_bind; [apply floor_kana_act | exact IH].
  - revert w Hw. unfold kanjiSession. apply floor_bind.
    + unfold KanjiRound.mount. floor; [by intros w|].
      intros w. by rewrite generateQuestion_keeps_score.
    + intros st. revert st.
      induction kanjiActions as [|action actions IH]; intros st; simpl.
      * apply floor_ret.
      * apply floor_bind; [apply floor_kanji_act | exact IH].
Qed.

End Callbacks.

End SessionFacts.

(** ** The tiles of a kana round are defined *)

Section KanaTileFacts.
Context `{!AdaptiveSelector, !RandomEngine, !SmartReverseMode, !HostStrings}.
Import Game GameSpec Round RoundSpec KanaRound.
Local Open Scope eff_scope.

Lemma last_occurrence {A : Type} `{EqDecision A} (l : list A) (x : A) :
  x ∈ l → ∃ i, l !! i = Some x ∧ ∀ j, (i < j)%nat → l !! j ≠ Some x.
Proof.
  induction l as [|a l IH] using rev_ind; intros Hin.
  { by apply elem_of_nil in Hin. }
  destruct (decide (a = x)) as [->|Hne].
  - exists (length l). split.
    + by rewrite lookup_app_r, Nat.sub_diag by lia.
    + intros j Hj. rewrite lookup_ge_None_2; [done|].
      rewrite length_app. simpl. lia.
  - apply elem_of_app in Hin as [Hin|Hin];
      [|apply list_elem_of_singleton in Hin; congruence].
    destruct (IH Hin) as (i & Hi & Hlast).
    apply lookup_lt_Some in Hi as Hlt.
    exists i. split; [by rewrite lookup_app_l by lia|].
    intros j Hj. destruct (decide (j < length l)%nat).
    + rewrite lookup_app_l by lia. by apply Hlast.
    + destruct (decide (j = length l)) as [->|].
      * rewrite lookup_app_r, Nat.sub_diag by lia. simpl. congruence.
      * rewrite lookup_ge_None_2; [done|]. rewrite length_app. simpl. lia.
Qed.

(** With as many romaji as kana, each table is defined on its whole
    alphabet and takes its values in the other. *)
Lemma fillTables_total (kanaChars romajiChars : list string) :
  length kanaChars = length romajiChars →
  (∀ k, k ∈ kanaChars →
        ∃ r, (fillTables kanaChars romajiChars).1 !! k = Some r
             ∧ r ∈ romajiChars)
  ∧ (∀ r, r ∈ romajiChars →
          ∃ k, (fillTables kanaChars romajiChars).2 !! r = Some k
               ∧ k ∈ kanaChars).
Proof.
  intros Hlen.
  destruct (fillTables_spec romajiChars kanaChars ltac:(lia)) as [Hk Hr].
  split.
  - intros k Hin. destruct (last_occurrence kanaChars k Hin) as (i & Hi & Hlast).
    apply lookup_lt_Some in Hi as Hlt.
    destruct (lookup_lt_is_Some_2 romajiChars i ltac:(lia)) as [r Hri].
    exists r. split; [|by eapply list_elem_of_lookup_2].
    apply Hk. by exists i.
  - intros r Hin.
    destruct (last_occurrence romajiChars r Hin) as (i & Hi & Hlast).
    apply lookup_lt_Some in Hi as Hlt.
    destruct (lookup_lt_is_Some_2 kanaChars i ltac:(lia)) as [k Hki].
    exists k. split; [|by eapply list_elem_of_lookup_2].
    apply Hr. exists i. split; [done|]. split; [done|].
    intros j Hj. apply Hlast. lia.
Qed.

Section Collaborators.
Hypothesis selector_returns_member :
  ∀ candidates s, candidates ≠ [] →
    (selectWeightedCharacter candidates s).1 ∈ candidates.
Hypothesis randomInteger_in_range :
  ∀ lo hi s, lo ≤ hi → lo ≤ (randomInteger lo hi s).1 ≤ hi.
Hypothesis randomSort_permutes :
  ∀ (A : Type) (xs : list A) s, (randomSort xs s).1 ≡ₚ xs.

Lemma drawWordChars_subset (sourceChars : list string) :
  ∀ remaining wordChars (usedChars : gset string) w c,
    c ∈ (KanaWordBuilding.drawWordChars remaining sourceChars wordChars
           usedChars w).1 →
    c ∈ wordChars ∨ c ∈ sourceChars.
Proof.
  intros remaining.
  induction remaining as [|remaining IH]; intros wordChars usedChars w c;
    simpl; [by left|].
  destruct (filter (λ c, c ∉ usedChars) sourceChars) as [|a cs] eqn:Hav;
    simpl; [by left|].
  rewrite !run_bind. intros Hin. apply IH in Hin as [Hin|Hin]; [|by right].
  apply elem_of_app in Hin as [Hin|Hin]; [by left|].
  apply list_elem_of_singleton in Hin as ->. right.
  rewrite result_callSelect.
  assert ((selectWeightedCharacter (a :: cs) (selector w)).1
            ∈ filter (λ c, c ∉ usedChars) sourceChars) as Hm
    by (rewrite Hav; by apply selector_returns_member).
  by apply list_elem_of_filter in Hm as [_ Hm].
Qed.

Lemma drawDistractors_defined (distractorSource : list string)
    (usedAnswers : gset (option string)) :
  ∀ remaining distractors w d,
    d ∈ (KanaWordBuilding.drawDistractors remaining distractorSource
           usedAnswers distractors w).1 →
    d ∈ distractors ∨ ∃ c, d = Some c ∧ c ∈ distractorSource.
Proof.
  intros remaining.
  induction remaining as [|remaining IH]; intros distractors w d;
    simpl; [by left|].
  destruct (filter _ distractorSource) as [|a cs] eqn:Hav; simpl; [by left|].
  rewrite !run_bind. intros Hin. apply IH in Hin as [Hin|Hin]; [|by right].
  apply elem_of_app in Hin as [Hin|Hin]; [by left|].
  apply list_elem_of_singleton in Hin as ->. right.
  match goal with
  | |- context [callRandomInteger ?lo ?hi w] =>
      pose proof (randomInteger_in_range lo hi (rng w) ltac:(simpl; lia)) as Hi;
      assert ((callRandomInteger lo hi w).1 = (randomInteger lo hi (rng w)).1)
        as -> by (unfold callRandomInteger;
                  by destruct (randomInteger lo hi (rng w)))
  end.
  set (i := (randomInteger _ _ (rng w)).1) in *. simpl in Hi.
  unfold jsIndex. destruct (Z.ltb_spec i 0) as [|_]; [lia|].
  destruct (lookup_lt_is_Some_2 (a :: cs) (Z.to_nat i) ltac:(simpl; lia))
    as [picked Hpicked].
  rewrite Hpicked. exists picked. split; [done|].
  assert (picked ∈ a :: cs) as Hin by (by eapply list_elem_of_lookup_2).
  rewrite <- Hav in Hin. by apply list_elem_of_filter in Hin as [_ Hin].
Qed.

(** X20. No tile of a kana round is undefined.  With the tables built from
    the selected groups, which list as many romaji as kana, a selector that
    returns one of its candidates, a [random.integer] that stays within its
    bounds and a random sort that only reorders: the characters of the word
    come from the source alphabet, every answer tile and every tile on
    offer is a defined character of the other alphabet. *)
Theorem kana_tiles_are_never_undefined
    (kanaData : list KanaGroup) (kanaGroupIndices : list nat)
    (tables : KanaTables) (isReverse : bool) (wordLength : Z) (w : World) :
  kanaTables kanaData kanaGroupIndices = Some tables →
  length (selectedKana tables) = length (selectedRomaji tables) →
  let word := (KanaWordBuilding.generateWord isReverse wordLength
                 (selectedKana tables) (selectedRomaji tables)
                 (kanaToRomaji tables) (romajiToKana tables) w).1 in
  let questionAlphabet :=
    if isReverse then selectedRomaji tables else selectedKana tables in
  let answerAlphabet :=
    if isReverse then selectedKana tables else selectedRomaji tables in
  (∀ c, c ∈ KanaWordBuilding.wordChars word → c ∈ questionAlphabet)
  ∧ (∀ tile, tile ∈ KanaWordBuilding.answerChars word →
             ∃ c, tile = Some c ∧ c ∈ answerAlphabet)
  ∧ (∀ tile, tile ∈ KanaWordBuilding.allTiles word →
             ∃ c, tile = Some c ∧ c ∈ answerAlphabet).
Proof.
  unfold kanaTables. intros Htables Hlen.
  destruct (flatGroups kanaData kanaGroupIndices kana) as [kanaChars|];
    [|done].
  destruct (flatGroups kanaData kanaGroupIndices romanji) as [romajiChars|];
    [|done].
  simpl in Htables.
  pose proof (fillTables_total kanaChars romajiChars) as Htotal.
  destruct (fillTables kanaChars romajiChars) as [k2r r2k].
  injection Htables as <-. simpl in Hlen. destruct (Htotal Hlen) as [Hk Hr].
  clear Htotal. cbn [selectedKana selectedRomaji kanaToRomaji romajiToKana
                     fst snd] in *.
  cbv zeta. unfold KanaWordBuilding.generateWord.
  set (questionAlphabet := if isReverse then romajiChars else kanaChars).
  set (answerAlphabet := if isReverse then kanaChars else romajiChars).
  destruct (_ <? wordLength).
  { simpl. repeat split; intros x Hx; by apply elem_of_nil in Hx. }
  rewrite !run_bind.
  cbn [fst ret KanaWordBuilding.wordChars KanaWordBuilding.answerChars
       KanaWordBuilding.allTiles].
  set (first := KanaWordBuilding.drawWordChars (Z.to_nat wordLength)
                  questionAlphabet [] ∅ w).
  assert (Hword : ∀ c, c ∈ first.1 → c ∈ questionAlphabet).
  { intros c Hc. apply drawWordChars_subset in Hc as [Hc|Hc]; [|done].
    by apply elem_of_nil in Hc. }
  set (answers := if isReverse then map (λ r, r2k !! r) first.1
                  else map (λ k, k2r !! k) first.1).
  assert (Hanswers : ∀ tile, tile ∈ answers →
                             ∃ c, tile = Some c ∧ c ∈ answerAlphabet).
  { intros tile Htile. unfold answers, questionAlphabet, answerAlphabet in *.
    destruct isReverse;
      apply list_elem_of_fmap in Htile as (c & -> & Hc); apply Hword in Hc.
    - destruct (Hr c Hc) as (k & -> & Hin). by exists k.
    - destruct (Hk c Hc) as (r & -> & Hin). by exists r. }
  split; [exact Hword|]. split; [exact Hanswers|].
  intros tile Htile. rewrite result_callRandomSort in Htile.
  rewrite (randomSort_permutes _ _ _) in Htile.
  apply elem_of_app in Htile as [Htile|Htile]; [by apply Hanswers|].
  apply drawDistractors_defined in Htile as [Htile|Htile];
    [by apply elem_of_nil in Htile | done].
Qed.

End Collaborators.

End KanaTileFacts.

(** ** The theorems at work on sample data *)

Module Samples.
Import Mastery Game Fixtures.

Lemma sampleConfig_ok : AdaptiveSelection.ConfigOk AdaptiveSelection.sampleConfig.
Proof. by constructor. Qed.

Lemma sampleSelector_member (candidates : list string)
    (s : SelectorState) :
  candidates ≠ [] →
  (selectWeightedCharacter candidates s).1 ∈ candidates.
Proof.
  intros Hne. simpl.
  destruct (selectWeightedCharacter_member AdaptiveSelection.sampleConfig s (1 # 2) candidates Hne)
    as (c & -> & Hc).
  exact Hc.
Qed.

Lemma sampleRandom_in_range (lo hi : Z) (s : RandomState) :
  lo ≤ hi → lo ≤ (randomInteger lo hi s).1 ≤ hi.
Proof.
  intros Hle. simpl.
  pose proof (Z.mod_pos_bound (Z.of_nat s) (hi - lo + 1) ltac:(lia)). lia.
Qed.

Lemma mastered_iff_thresholds_witness :
  sampleLedger !! "ka" = Some (mkStats 9 1)
  ∧ 0 ≤ 9 ∧ 0 ≤ 1 ∧ 9 + 1 ≤ 2 ^ 50
  ∧ ("ka" ∈ KanjiCards.masteredCharacters sampleLedger
     ↔ 10 ≤ 9 + 1 ∧ (9 # 10 <= inject_Z 9 / inject_Z (9 + 1))%Q).
Proof.
  assert (Hc : 0 ≤ 9) by lia.
  assert (Hi : 0 ≤ 1) by lia.
  assert (Hmax : 9 + 1 ≤ 2 ^ 50) by (vm_compute; discriminate).
  split; [reflexivity|]. split; [exact Hc|]. split; [exact Hi|].
  split; [exact Hmax|].
  exact (proj1 (proj1 (proj2 (proj2
           (mastered_iff_thresholds sampleLedger "ka" (mkStats 9 1) eq_refl)))
           Hc Hi Hmax)).
Defined.

Lemma zero_attempts_never_mastered_witness :
  sampleLedger !! "ki" = Some (mkStats 0 0)
  ∧ 0 + 0 = 0
  ∧ accuracy (mkStats 0 0) = (0, 0)
  ∧ exactAccuracy (mkStats 0 0) = 0%Q
  ∧ "ki" ∉ KanjiCards.masteredCharacters sampleLedger.
Proof.
  split; [reflexivity|]. split; [reflexivity|].
  pose proof (zero_attempts_never_mastered sampleLedger "ki" (mkStats 0 0)
                eq_refl eq_refl) as (Hacc & Hexact & _ & _ & Hkanji & _).
  exact (conj Hacc (conj Hexact Hkanji)).
Defined.

Lemma generateWord_wordChars_distinct_witness :
  (∀ candidates s, candidates ≠ [] →
     (selectWeightedCharacter candidates s).1 ∈ candidates)
  ∧ NoDup (KanaWordBuilding.wordChars
             (KanaWordBuilding.generateWord false 3 sampleKana sampleRomaji
                sampleKanaToRomaji sampleRomajiToKana (sampleWorld 0)).1).
Proof.
  split; [exact sampleSelector_member|].
  exact (generateWord_wordChars_distinct false 3 sampleKana sampleRomaji
           sampleKanaToRomaji sampleRomajiToKana (sampleWorld 0)
           sampleSelector_member).
Defined.

Lemma selectWeightedCharacter_returns_member_witness :
  ["ka"; "ki"] ≠ []
  ∧ ∃ c, AdaptiveSelection.selectWeightedCharacter AdaptiveSelection.sampleConfig AdaptiveSelection.emptySelection
           (1 # 2) ["ka"; "ki"] = inr c
         ∧ c ∈ ["ka"; "ki"].
Proof.
  split; [discriminate|].
  exact (selectWeightedCharacter_returns_member AdaptiveSelection.sampleConfig AdaptiveSelection.emptySelection
           (1 # 2) ["ka"; "ki"] ltac:(discriminate)).
Defined.

Lemma updateCharacterWeight_monotone_and_clamped_witness :
  AdaptiveSelection.ConfigOk AdaptiveSelection.sampleConfig
  ∧ let st :=
      AdaptiveSelection.afterCalls AdaptiveSelection.sampleConfig
        [AdaptiveSelection.Seen "ka"; AdaptiveSelection.Outcome "ka" true] in
    let after (k : nat) :=
      AdaptiveSelection.weightOf AdaptiveSelection.sampleConfig
        (Nat.iter k (AdaptiveSelection.updateCharacterWeight
                       AdaptiveSelection.sampleConfig "ka" false) st) "ka" in
    (after 2%nat <= after 3%nat)%Q
    ∧ ((after 2%nat < after 3%nat)%Q
       ∨ (after 3%nat == AdaptiveSelection.W_max AdaptiveSelection.sampleConfig)%Q).
Proof.
  split; [exact sampleConfig_ok|].
  exact (proj1 (proj2 (proj2 (proj2
           (updateCharacterWeight_monotone_and_clamped
              AdaptiveSelection.sampleConfig sampleConfig_ok
              [AdaptiveSelection.Seen "ka"; AdaptiveSelection.Outcome "ka" true]
              "ka" 2))))).
Defined.

Lemma generateWord_distractors_bounded_distinct_witness :
  3 ≤ Z.of_nat (length sampleKana)
  ∧ let firstLoop :=
      KanaWordBuilding.drawWordChars (Z.to_nat 3) sampleKana [] ∅
        (sampleWorld 0) in
    let answerChars := map (λ k, sampleKanaToRomaji !! k) firstLoop.1 in
    let secondLoop :=
      KanaWordBuilding.drawDistractors
        (Z.to_nat (Z.min 3 (Z.of_nat (length sampleKana) - 3)))
        sampleRomaji (list_to_set answerChars) [] firstLoop.2 in
    Z.of_nat (length secondLoop.1) ≤ Z.min 3 (Z.of_nat (length sampleKana) - 3)
    ∧ NoDup secondLoop.1
    ∧ ∀ d, d ∈ secondLoop.1 → d ∉ answerChars.
Proof.
  split; [simpl; lia|].
  pose proof (generateWord_distractors_bounded_distinct false 3 sampleKana
                sampleRomaji sampleKanaToRomaji sampleRomajiToKana
                (sampleWorld 0) ltac:(simpl; lia)) as (_ & Hlen & Hrest).
  exact (conj Hlen (Hrest sampleRandom_in_range)).
Defined.

Lemma score_never_negative_witness :
  0 ≤ score (sampleWorld 0)
  ∧ 0 ≤ score (KanaWordBuilding.handleCheck None false sampleKanaRound
                 (sampleWorld 0)).2
  ∧ 0 ≤ score (KanjiWordBuilding.handleCheck None false "n5" []
                 sampleKanjiRound (sampleWorld 0)).2.
Proof.
  split; [simpl; lia|].
  pose proof (score_never_negative None false "n5" [] sampleKanaRound
                sampleKanjiRound (sampleWorld 0) ltac:(simpl; lia))
    as (Hkana & Hkanji & _).
  exact (conj Hkana Hkanji).
Defined.

(** The kana game on the sample pool: a word of three characters out of
    five leaves room for two distractors. *)
Example generateWord_sample :
  (KanaWordBuilding.generateWord false 3 sampleKana sampleRomaji
     sampleKanaToRomaji sampleRomajiToKana (sampleWorld 0)).1
  = KanaWordBuilding.mkWordData
      ["ku"; "ke"; "ki"] [Some "KU"; Some "KE"; Some "KI"]
      [Some "KO"; Some "KA"; Some "KI"; Some "KE"; Some "KU"].
Proof. vm_compute. reflexivity. Qed.

(** A pool smaller than the word gives the empty result. *)
Example generateWord_small_pool :
  (KanaWordBuilding.generateWord false 6 sampleKana sampleRomaji
     sampleKanaToRomaji sampleRomajiToKana (sampleWorld 0)).1
  = KanaWordBuilding.mkWordData [] [] [].
Proof. reflexivity. Qed.

(** A wrong answer at score 0 leaves the score at 0 and, with no external
    direction, resets the streak of the hook. *)
Example handleCheck_wrong_at_zero :
  let w' := (KanaWordBuilding.handleCheck None false sampleKanaRound
               (sampleWorld 0)).2 in
  score w' = 0
  ∧ reverseMode w' = DirectionController.mkStreak false 0
  ∧ filter (λ e, isControllerEvent e = true) (trace w') = [RecordWrongAnswer].
Proof. vm_compute. done. Qed.

(** The three sample counters, in the code's test and in the spec's. *)
Example meetsThresholds_samples :
  (meetsThresholds (mkStats 9 1) = true
   ∧ meetsThresholds (mkStats 8 1) = false
   ∧ meetsThresholds (mkStats 89 11) = false)
  ∧ (meetsThresholdsExactly (mkStats 9 1) = true
     ∧ meetsThresholdsExactly (mkStats 8 1) = false
     ∧ meetsThresholdsExactly (mkStats 89 11) = false).
Proof. vm_compute. done. Qed.

(** Far beyond the bound the two tests part: with these counters the exact
    quotient is just below 9/10 and its nearest double is the double
    [0.9]. *)
Example tests_part_beyond_the_bound :
  let stats := mkStats 8099999999999999 900000000000000 in
  meetsThresholds stats = true ∧ meetsThresholdsExactly stats = false.
Proof. vm_compute. done. Qed.

End Samples.

(** ** The further theorems at work on sample data *)

Module MoreSamples.
Import Mastery Game Grid Fixtures MoreFixtures.

Lemma sampleRandom_permutes (A : Type) (xs : list A) (s : RandomState) :
  (randomSort xs s).1 ≡ₚ xs.
Proof. simpl. symmetry. apply Permutation_rev. Qed.

Lemma meetsThresholds64_exact_witness :
  0 ≤ correct (mkStats 9 1)
  ∧ 0 ≤ incorrect (mkStats 9 1)
  ∧ total (mkStats 9 1) ≤ 2 ^ 50
  ∧ meetsThresholds (mkStats 9 1) = meetsThresholdsExactly (mkStats 9 1).
Proof.
  assert (Hc : 0 ≤ correct (mkStats 9 1)) by (simpl; lia).
  assert (Hi : 0 ≤ incorrect (mkStats 9 1)) by (simpl; lia).
  assert (Ht : total (mkStats 9 1) ≤ 2 ^ 50) by (vm_compute; discriminate).
  exact (conj Hc (conj Hi (conj Ht
           (meetsThresholds64_exact (mkStats 9 1) Hc Hi Ht)))).
Defined.

Lemma correct_answers_never_lose_mastery_witness :
  sampleLedger !! "ka" = Some (mkStats 9 1)
  ∧ 0 ≤ 1
  ∧ KanjiCards.masteredCharacters sampleLedger
      ⊆ KanjiCards.masteredCharacters
          (<[ "ka" := mkStats (9 + 1) 1 ]> sampleLedger).
Proof.
  split; [reflexivity|]. split; [lia|].
  exact (proj1 (correct_answers_never_lose_mastery sampleLedger "ka"
                  (mkStats 9 1) 1 eq_refl ltac:(lia))).
Defined.

Lemma set_names_number_consecutively_witness :
  (∀ level,
     KanjiCards.prevLength (sampleKanjiCollections level)
     = loadCumulativeCounts
         (λ l, length (KanjiCards.data (sampleKanjiCollections l))) level)
  ∧ let names :=
      concat (map (λ level,
                     map name (KanjiGrid.sets (sampleKanjiCollections level) ∅))
                  levelOrder) in
    names = map (λ i, "Set " +:+ pretty (i + 1)%nat) (seq 0 (length names))
    ∧ NoDup names.
Proof.
  assert (Hprev : ∀ level,
            KanjiCards.prevLength (sampleKanjiCollections level)
            = loadCumulativeCounts
                (λ l, length (KanjiCards.data (sampleKanjiCollections l)))
                level) by (intros []; reflexivity).
  split; [exact Hprev|].
  exact (set_names_number_consecutively sampleKanjiCollections ∅ Hprev).
Defined.

Lemma loadMoreRows_reveals_next_rows_witness :
  isLoadingMore initialPaging = false
  ∧ timers initialPaging = []
  ∧ length (visibleRows (seq 0 12)
              (fireTimer (loadMoreRows (length (seq 0 12)) initialPaging)))
    = Nat.min (length (visibleRows (seq 0 12) initialPaging) + ROWS_PER_LOAD)
              (length (seq 0 12)).
Proof.
  split; [reflexivity|]. split; [reflexivity|].
  exact (proj1 (loadMoreRows_reveals_next_rows (seq 0 12) initialPaging
                  eq_refl eq_refl)).
Defined.

Lemma generateWord_offers_every_answer_witness :
  (∀ (A : Type) (xs : list A) s, (randomSort xs s).1 ≡ₚ xs)
  ∧ let word := (KanaWordBuilding.generateWord false 3 sampleKana sampleRomaji
                   sampleKanaToRomaji sampleRomajiToKana (sampleWorld 0)).1 in
    ∀ tile, tile ∈ KanaWordBuilding.answerChars word →
            tile ∈ KanaWordBuilding.allTiles word.
Proof.
  split; [exact sampleRandom_permutes|].
  exact (proj1 (generateWord_offers_every_answer sampleRandom_permutes false 3
                  sampleKana sampleRomaji sampleKanaToRomaji
                  sampleRomajiToKana (sampleWorld 0))).
Defined.

Lemma generateQuestion_offers_the_answer_witness :
  (∀ (A : Type) (xs : list A) s, (randomSort xs s).1 ≡ₚ xs)
  ∧ (∀ candidates s, candidates ≠ [] →
       (selectWeightedCharacter candidates s).1 ∈ candidates)
  ∧ sampleKanjiObjs ≠ []
  ∧ let question := (KanjiWordBuilding.generateQuestion false sampleKanjiObjs
                       2 (sampleWorld 0)).1 in
    KanjiWordBuilding.correctAnswer question
      ∈ KanjiWordBuilding.allTiles question.
Proof.
  split; [exact sampleRandom_permutes|].
  split; [exact Samples.sampleSelector_member|].
  split; [discriminate|].
  destruct (generateQuestion_offers_the_answer sampleRandom_permutes false
              sampleKanjiObjs 2 (sampleWorld 0) Samples.sampleSelector_member
              ltac:(discriminate)) as (obj & _ & _ & _ & Hin & _).
  exact Hin.
Defined.

Lemma kanaTables_pair_kana_with_romaji_witness :
  KanaRound.kanaTables sampleKanaData [0%nat; 1%nat] = Some sampleTables
  ∧ length (KanaRound.selectedKana sampleTables)
    = length (KanaRound.selectedRomaji sampleTables)
  ∧ ∀ k, k ∈ KanaRound.selectedKana sampleTables
         ↔ is_Some (KanaRound.kanaToRomaji sampleTables !! k).
Proof.
  split; [reflexivity|]. split; [reflexivity|].
  exact (proj1 (proj2 (kanaTables_pair_kana_with_romaji sampleKanaData
                         [0%nat; 1%nat] sampleTables eq_refl eq_refl))).
Defined.

Lemma score_stays_non_negative_through_a_session_witness :
  let onCorrect : list string → Eff unit := λ chars, emit PlayCorrect in
  (∀ w : World, 0 ≤ score w → 0 ≤ score (ret tt w).2)
  ∧ (∀ f chars (w : World), Some onCorrect = Some f →
                            0 ≤ score w → 0 ≤ score (f chars w).2)
  ∧ 0 ≤ score (sampleWorld 0)
  ∧ let kanaSession :=
      bind (KanaRound.mount None 2 sampleTables)
           (KanaRound.play None false (Some onCorrect) 2 sampleTables (ret tt)
              [KanaRound.TileClick (Some "XX"); KanaRound.BarAction]) in
    0 ≤ score (kanaSession (sampleWorld 0)).2.
Proof.
  intros onCorrect.
  assert (Hstart : ∀ w : World, 0 ≤ score w → 0 ≤ score (ret tt w).2)
    by (intros w Hw; exact Hw).
  assert (Hcorrect : ∀ f chars (w : World), Some onCorrect = Some f →
                       0 ≤ score w → 0 ≤ score (f chars w).2)
    by (intros f chars w [= <-] Hw; exact Hw).
  assert (Hscore : 0 ≤ score (sampleWorld 0)) by (simpl; lia).
  split; [exact Hstart|]. split; [exact Hcorrect|]. split; [exact Hscore|].
  exact (proj1 (score_stays_non_negative_through_a_session (ret tt)
                  (Some onCorrect) Hstart Hcorrect None 2 sampleTables 2 "n5"
                  sampleKanjiObjs
                  [KanaRound.TileClick (Some "XX"); KanaRound.BarAction] []
                  (sampleWorld 0) Hscore)).
Defined.

Lemma kana_tiles_are_never_undefined_witness :
  KanaRound.kanaTables sampleKanaData [0%nat; 1%nat] = Some sampleTables
  ∧ length (KanaRound.selectedKana sampleTables)
    = length (KanaRound.selectedRomaji sampleTables)
  ∧ let word := (KanaWordBuilding.generateWord false 2
                   (KanaRound.selectedKana sampleTables)
                   (KanaRound.selectedRomaji sampleTables)
                   (KanaRound.kanaToRomaji sampleTables)
                   (KanaRound.romajiToKana sampleTables) (sampleWorld 0)).1 in
    ∀ tile, tile ∈ KanaWordBuilding.allTiles word →
            ∃ c, tile = Some c ∧ c ∈ KanaRound.selectedRomaji sampleTables.
Proof.
  split; [reflexivity|]. split; [reflexivity|].
  exact (proj2 (proj2 (kana_tiles_are_never_undefined
                         Samples.sampleSelector_member
                         Samples.sampleRandom_in_range sampleRandom_permutes
                         sampleKanaData [0%nat; 1%nat] sampleTables false 2
                         (sampleWorld 0) eq_refl eq_refl))).
Defined.

(** The sample grid: three sets, numbered through the levels. *)
Example sample_set_names :
  concat (map (λ level,
                 map name (KanjiGrid.sets (sampleKanjiCollections level) ∅))
              levelOrder)
  = ["Set 1"; "Set 2"; "Set 3"].
Proof. vm_compute. reflexivity. Qed.

(** A kanji question on the sample selection, two distractors asked for. *)
Example generateQuestion_sample :
  (KanjiWordBuilding.generateQuestion false sampleKanjiObjs 2
     (sampleWorld 0)).1
  = KanjiWordBuilding.mkQuestionData "hi" (Some "fire")
      [Some "tree"; Some "water"; Some "fire"] (Some "hi").
Proof. vm_compute. reflexivity. Qed.

(** A wrong kana answer, then a click on the misplaced tile: the bar is
    back to "check" and the row is empty. *)
Example tile_click_after_wrong_answer :
  let session :=
    KanaRound.play None false None 2 sampleTables (ret tt)
      [KanaRound.BarAction; KanaRound.TileClick (Some "KO")]
      sampleKanaRound in
  (session (sampleWorld 0)).1
  = KanaWordBuilding.mkGameState (KanaWordBuilding.wordData sampleKanaRound)
      [] false false BarCheck.
Proof. vm_compute. reflexivity. Qed.

End MoreSamples.
